(** * The Palette: a shallow embedding of the colour engine

  The engine is TypeScript.  A JavaScript [number] is modelled as a real
  number ([R]): arithmetic is exact, there is no rounding, no [NaN] and no
  infinity.  Comparisons are the decidable order of [R]; [Math.sin],
  [Math.sqrt] and [Math.pow] are the real functions.  Optional fields
  ([x?: number]) are [option]; a function returning [T | null] returns
  [option T].

  The program computes in binary64, where every operation but [%] rounds.
  The theorems therefore state a computed number through the expression
  the code evaluates (a hue is [normalizeHue (h + 180)], not [h + 180]
  reduced by hand), or bound it; equalities that hold of the real numbers
  only are not stated.  Where rounding decides a question, the functions
  concerned are given a second time on binary64 numbers, in the module
  [Binary64], and evaluated there.

  The colour library the engine imports (culori: [parse], [converter],
  [clampChroma], [formatHex], [formatRgb]) is not part of the repository;
  only its type declarations are ([types/culori.d.ts]).  It is taken as a
  parameter, the class [Library], and every fact about it that a theorem
  needs is a stated hypothesis of that theorem. *)

From Stdlib Require Import Reals Lra Lia ZArith Ascii String DecimalString.
From Stdlib Require Import Bool List.
From Stdlib Require Import Sorting.Sorted Sorting.Permutation.
From Stdlib Require Floats.
Import ListNotations.
Open Scope R_scope.

(* ================================================================== *)
(** ** JavaScript primitives on numbers *)

Module Js.

(** [Math.floor(x)] *)
Definition floor (x : R) : R := IZR (Zfloor x).

(** Truncation toward zero: the integer quotient behind [%]. *)
Definition trunc (x : R) : R :=
  if Rle_dec 0 x then floor x else - floor (- x).

(** [x % y]: the remainder has the sign of the dividend. *)
Definition rem (x y : R) : R := x - y * trunc (x / y).

(** [Math.round(x)]: the nearest integer, ties toward +infinity. *)
Definition round (x : R) : R := floor (x + / 2).

(** [isNaN(x)]: no real number is [NaN]. *)
Definition isNaN (_ : R) : bool := false.

(** [Math.pow(x, y)].  The cases whose JavaScript value is [Infinity]
    (zero to a negative power) or [NaN] (a negative base with a fractional
    exponent) have no real value; they are given 0 and are not used. *)
Definition pow (x y : R) : R :=
  if Rlt_dec 0 x then Rpower x y
  else if Req_dec_T x 0 then
    (if Rlt_dec 0 y then 0 else if Req_dec_T y 0 then 1 else 0)
  else if Req_dec_T y (IZR (Zfloor y)) then powerRZ x (Zfloor y)
  else 0.

(** [for (let i = 0; i < n; i++)]: the loop body runs for the naturals
    below [n], that is [ceil n] times (none when [n <= 0]). *)
Definition iterations (n : R) : nat := Z.to_nat (Zceil n).

(** [a[i]] for an integer-valued, in-range [i]: the position read. *)
Definition index (i : R) : nat := Z.to_nat (Zfloor i).

(** [a[i]] for an integer-valued [i]: [None] is [undefined]. *)
Definition get {A : Type} (a : list A) (i : R) : option A :=
  if Rle_dec 0 i then nth_error a (index i) else None.

(** [o ?? d] *)
Definition nullish {A : Type} (o : option A) (d : A) : A :=
  match o with Some v => v | None => d end.

(** [s || d] on strings: the empty string is falsy. *)
Definition or_else (s d : string) : string :=
  match s with EmptyString => d | _ => s end.

(** [xs.filter((c) => c !== null)] *)
Fixpoint filter_non_null {A : Type} (xs : list (option A)) : list A :=
  match xs with
  | [] => []
  | Some x :: r => x :: filter_non_null r
  | None :: r => filter_non_null r
  end.

End Js.

(* ================================================================== *)
(** ** The colour library's values ([types/culori.d.ts]) *)

Module Culori.

Module Rgb.
Record t : Type := mk { r : R; g : R; b : R }.
End Rgb.

Module Oklch.
Record t : Type := mk { l : R; c : R; h : option R }.
End Oklch.

Module Hsl.
Record t : Type := mk { h : option R; s : R; l : R }.
End Hsl.

(** [type Color = Rgb | Oklch | Hsl]: the [mode] tag is the constructor. *)
Inductive Color : Type :=
  | rgb (x : Rgb.t)
  | oklch (x : Oklch.t)
  | hsl (x : Hsl.t).

End Culori.

(** The functions imported from the library, and [Number.prototype.toFixed],
  whose decimal printing is not modelled. *)
Class Library : Type := {
  parse : string -> option Culori.Rgb.t;
  formatHex : Culori.Color -> string;
  formatRgb : Culori.Color -> string;
(** [converter("oklch")], [converter("rgb")], [converter("hsl")] *)
  toOklch : Culori.Color -> option Culori.Oklch.t;
  toRgb : Culori.Color -> option Culori.Rgb.t;
  toHsl : Culori.Color -> option Culori.Hsl.t;
(** [clampChroma(color, "oklch")] *)
  clampChroma : Culori.Color -> Culori.Oklch.t;
(** [x.toFixed(digits)] *)
  toFixed : R -> nat -> string
}.

(* ================================================================== *)
(** ** [lib/color-utils.ts] *)

Inductive ColorSpace : Type := oklch_space | hsl_space.

Module RGB.
Record t : Type := mk { r : R; g : R; b : R }.
End RGB.

Module LCH.
Record t : Type := mk { l : R; c : R; h : R }.
End LCH.

Module HSL.
Record t : Type := mk { h : R; s : R; l : R }.
End HSL.

Record ColorResult : Type := mkColor {
  hex : string;
  rgb : RGB.t;
  oklch : LCH.t;
  hsl : HSL.t;
  cssOklch : string;
  cssRgb : string;
  cssHsl : string
}.

Section ColorUtils.
Context {lib : Library}.

Definition round255 (x : Culori.Rgb.t) : RGB.t :=
  RGB.mk (Js.round (Culori.Rgb.r x * 255))
         (Js.round (Culori.Rgb.g x * 255))
         (Js.round (Culori.Rgb.b x * 255)).

(** The three template strings. *)
Definition css_oklch (l c h : R) : string :=
  ("oklch(" ++ toFixed (l * 100) 1 ++ "% " ++ toFixed c 3 ++ " "
     ++ toFixed h 1 ++ ")")%string.

Definition css_hsl (h s l : R) : string :=
  ("hsl(" ++ toFixed h 0 ++ ", " ++ toFixed s 0 ++ "%, "
     ++ toFixed l 0 ++ "%)")%string.

(** The record built from a clamped OKLCH colour and the RGB and HSL
    colours derived from it ([parseColor] and [fromOklch] share it). *)
Definition result_of (clamped : Culori.Oklch.t) (rgbColor : Culori.Rgb.t)
    (hslColor : Culori.Hsl.t) : ColorResult :=
  let l := Culori.Oklch.l clamped in
  let c := Culori.Oklch.c clamped in
  let h := Js.nullish (Culori.Oklch.h clamped) 0 in
  let hh := Js.nullish (Culori.Hsl.h hslColor) 0 in
  {| hex := Js.or_else (formatHex (Culori.rgb rgbColor)) "#000000";
     rgb := round255 rgbColor;
     oklch := LCH.mk l c h;
     hsl := HSL.mk hh (Culori.Hsl.s hslColor * 100)
                   (Culori.Hsl.l hslColor * 100);
     cssOklch := css_oklch l c h;
     cssRgb := Js.or_else (formatRgb (Culori.rgb rgbColor)) "rgb(0, 0, 0)";
     cssHsl := css_hsl hh (Culori.Hsl.s hslColor * 100)
                       (Culori.Hsl.l hslColor * 100) |}.

(** [parseColor(input)]; an exception of the library is its [None]. *)
Definition parseColor (input : string) : option ColorResult :=
  match parse input with
  | None => None
  | Some parsed =>
    match toOklch (Culori.rgb parsed), toRgb (Culori.rgb parsed),
          toHsl (Culori.rgb parsed) with
    | Some oklchColor, Some _, Some _ =>
      let clamped := clampChroma (Culori.oklch oklchColor) in
      match toRgb (Culori.oklch clamped), toHsl (Culori.oklch clamped) with
      | Some clampedRgb, Some clampedHsl =>
        Some (result_of clamped clampedRgb clampedHsl)
      | _, _ => None
      end
    | _, _, _ => None
    end
  end.

(** [fromOklch(l, c, h)] *)
Definition fromOklch (l c h : R) : option ColorResult :=
  let color := Culori.Oklch.mk l c (Some h) in
  let clamped := clampChroma (Culori.oklch color) in
  match toRgb (Culori.oklch clamped), toHsl (Culori.oklch clamped) with
  | Some rgbColor, Some hslColor => Some (result_of clamped rgbColor hslColor)
  | _, _ => None
  end.

(** [fromHsl(h, s, l)]: the HSL triple is stored as it was given. *)
Definition fromHsl (h s l : R) : option ColorResult :=
  let color := Culori.Hsl.mk (Some h) (s / 100) (l / 100) in
  match toOklch (Culori.hsl color), toRgb (Culori.hsl color) with
  | Some oklchColor, Some _ =>
    let clamped := clampChroma (Culori.oklch oklchColor) in
    match toRgb (Culori.oklch clamped) with
    | Some clampedRgb =>
      let cl := Culori.Oklch.l clamped in
      let cc := Culori.Oklch.c clamped in
      let ch := Js.nullish (Culori.Oklch.h clamped) 0 in
      Some {| hex := Js.or_else (formatHex (Culori.rgb clampedRgb)) "#000000";
              rgb := round255 clampedRgb;
              oklch := LCH.mk cl cc ch;
              hsl := HSL.mk h s l;
              cssOklch := css_oklch cl cc ch;
              cssRgb := Js.or_else (formatRgb (Culori.rgb clampedRgb))
                                   "rgb(0, 0, 0)";
              cssHsl := css_hsl h s l |}
    | None => None
    end
  | _, _ => None
  end.

(** [normalizeHue(h)] *)
Definition normalizeHue (h : R) : R := Js.rem (Js.rem h 360 + 360) 360.

End ColorUtils.


(* ================================================================== *)
(** ** [lib/generators/harmonic.ts]

    In the sources this module is the second half of the file
    [lib/generators/interpolation.ts], from its line 223 on. *)

Module Harmonic.

Inductive HarmonyType : Type :=
| complementary
| split_complementary
| triadic
| tetradic
| analogous
| golden_ratio.

Record HarmonyConfig : Type := mkConfig {
  type : HarmonyType;
  count : option R;   (* for golden-ratio expansion *)
  spread : option R   (* for analogous *)
}.

Definition goldenAngle : R := 137.507764.

Section Generators.
Context {lib : Library}.

(** The [switch] of both generators; [createColor] is the closure each of
    them builds.  A [results.push(x!)] pushes [x] whether or not it is
    [null]; the final [filter] drops the [null]s. *)
Definition harmony_results (baseColor : ColorResult)
    (createColor : R -> option ColorResult) (h : R)
    (type : HarmonyType) (count spread : R) : list (option ColorResult) :=
  match type with
  | complementary =>
      [Some baseColor; createColor (h + 180)]
  | split_complementary =>
      [Some baseColor; createColor (h + 150); createColor (h + 210)]
  | triadic =>
      [Some baseColor; createColor (h + 120); createColor (h + 240)]
  | tetradic =>
      [Some baseColor; createColor (h + 90); createColor (h + 180);
       createColor (h + 270)]
  | analogous =>
      [createColor (h - spread * 2); createColor (h - spread);
       Some baseColor;
       createColor (h + spread); createColor (h + spread * 2)]
  | golden_ratio =>
      map (fun i => createColor (h + INR i * goldenAngle))
          (seq 0 (Js.iterations count))
  end.

Definition generateHarmonyOklch (baseColor : ColorResult)
    (type : HarmonyType) (count spread : R) : list ColorResult :=
  let l := LCH.l (oklch baseColor) in
  let c := LCH.c (oklch baseColor) in
  let h := LCH.h (oklch baseColor) in
  let createColor := fun hue => fromOklch l c (normalizeHue hue) in
  Js.filter_non_null
    (harmony_results baseColor createColor h type count spread).

Definition generateHarmonyHsl (baseColor : ColorResult)
    (type : HarmonyType) (count spread : R) : list ColorResult :=
  let h := HSL.h (hsl baseColor) in
  let s := HSL.s (hsl baseColor) in
  let l := HSL.l (hsl baseColor) in
  let createColor := fun hue => fromHsl (normalizeHue hue) s l in
  Js.filter_non_null
    (harmony_results baseColor createColor h type count spread).

(** [generateHarmony(baseColor, config, colorSpace)], with the defaults
    [count = 5] and [spread = 30] of the destructuring. *)
Definition generateHarmony (baseColor : ColorResult)
    (config : HarmonyConfig) (colorSpace : ColorSpace) : list ColorResult :=
  let count := Js.nullish (count config) 5 in
  let spread := Js.nullish (spread config) 30 in
  match colorSpace with
  | oklch_space => generateHarmonyOklch baseColor (type config) count spread
  | hsl_space => generateHarmonyHsl baseColor (type config) count spread
  end.

End Generators.
End Harmonic.

(* ================================================================== *)
(** ** [lib/generators/interpolation.ts]

    [stepsPerSegment] is computed by [interpolateLinear] and never read; it
    is left out. *)

Module Interpolation.

Definition lerp (a b t : R) : R := a + (b - a) * t.

(** [lerpHue(h1, h2, t)].  The three guards on [NaN] are kept; on real
    numbers they never fire. *)
Definition lerpHue (h1 h2 t : R) : R :=
  let h1 := if Js.isNaN h1 then h2 else h1 in
  let h2 := if Js.isNaN h2 then h1 else h2 in
  if Js.isNaN h1 && Js.isNaN h2 then 0
  else
    let diff := h2 - h1 in
    let diff := if Rgt_dec diff 180 then diff - 360 else diff in
    let diff := if Rlt_dec diff (-180) then diff + 360 else diff in
    Js.rem (h1 + diff * t + 360) 360.

Section Linear.
Context {lib : Library}.

(** The body of the loop of [interpolateLinear] at counter [i].  The two
    array reads are in range (lemma [segmentIndex_in_range] below), so the
    default [c0] of [nth] is never returned. *)
Definition linear_step (colors : list ColorResult) (c0 : ColorResult)
    (steps : R) (colorSpace : ColorSpace) (i : R) : option ColorResult :=
  let segments := INR (length colors) - 1 in
  let t := i / (steps - 1) in
  let globalPos := t * segments in
  let segmentIndex := Rmin (Js.floor globalPos) (segments - 1) in
  let localT := globalPos - segmentIndex in
  let c1 := nth (Js.index segmentIndex) colors c0 in
  let c2 := nth (Js.index (segmentIndex + 1)) colors c0 in
  match colorSpace with
  | oklch_space =>
      let l := lerp (LCH.l (oklch c1)) (LCH.l (oklch c2)) localT in
      let c := lerp (LCH.c (oklch c1)) (LCH.c (oklch c2)) localT in
      let h := lerpHue (LCH.h (oklch c1)) (LCH.h (oklch c2)) localT in
      fromOklch l c h
  | hsl_space =>
      let h := lerpHue (HSL.h (hsl c1)) (HSL.h (hsl c2)) localT in
      let s := lerp (HSL.s (hsl c1)) (HSL.s (hsl c2)) localT in
      let l := lerp (HSL.l (hsl c1)) (HSL.l (hsl c2)) localT in
      fromHsl h s l
  end.

(** [interpolateLinear(colors, steps, colorSpace)] *)
Definition interpolateLinear (colors : list ColorResult) (steps : R)
    (colorSpace : ColorSpace) : list ColorResult :=
  match colors with
  | [] => []
  | [c0] => [c0]
  | c0 :: _ :: _ =>
      if Rlt_dec steps 2 then [c0; last colors c0]
      else
        Js.filter_non_null
          (map (fun i => linear_step colors c0 steps colorSpace (INR i))
               (seq 0 (Js.iterations steps)))
  end.

End Linear.
End Interpolation.

(* ================================================================== *)
(** ** [lib/generators/colorful.ts] *)

Module Colorful.

Inductive ColorfulMethod : Type :=
| hue_sweep
| golden_angle
| random_vibrant
| random_pastel
| random_dark
| random_warm
| random_cool
| earth_tones
| neon.

Record ColorfulConfig : Type := mkConfig {
  method : ColorfulMethod;
  count : R;
  seed : option R;
  fixedLightness : option R;      (* 0-1 *)
  fixedChroma : option R;         (* 0-0.4 *)
  fixedSaturation : option R;     (* 0-100 *)
  fixedLightnessHsl : option R    (* 0-100 *)
}.

(** *** The seeded generator

    [seededRandom(seed)] returns a closure over the variable [s]; every call
    of the closure updates [s].  The closure is modelled by its captured
    variable, and a computation that calls it by a function from the value
    of [s] before to a result and the value of [s] after. *)

Definition Rand (A : Type) : Type := R -> A * R.

Definition ret {A : Type} (a : A) : Rand A := fun s => (a, s).

Definition bind {A B : Type} (m : Rand A) (k : A -> Rand B) : Rand B :=
  fun s => let (a, s') := m s in k a s'.

Notation "x <- m ;; k" := (bind m (fun x => k))
  (at level 61, m at next level, right associativity).

(** [seededRandom(seed)]: the initial value of the captured [s]. *)
Definition seededRandom (seed : R) : R := seed.

(** One call [random()]:
    [s = Math.sin(s * 9999) * 10000; return s - Math.floor(s)]. *)
Definition random : Rand R :=
  fun s => let s' := sin (s * 9999) * 10000 in (s' - Js.floor s', s').

(** [fixed ?? (base + random() * scale)]: [random()] is called only when
    the fixed value is absent. *)
Definition fixed_or (fixed : option R) (base scale : R) : Rand R :=
  match fixed with
  | Some v => ret v
  | None => r <- random ;; ret (base + r * scale)
  end.

(** [for (let i = 0; i < count; i++) { color = body; if (color)
    results.push(color) }], started at counter [i] with [n] rounds left. *)
Fixpoint for_push {A : Type} (body : nat -> Rand (option A)) (i n : nat)
  : Rand (list A) :=
  match n with
  | O => ret []
  | S n' =>
      color <- body i ;;
      rest <- for_push body (S i) n' ;;
      ret (match color with Some c => c :: rest | None => rest end)
  end.

Section Generators.
Context {lib : Library}.

(** The tail shared by every loop body: lightness and chroma (or saturation
    and lightness) are fixed or drawn, then the colour is built. *)
Definition styled (config : ColorfulConfig) (colorSpace : ColorSpace) (h : R)
    (l0 l1 c0 c1 s0 s1 hl0 hl1 : R) : Rand (option ColorResult) :=
  match colorSpace with
  | oklch_space =>
      l <- fixed_or (fixedLightness config) l0 l1 ;;
      c <- fixed_or (fixedChroma config) c0 c1 ;;
      ret (fromOklch l c h)
  | hsl_space =>
      s <- fixed_or (fixedSaturation config) s0 s1 ;;
      lHsl <- fixed_or (fixedLightnessHsl config) hl0 hl1 ;;
      ret (fromHsl h s lHsl)
  end.

Definition generateHueSweep (count : R) (config : ColorfulConfig)
    (colorSpace : ColorSpace) : list ColorResult :=
  let hueStep := 360 / count in
  Js.filter_non_null
    (map (fun i =>
            let h := normalizeHue (INR i * hueStep) in
            match colorSpace with
            | oklch_space =>
                fromOklch (Js.nullish (fixedLightness config) 0.65)
                          (Js.nullish (fixedChroma config) 0.18) h
            | hsl_space =>
                fromHsl h (Js.nullish (fixedSaturation config) 75)
                        (Js.nullish (fixedLightnessHsl config) 55)
            end)
         (seq 0 (Js.iterations count))).

Definition generateGoldenAngle (count : R) (config : ColorfulConfig)
    (colorSpace : ColorSpace) : Rand (list ColorResult) :=
  let goldenAngle := 137.507764 in
  r <- random ;;
  let startHue := r * 360 in
  for_push (fun i =>
              let h := normalizeHue (startHue + INR i * goldenAngle) in
              styled config colorSpace h 0.45 0.25 0.12 0.12 60 30 45 25)
           0 (Js.iterations count).

Definition generateRandomVibrant (count : R) (config : ColorfulConfig)
    (colorSpace : ColorSpace) : Rand (list ColorResult) :=
  for_push (fun _ =>
              r <- random ;;
              let h := r * 360 in
              styled config colorSpace h 0.55 0.2 0.2 0.1 80 20 50 15)
           0 (Js.iterations count).

Definition generateRandomPastel (count : R) (config : ColorfulConfig)
    (colorSpace : ColorSpace) : Rand (list ColorResult) :=
  for_push (fun _ =>
              r <- random ;;
              let h := r * 360 in
              styled config colorSpace h 0.85 0.1 0.05 0.08 40 30 80 15)
           0 (Js.iterations count).

Definition generateRandomDark (count : R) (config : ColorfulConfig)
    (colorSpace : ColorSpace) : Rand (list ColorResult) :=
  for_push (fun _ =>
              r <- random ;;
              let h := r * 360 in
              styled config colorSpace h 0.2 0.25 0.08 0.12 50 40 15 25)
           0 (Js.iterations count).

Definition generateRandomWarm (count : R) (config : ColorfulConfig)
    (colorSpace : ColorSpace) : Rand (list ColorResult) :=
  for_push (fun _ =>
              r <- random ;;
              h <- (if Rgt_dec r 0.3
                    then r' <- random ;; ret (r' * 80)
                    else r' <- random ;; ret (300 + r' * 60)) ;;
              let h := normalizeHue h in
              styled config colorSpace h 0.5 0.3 0.12 0.15 60 35 45 35)
           0 (Js.iterations count).

Definition generateRandomCool (count : R) (config : ColorfulConfig)
    (colorSpace : ColorSpace) : Rand (list ColorResult) :=
  for_push (fun _ =>
              r <- random ;;
              let h := 120 + r * 180 in
              styled config colorSpace h 0.45 0.35 0.1 0.15 55 40 40 40)
           0 (Js.iterations count).

Definition generateEarthTones (count : R) (config : ColorfulConfig)
    (colorSpace : ColorSpace) : Rand (list ColorResult) :=
  for_push (fun _ =>
              r <- random ;;
              let h := 20 + r * 70 in
              styled config colorSpace h 0.35 0.35 0.04 0.08 25 35 30 40)
           0 (Js.iterations count).

Definition generateNeon (count : R) (config : ColorfulConfig)
    (colorSpace : ColorSpace) : Rand (list ColorResult) :=
  for_push (fun _ =>
              r <- random ;;
              let h := r * 360 in
              styled config colorSpace h 0.75 0.15 0.25 0.1 95 5 55 15)
           0 (Js.iterations count).

(** [generateColorful(config, colorSpace)].  [now] is the value that
    [Date.now()] returns at the call; it is read only as the default of
    [seed]. *)
Definition generateColorful (now : R) (config : ColorfulConfig)
    (colorSpace : ColorSpace) : list ColorResult :=
  let seed := Js.nullish (seed config) now in
  let random := seededRandom seed in
  let count := count config in
  match method config with
  | hue_sweep => generateHueSweep count config colorSpace
  | golden_angle => fst (generateGoldenAngle count config colorSpace random)
  | random_vibrant => fst (generateRandomVibrant count config colorSpace random)
  | random_pastel => fst (generateRandomPastel count config colorSpace random)
  | random_dark => fst (generateRandomDark count config colorSpace random)
  | random_warm => fst (generateRandomWarm count config colorSpace random)
  | random_cool => fst (generateRandomCool count config colorSpace random)
  | earth_tones => fst (generateEarthTones count config colorSpace random)
  | neon => fst (generateNeon count config colorSpace random)
  end.

End Generators.
End Colorful.

(* ================================================================== *)
(** ** The cool spectrum of the second colourful module

    The sources hold a second colourful module ([unnamed/part_006]) whose
    methods are spectra; its cool method steps evenly from 120 to 280
    degrees and calls no random generator. *)

Module Spectrum.

Record ColorfulConfig : Type := mkConfig {
  count : R;
  seed : option R;
  shuffle : option bool;
  fixedLightness : option R;
  fixedChroma : option R;
  fixedSaturation : option R;
  fixedLightnessHsl : option R
}.

Section Generators.
Context {lib : Library}.

(** [generateCoolSpectrum(count, config, colorSpace)]; [count - 1 || 1] is
    1 when [count - 1] is 0. *)
Definition generateCoolSpectrum (count : R) (config : ColorfulConfig)
    (colorSpace : ColorSpace) : list ColorResult :=
  let startHue := 120 in
  let endHue := 280 in
  let hueStep :=
    (endHue - startHue)
    / (if Req_dec_T (count - 1) 0 then 1 else count - 1) in
  Js.filter_non_null
    (map (fun i =>
            let h := normalizeHue (startHue + INR i * hueStep) in
            match colorSpace with
            | oklch_space =>
                fromOklch (Js.nullish (fixedLightness config) 0.60)
                          (Js.nullish (fixedChroma config) 0.15) h
            | hsl_space =>
                fromHsl h (Js.nullish (fixedSaturation config) 65)
                        (Js.nullish (fixedLightnessHsl config) 50)
            end)
         (seq 0 (Js.iterations count))).

End Generators.
End Spectrum.

(* ================================================================== *)
(** ** [lib/contrast.ts] *)

Module Contrast.

Definition sRGBtoY (rgb : RGB.t) : R :=
  let mainTRC := 2.4 in
  let r := Js.pow (RGB.r rgb / 255) mainTRC in
  let g := Js.pow (RGB.g rgb / 255) mainTRC in
  let b := Js.pow (RGB.b rgb / 255) mainTRC in
  0.2126729 * r + 0.7151522 * g + 0.0721750 * b.

Definition APCAcontrast (txtY bgY : R) : R :=
  let normBG := 0.56 in
  let normTXT := 0.57 in
  let revTXT := 0.62 in
  let revBG := 0.65 in
  let scaleBoW := 1.14 in
  let scaleWoB := 1.14 in
  let loBoWoffset := 0.027 in
  let loWoBoffset := 0.027 in
  let loClip := 0.1 in
  let txtY := Rmax 0 txtY in
  let bgY := Rmax 0 bgY in
  if Rgt_dec bgY txtY then
    let SAPC := (Js.pow bgY normBG - Js.pow txtY normTXT) * scaleBoW in
    if Rlt_dec SAPC loClip then 0 else SAPC - loBoWoffset
  else
    let SAPC := (Js.pow bgY revBG - Js.pow txtY revTXT) * scaleWoB in
    if Rgt_dec SAPC (- loClip) then 0 else SAPC + loWoBoffset.

Definition getAPCAContrast (textColor bgColor : ColorResult) : R :=
  let txtY := sRGBtoY (rgb textColor) in
  let bgY := sRGBtoY (rgb bgColor) in
  APCAcontrast txtY bgY * 100.

Section TextColor.
Context {lib : Library}.

(** [getContrastTextColor(bgColor)], [bgColor] a [ColorResult] or a string.
    The two [parseColor(...)!] are dereferenced without a test: the result
    is [None] when the call throws on a [null] one. *)
Definition getContrastTextColor (bgColor : ColorResult + string)
  : option string :=
  let bg := match bgColor with
            | inr s => parseColor s
            | inl c => Some c
            end in
  match bg with
  | None => Some "#000000"%string
  | Some bg =>
      match parseColor "#FFFFFF", parseColor "#000000" with
      | Some white, Some black =>
          let whiteContrast := Rabs (getAPCAContrast white bg) in
          let blackContrast := Rabs (getAPCAContrast black bg) in
          Some (if Rgt_dec whiteContrast blackContrast
                then "#FFFFFF" else "#000000")%string
      | _, _ => None
      end
  end.

End TextColor.
End Contrast.

(* ================================================================== *)
(** ** [lib/image-colors.ts]

    The module that [components/image-panel.tsx] imports; in the sources it
    is the file [unnamed/part_005]. *)

Module ImageColors.

(** [interface Cluster]; [interface RGB] has the shape of [RGB.t]. *)
Record Cluster : Type := mkCluster { center : RGB.t; count : nat }.

(** One pixel of [ImageData.data].  The array holds four bytes for every
    pixel, so it is modelled as the list of its pixels; the byte index [i]
    of the source is four times the position in this list. *)
Record RGBA : Type := mkRGBA { red : Z; green : Z; blue : Z; alpha : Z }.

(** *** Effects

    [kMeansClustering] calls [Math.random()], may run a [while] loop for
    ever and may dereference [undefined].  A computation takes the stream of
    values that [Math.random()] returns and the number of calls made so
    far. *)

Inductive Outcome (A : Type) : Type :=
| Returns (a : A) (calls : nat)
| Throws                          (* a TypeError *)
| OutOfFuel.                      (* the loop budget of the model ran out *)

Arguments Returns {A} a calls.
Arguments Throws {A}.
Arguments OutOfFuel {A}.

Definition Gen (A : Type) : Type := (nat -> R) -> nat -> Outcome A.

Definition gret {A : Type} (a : A) : Gen A := fun _ n => Returns a n.

Definition gbind {A B : Type} (m : Gen A) (k : A -> Gen B) : Gen B :=
  fun rnd n =>
    match m rnd n with
    | Returns a n' => k a rnd n'
    | Throws => Throws
    | OutOfFuel => OutOfFuel
    end.

Definition throw {A : Type} : Gen A := fun _ _ => Throws.

Definition out_of_fuel {A : Type} : Gen A := fun _ _ => OutOfFuel.

(** [Math.random()] *)
Definition Math_random : Gen R := fun rnd n => Returns (rnd n) (S n).

Notation "x <~ m ;; k" := (gbind m (fun x => k))
  (at level 61, m at next level, right associativity).

(** *** Pixels *)

(** [getPixelsFromImageData(imageData)] *)
Definition getPixelsFromImageData (data : list RGBA) : list RGB.t :=
  let n := length data in
  let sampleRate := Nat.max 1 (Z.to_nat (Z.of_nat n / 10000)) in
  let visited :=
    map (fun j => nth (j * sampleRate) data (mkRGBA 0 0 0 0))
        (seq 0 ((n + sampleRate - 1) / sampleRate)) in
  flat_map
    (fun px =>
       let r := IZR (red px) in
       let g := IZR (green px) in
       let b := IZR (blue px) in
       if (alpha px <? 128)%Z then []
       else
         let brightness := (r + g + b) / 3 in
         if Rgt_dec brightness 250 then []
         else if Rlt_dec brightness 5 then []
         else [RGB.mk r g b])
    visited.

(** [colorDistance(a, b)] *)
Definition colorDistance (a b : RGB.t) : R :=
  sqrt (Js.pow (RGB.r a - RGB.r b) 2 +
        Js.pow (RGB.g a - RGB.g b) 2 +
        Js.pow (RGB.b a - RGB.b b) 2).

(** *** Nearest centroid

    The inner loop of both assignment passes.  [minDist] starts at
    [Infinity], here [None]: every distance is below it. *)
Definition below (dist : R) (minDist : option R) : bool :=
  match minDist with
  | None => true
  | Some m => if Rlt_dec dist m then true else false
  end.

Fixpoint nearest_from (pixel : RGB.t) (centroids : list RGB.t) (i : nat)
    (minDist : option R) (minIdx : nat) : nat :=
  match centroids with
  | [] => minIdx
  | c :: rest =>
      let dist := colorDistance pixel c in
      if below dist minDist
      then nearest_from pixel rest (S i) (Some dist) i
      else nearest_from pixel rest (S i) minDist minIdx
  end.

Definition nearest (pixel : RGB.t) (centroids : list RGB.t) : nat :=
  nearest_from pixel centroids 0 None 0.

(** *** k-means++ seeding *)

(** [Math.min(...xs)] of a list that is not empty. *)
Definition min_of (d : R) (ds : list R) : R := fold_left Rmin ds d.

(** The squared distance of every pixel to its nearest centroid.  The list
    of centroids is never empty when this is computed; on the empty list
    [Math.min()] would be [Infinity], which the model has no value for. *)
Definition distances_to (pixels centroids : list RGB.t) : list R :=
  map (fun pixel =>
         let minDist :=
           match map (colorDistance pixel) centroids with
           | [] => 0
           | d :: ds => min_of d ds
           end in
         minDist * minDist)
      pixels.

(** The [for] loop that walks the pixels, subtracting distances from
    [random], and pushes the first pixel at which it is no longer
    positive. *)
Fixpoint pick (pixels : list RGB.t) (distances : list R) (random : R)
    (centroids : list RGB.t) : list RGB.t :=
  match pixels, distances with
  | p :: ps, d :: ds =>
      let random := random - d in
      if Rle_dec random 0 then centroids ++ [p]
      else pick ps ds random centroids
  | _, _ => centroids
  end.

(** [while (centroids.length < k) { ... }], with a budget of rounds. *)
Fixpoint seed_centroids (fuel : nat) (pixels : list RGB.t) (k : Z)
    (centroids : list RGB.t) : Gen (list RGB.t) :=
  if (Z.of_nat (length centroids) <? k)%Z then
    match fuel with
    | O => out_of_fuel
    | S fuel' =>
        let distances := distances_to pixels centroids in
        let totalDist := fold_left Rplus distances 0 in
        r <~ Math_random ;;
        let random := r * totalDist in
        seed_centroids fuel' pixels k (pick pixels distances random centroids)
    end
  else gret centroids.

(** *** Lloyd iterations *)

(** [clusters[minIdx].push(pixel)]; [None] when [clusters[minIdx]] is
    [undefined]. *)
Fixpoint push_at {A : Type} (clusters : list (list A)) (minIdx : nat)
    (pixel : A) : option (list (list A)) :=
  match clusters, minIdx with
  | [], _ => None
  | cl :: rest, O => Some ((cl ++ [pixel]) :: rest)
  | cl :: rest, S j =>
      match push_at rest j pixel with
      | Some rest' => Some (cl :: rest')
      | None => None
      end
  end.

(** The assignment pass: every pixel joins the cluster of its nearest
    centroid. *)
Fixpoint assign (pixels centroids : list RGB.t)
    (clusters : list (list RGB.t)) : option (list (list RGB.t)) :=
  match pixels with
  | [] => Some clusters
  | pixel :: rest =>
      match push_at clusters (nearest pixel centroids) pixel with
      | Some clusters' => assign rest centroids clusters'
      | None => None
      end
  end.

(** The centroid of a cluster that is not empty. *)
Definition mean (cluster : list RGB.t) : RGB.t :=
  let n := INR (length cluster) in
  RGB.mk
    (Js.round (fold_left (fun sum p => sum + RGB.r p) cluster 0 / n))
    (Js.round (fold_left (fun sum p => sum + RGB.g p) cluster 0 / n))
    (Js.round (fold_left (fun sum p => sum + RGB.b p) cluster 0 / n)).

(** [for (i = 0; i < k; i++) if (clusters[i].length > 0) centroids[i] = ...].
    [clusters] has [k] entries and [centroids] at least as many, so the
    assignment never extends [centroids]. *)
Fixpoint update_centroids (centroids : list RGB.t)
    (clusters : list (list RGB.t)) : list RGB.t :=
  match centroids, clusters with
  | c :: cs, cl :: cls =>
      (match cl with [] => c | _ :: _ => mean cl end)
        :: update_centroids cs cls
  | cs, [] => cs
  | [], _ :: _ => []
  end.

Fixpoint lloyd (iterations : nat) (pixels : list RGB.t) (k : Z)
    (centroids : list RGB.t) : option (list RGB.t) :=
  match iterations with
  | O => Some centroids
  | S iter' =>
      match assign pixels centroids (repeat [] (Z.to_nat k)) with
      | Some clusters =>
          lloyd iter' pixels k (update_centroids centroids clusters)
      | None => None
      end
  end.

(** *** Final assignment *)

(** [finalClusters[minIdx].count++] *)
Fixpoint count_at (finalClusters : list Cluster) (minIdx : nat)
  : option (list Cluster) :=
  match finalClusters, minIdx with
  | [], _ => None
  | cl :: rest, O => Some (mkCluster (center cl) (S (count cl)) :: rest)
  | cl :: rest, S j =>
      match count_at rest j with
      | Some rest' => Some (cl :: rest')
      | None => None
      end
  end.

Fixpoint tally (pixels centroids : list RGB.t) (finalClusters : list Cluster)
  : option (list Cluster) :=
  match pixels with
  | [] => Some finalClusters
  | pixel :: rest =>
      match count_at finalClusters (nearest pixel centroids) with
      | Some finalClusters' => tally rest centroids finalClusters'
      | None => None
      end
  end.

Definition lift {A : Type} (o : option A) : Gen A :=
  match o with Some a => gret a | None => throw end.

(** [kMeansClustering(pixels, k, iterations = 10)], for an integer [k].
    [fuel] bounds the rounds of the seeding loop.  The source pushes the
    first centroid without a test; were it [undefined], the first distance
    computed after it would throw, so the model throws at the read. *)
Definition kMeansClustering (fuel : nat) (pixels : list RGB.t) (k : Z)
    (iterations : nat) : Gen (list Cluster) :=
  match pixels with
  | [] => gret []
  | _ :: _ =>
      if (Z.of_nat (length pixels) <=? k)%Z
      then gret (map (fun p => mkCluster p 1) pixels)
      else
        r <~ Math_random ;;
        first <~ lift (Js.get pixels (Js.floor (r * INR (length pixels)))) ;;
        centroids <~ seed_centroids fuel pixels k [first] ;;
        centroids <~ lift (lloyd iterations pixels k centroids) ;;
        finalClusters <~ lift (tally pixels centroids
                                 (map (fun c => mkCluster c 0) centroids)) ;;
        gret (filter (fun c => (0 <? count c)%nat) finalClusters)
  end.

(** *** Extraction *)

(** [xs.sort(cmp)]: the algorithm is left to the engine, the result is
    not: a stable sort.  Insertion sort is one; [x], which stood before all
    of [xs], goes before the first element that the comparator does not
    order before it. *)
Fixpoint insert_by {A : Type} (cmp : A -> A -> Z) (x : A) (xs : list A)
  : list A :=
  match xs with
  | [] => [x]
  | y :: rest =>
      if (cmp x y <=? 0)%Z then x :: y :: rest
      else y :: insert_by cmp x rest
  end.

Definition sort_by {A : Type} (cmp : A -> A -> Z) (xs : list A) : list A :=
  fold_right (insert_by cmp) [] xs.

(** [n.toString(16).padStart(2, "0")] after the clamp to [0, 255], for the
    integer values that centroids hold. *)
Definition hex_digit (d : Z) : string :=
  String.substring (Z.to_nat d) 1 "0123456789abcdef".

Definition toHex (n : R) : string :=
  let v := Zfloor (Rmax 0 (Rmin 255 n)) in
  (hex_digit (v / 16) ++ hex_digit (v mod 16))%string.

(** [rgbToHex(rgb)] *)
Definition rgbToHex (rgb : RGB.t) : string :=
  ("#" ++ toHex (RGB.r rgb) ++ toHex (RGB.g rgb) ++ toHex (RGB.b rgb))%string.

Section Extraction.
Context {lib : Library}.

(** The clusters of [extractColorsFromImage] after the sort, largest
    first. *)
Definition sortedClusters (fuel : nat) (data : list RGBA)
    (colorCount : option Z) : Gen (list Cluster) :=
  let colorCount := Js.nullish colorCount 8%Z in
  let pixels := getPixelsFromImageData data in
  clusters <~ kMeansClustering fuel pixels colorCount 10 ;;
  gret (sort_by (fun a b => (Z.of_nat (count b) - Z.of_nat (count a))%Z)
                clusters).

(** The final loop: each cluster with the colour parsed from its hex
    string, the clusters that do not parse left out. *)
Definition parsed_clusters (clusters : list Cluster)
  : list (Cluster * ColorResult) :=
  flat_map (fun cluster =>
              match parseColor (rgbToHex (center cluster)) with
              | Some parsed => [(cluster, parsed)]
              | None => []
              end)
           clusters.

(** [extractColorsFromImage(imageSource, colorCount = 8)], from the
    [ImageData] that [loadImageData] resolves to. *)
Definition extractColorsFromImage (fuel : nat) (data : list RGBA)
    (colorCount : option Z) : Gen (list ColorResult) :=
  clusters <~ sortedClusters fuel data colorCount ;;
  gret (map snd (parsed_clusters clusters)).

End Extraction.
End ImageColors.

(* ================================================================== *)
(** ** A sample colour library

    Not part of the engine.  It inhabits [Library], to show that the
    hypotheses the theorems make on the library can be met together and to
    run the engine on concrete inputs.  RGB and HSL are related by the usual
    hexcone formulas.  The cylinder that stands for OKLCH keeps the shape of
    the real one (a lightness, a chroma, a hue in degrees, and an sRGB gamut
    whose reach in chroma depends on hue and lightness) with arithmetic that
    stays rational: lightness is luma, chroma is the spread [max - min] and
    hue is the hexcone hue.  Gamut clamping keeps lightness and hue and
    drops the chroma of a colour that is not displayable to zero. *)

Module Sample.

Definition max3 (x : Culori.Rgb.t) : R :=
  Rmax (Culori.Rgb.r x) (Rmax (Culori.Rgb.g x) (Culori.Rgb.b x)).

Definition min3 (x : Culori.Rgb.t) : R :=
  Rmin (Culori.Rgb.r x) (Rmin (Culori.Rgb.g x) (Culori.Rgb.b x)).

Definition luma (x : Culori.Rgb.t) : R :=
  0.2126 * Culori.Rgb.r x + 0.7152 * Culori.Rgb.g x + 0.0722 * Culori.Rgb.b x.

(** The fully saturated colour of a hue, on the edge of the hexcone. *)
Definition pure (hue : R) : Culori.Rgb.t :=
  let H := normalizeHue hue in
  if Rlt_dec H 60 then Culori.Rgb.mk 1 (H / 60) 0
  else if Rlt_dec H 120 then Culori.Rgb.mk (2 - H / 60) 1 0
  else if Rlt_dec H 180 then Culori.Rgb.mk 0 1 (H / 60 - 2)
  else if Rlt_dec H 240 then Culori.Rgb.mk 0 (4 - H / 60) 1
  else if Rlt_dec H 300 then Culori.Rgb.mk (H / 60 - 4) 0 1
  else Culori.Rgb.mk 1 0 (6 - H / 60).

(** The hexcone hue; a grey has none. *)
Definition hue_of (x : Culori.Rgb.t) : option R :=
  let r := Culori.Rgb.r x in
  let g := Culori.Rgb.g x in
  let b := Culori.Rgb.b x in
  let C := max3 x - min3 x in
  if Req_dec_T C 0 then None
  else if Req_dec_T (max3 x) r then Some (normalizeHue (60 * ((g - b) / C)))
  else if Req_dec_T (max3 x) g then Some (60 * ((b - r) / C + 2))
  else Some (60 * ((r - g) / C + 4)).

(** A colour of chroma [C] and hue [h] with offset [m] on every channel. *)
Definition shade (m C : R) (h : option R) : Culori.Rgb.t :=
  let u := pure (Js.nullish h 0) in
  Culori.Rgb.mk (m + C * Culori.Rgb.r u) (m + C * Culori.Rgb.g u)
                (m + C * Culori.Rgb.b u).

Definition of_lch (x : Culori.Oklch.t) : Culori.Rgb.t :=
  let C := Culori.Oklch.c x in
  let h := Culori.Oklch.h x in
  shade (Culori.Oklch.l x - C * luma (pure (Js.nullish h 0))) C h.

Definition to_lch (x : Culori.Rgb.t) : Culori.Oklch.t :=
  Culori.Oklch.mk (luma x) (max3 x - min3 x) (hue_of x).

Definition of_hsl (x : Culori.Hsl.t) : Culori.Rgb.t :=
  let L := Culori.Hsl.l x in
  let C := (1 - Rabs (2 * L - 1)) * Culori.Hsl.s x in
  shade (L - C / 2) C (Culori.Hsl.h x).

Definition to_hsl (x : Culori.Rgb.t) : Culori.Hsl.t :=
  let C := max3 x - min3 x in
  let L := (max3 x + min3 x) / 2 in
  Culori.Hsl.mk (hue_of x)
                (if Req_dec_T C 0 then 0 else C / (1 - Rabs (2 * L - 1)))
                L.

Definition as_rgb (color : Culori.Color) : Culori.Rgb.t :=
  match color with
  | Culori.rgb x => x
  | Culori.oklch x => of_lch x
  | Culori.hsl x => of_hsl x
  end.

Definition as_lch (color : Culori.Color) : Culori.Oklch.t :=
  match color with
  | Culori.oklch x => x
  | _ => to_lch (as_rgb color)
  end.

Definition as_hsl (color : Culori.Color) : Culori.Hsl.t :=
  match color with
  | Culori.hsl x => x
  | _ => to_hsl (as_rgb color)
  end.

Definition in_unit (v : R) : bool :=
  if Rle_dec 0 v then (if Rle_dec v 1 then true else false) else false.

(** Inside the sRGB gamut: every channel lies in [0, 1]. *)
Definition displayable (x : Culori.Rgb.t) : bool :=
  in_unit (Culori.Rgb.r x) && in_unit (Culori.Rgb.g x)
  && in_unit (Culori.Rgb.b x).

Definition clamp (color : Culori.Color) : Culori.Oklch.t :=
  let x := as_lch color in
  if displayable (of_lch x) then x
  else Culori.Oklch.mk (Culori.Oklch.l x) 0 (Culori.Oklch.h x).

(** [#RRGGBB] *)
Definition hex_value (ch : Ascii.ascii) : option Z :=
  let n := Z.of_nat (Ascii.nat_of_ascii ch) in
  if ((48 <=? n) && (n <=? 57))%Z then Some (n - 48)%Z
  else if ((65 <=? n) && (n <=? 70))%Z then Some (n - 55)%Z
  else if ((97 <=? n) && (n <=? 102))%Z then Some (n - 87)%Z
  else None.

Definition channel (hi lo : Ascii.ascii) : option R :=
  match hex_value hi, hex_value lo with
  | Some a, Some b => Some (IZR (16 * a + b) / 255)
  | _, _ => None
  end.

Definition parse_hex (input : string) : option Culori.Rgb.t :=
  match input with
  | String "#"%char (String r1 (String r2 (String g1 (String g2
      (String b1 (String b2 EmptyString)))))) =>
      match channel r1 r2, channel g1 g2, channel b1 b2 with
      | Some r, Some g, Some b => Some (Culori.Rgb.mk r g b)
      | _, _, _ => None
      end
  | _ => None
  end.

Definition decimal (z : Z) : string := NilZero.string_of_int (Z.to_int z).

Definition format_hex (color : Culori.Color) : string :=
  ImageColors.rgbToHex (round255 (as_rgb color)).

Definition format_rgb (color : Culori.Color) : string :=
  let x := round255 (as_rgb color) in
  ("rgb(" ++ decimal (Zfloor (RGB.r x)) ++ ", " ++ decimal (Zfloor (RGB.g x))
     ++ ", " ++ decimal (Zfloor (RGB.b x)) ++ ")")%string.

(** The integer nearest to [x * 10^digits], printed with a point before
    its last [digits] digits. *)
Definition to_fixed (x : R) (digits : nat) : string :=
  let scale := (10 ^ Z.of_nat digits)%Z in
  let n := Zfloor (Rabs x * IZR scale + / 2) in
  let sign := if Rlt_dec x 0 then "-"%string else ""%string in
  let whole := decimal (n / scale) in
  match digits with
  | O => (sign ++ whole)%string
  | S _ =>
      let frac := decimal (scale + n mod scale) in
      (sign ++ whole ++ "." ++ String.substring 1 digits frac)%string
  end.

Definition lib : Library := {|
  parse := parse_hex;
  formatHex := format_hex;
  formatRgb := format_rgb;
  toOklch := fun color => Some (as_lch color);
  toRgb := fun color => Some (as_rgb color);
  toHsl := fun color => Some (as_hsl color);
  clampChroma := clamp;
  toFixed := to_fixed
|}.

(** The colour that [fromOklch(l, c, h)] builds with this library. *)
Definition color_of_lch (l c h : R) : ColorResult :=
  let clamped := clamp (Culori.oklch (Culori.Oklch.mk l c (Some h))) in
  @result_of lib clamped (as_rgb (Culori.oklch clamped))
             (as_hsl (Culori.oklch clamped)).

End Sample.


(* ================================================================== *)
(** ** Vocabulary of the statements *)

(** *** What the theorems ask of the colour library

    The spec describes the library's part in [fromOklch] and [fromHsl]:
    "gamut-clamp chroma in OKLCH space (reduce C, preserving L and H, until
    the induced sRGB triple lies in [0,1]^3)". *)

Section Contract.
Context (lib : Library).

(** Every converter returns a colour. *)
Definition Converts : Prop :=
  forall color : Culori.Color,
    toOklch color <> None /\ toRgb color <> None /\ toHsl color <> None.

(** The OKLCH colours of the data model: L in [0, 1] and C >= 0. *)
Definition lch_valid (x : Culori.Oklch.t) : Prop :=
  0 <= Culori.Oklch.l x <= 1 /\ 0 <= Culori.Oklch.c x.

(** A colour that gamut clamping leaves as it is: a fixed point of the
    clamp, whatever the clamp is.  The sRGB gamut itself is [displayable]
    below. *)
Definition in_gamut (x : Culori.Oklch.t) : Prop :=
  clampChroma (Culori.oklch x) = x.

Record GamutClamp : Prop := {
  clamp_lightness :
    forall x, lch_valid x ->
      Culori.Oklch.l (clampChroma (Culori.oklch x)) = Culori.Oklch.l x;
  clamp_hue :
    forall x, lch_valid x ->
      Culori.Oklch.h (clampChroma (Culori.oklch x)) = Culori.Oklch.h x;
  clamp_chroma :
    forall x, lch_valid x ->
      0 <= Culori.Oklch.c (clampChroma (Culori.oklch x)) <= Culori.Oklch.c x;
  clamp_in_gamut :
    forall x, lch_valid x -> in_gamut (clampChroma (Culori.oklch x))
}.

(** Inside the sRGB gamut: the library converts the colour to an sRGB
    triple of [0, 1]^3. *)
Definition displayable (x : Culori.Oklch.t) : Prop :=
  exists y : Culori.Rgb.t,
    toRgb (Culori.oklch x) = Some y
    /\ 0 <= Culori.Rgb.r y <= 1 /\ 0 <= Culori.Rgb.g y <= 1
    /\ 0 <= Culori.Rgb.b y <= 1.

(** The clamp is to the sRGB gamut ("clamp to sRGB gamut while preserving
    hue and lightness", says [parseColor]): what it returns is displayable,
    and a displayable colour is returned as it is. *)
Record SrgbGamut : Prop := {
  clamp_displayable :
    forall x, lch_valid x -> displayable (clampChroma (Culori.oklch x));
  clamp_of_displayable :
    forall x, lch_valid x -> displayable x -> clampChroma (Culori.oklch x) = x
}.

End Contract.

(** The hue of a colour in the colour space in use. *)
Definition hue_in (colorSpace : ColorSpace) (x : ColorResult) : R :=
  match colorSpace with
  | oklch_space => LCH.h (oklch x)
  | hsl_space => HSL.h (hsl x)
  end.

(** The fixed parameters of a colourful configuration lie in the ranges
    that [ColorfulConfig] documents: lightness in [0, 1], chroma >= 0. *)
Definition fixed_in_range (config : Colorful.ColorfulConfig) : Prop :=
  (forall v, Colorful.fixedLightness config = Some v -> 0 <= v <= 1)
  /\ (forall v, Colorful.fixedChroma config = Some v -> 0 <= v).

(** The adjusted difference that [lerpHue] computes. *)
Definition arc (h1 h2 : R) : R :=
  let diff := h2 - h1 in
  let diff := if Rgt_dec diff 180 then diff - 360 else diff in
  if Rlt_dec diff (-180) then diff + 360 else diff.

(** The configuration the spec describes for the harmony generator:
    [count] brought into [3, 200] and [spread] into [5, 90]. *)
Definition clamp_to (lo hi v : R) : R := Rmax lo (Rmin hi v).

Definition clamped_config (config : Harmonic.HarmonyConfig)
  : Harmonic.HarmonyConfig :=
  Harmonic.mkConfig
    (Harmonic.type config)
    (Some (clamp_to 3 200 (Js.nullish (Harmonic.count config) 5)))
    (Some (clamp_to 5 90 (Js.nullish (Harmonic.spread config) 30))).

(** The number of pixels that a list of clusters accounts for. *)
Definition population (clusters : list ImageColors.Cluster) : nat :=
  fold_right (fun c total => (ImageColors.count c + total)%nat) 0%nat clusters.

(** Counts that do not increase along the list. *)
Definition descending (clusters : list ImageColors.Cluster) : Prop :=
  StronglySorted
    (fun a b => (ImageColors.count b <= ImageColors.count a)%nat) clusters.

(** The values of [Math.random()] lie in [0, 1). *)
Definition unit_stream (rnd : nat -> R) : Prop := forall n, 0 <= rnd n < 1.

(** The comparator of the extraction's sort: [b.count - a.count]. *)
Definition by_count (a b : ImageColors.Cluster) : Z :=
  (Z.of_nat (ImageColors.count b) - Z.of_nat (ImageColors.count a))%Z.

(** *** Concrete inputs *)

(** The configuration the colourful panel starts with, the method set to
    cool and the seed to 8. *)
Definition panel_config : Colorful.ColorfulConfig :=
  Colorful.mkConfig Colorful.random_cool 12 (Some 8)
    (Some 0.65) (Some 0.18) (Some 75) (Some 55).

(** Three opaque pixels, and a [Math.random()] that always returns 0. *)
Definition three_pixels : list ImageColors.RGBA :=
  [ImageColors.mkRGBA 200 30 40 255; ImageColors.mkRGBA 10 200 30 255;
   ImageColors.mkRGBA 20 30 220 255].

Definition zeros : nat -> R := fun _ => 0.

(** *** Proof steps *)

(** Turn the naturals of a series into integer constants. *)
Ltac INR_to_IZR H :=
  repeat match type of H with context [INR ?n] =>
    let z := eval vm_compute in (Z.of_nat n) in
    replace (INR n) with (IZR z) in H
      by (rewrite INR_IZR_INZ; f_equal; vm_compute; reflexivity)
  end.



(* ================================================================== *)
(** ** The numeric functions on binary64 numbers

    A JavaScript [number] as it is: a binary64 floating-point number, the
    kernel's [float].  [+], [-], [*], [/] and the comparisons are the
    primitive operations, which round to nearest, ties to even, as
    JavaScript does.  The functions below are the ones of
    [lib/color-utils.ts] and [lib/generators/interpolation.ts] in which
    rounding shows. *)

(** A decimal literal stands for the nearest binary64 number, as in
    JavaScript. *)
Set Warnings "-inexact-float".

Module Binary64.
Import PrimFloat SpecFloat FloatOps.
Local Open Scope float_scope.

(** A whole number below 2^53, which binary64 holds exactly. *)
Definition of_Z (negative : bool) (n : Z) : float :=
  let f := of_uint63 (Uint63.of_Z n) in
  if negative then - f else f.

(** [x % y].  The remainder of the truncated division has the sign of the
    dividend and is exact: with [x = mx * 2^ex] and [y = my * 2^ey] it is
    computed on the integers [mx * 2^(ex - e)] and [my * 2^(ey - e)] for
    [e] the smaller exponent.  [NaN] when [x] is infinite or [y] is zero. *)
Definition rem (x y : float) : float :=
  match Prim2SF x, Prim2SF y with
  | S754_nan, _ | _, S754_nan => nan
  | S754_infinity _, _ => nan
  | _, S754_zero _ => nan
  | S754_zero _, _ => x
  | _, S754_infinity _ => x
  | S754_finite sx mx ex, S754_finite _ my ey =>
      let e := Z.min ex ey in
      let X := (Zpos mx * 2 ^ (ex - e))%Z in
      let Y := (Zpos my * 2 ^ (ey - e))%Z in
      match (X mod Y)%Z with
      | Zpos r => SF2Prim (S754_finite sx r e)
      | _ => SF2Prim (S754_zero sx)
      end
  end.

(** [Math.floor(x)] *)
Definition floor (x : float) : float :=
  match Prim2SF x with
  | S754_finite s m e =>
      if (0 <=? e)%Z then x
      else
        let q := (Zpos m / 2 ^ (- e))%Z in
        let whole := (Zpos m mod 2 ^ (- e) =? 0)%Z in
        if s then of_Z true (if whole then q else q + 1)
        else of_Z false q
  | _ => x
  end.

(** [Math.min(a, b)]: [NaN] when either is, and [-0] is below [+0]. *)
Definition min (a b : float) : float :=
  if is_nan a || is_nan b then nan
  else if a <? b then a
  else if b <? a then b
  else if get_sign a then a else b.

(** [a[i]]: [None] is [undefined], for an index that is not a whole
    number of the range. *)
Definition get {A : Type} (a : list A) (i : float) : option A :=
  match Prim2SF i with
  | S754_zero _ => nth_error a 0
  | S754_finite false m e =>
      if (0 <=? e)%Z then nth_error a (Z.to_nat (Zpos m * 2 ^ e))
      else if (Zpos m mod 2 ^ (- e) =? 0)%Z
           then nth_error a (Z.to_nat (Zpos m / 2 ^ (- e)))
           else None
  | _ => None
  end.

(** [a.length] *)
Definition length {A : Type} (a : list A) : float :=
  of_Z false (Z.of_nat (List.length a)).

(** [normalizeHue(h)] *)
Definition normalizeHue (h : float) : float := rem (rem h 360 + 360) 360.

(** [lerp(a, b, t)] *)
Definition lerp (a b t : float) : float := a + (b - a) * t.

(** [lerpHue(h1, h2, t)]; a [number] is never [undefined]. *)
Definition lerpHue (h1 h2 t : float) : float :=
  let h1 := if is_nan h1 then h2 else h1 in
  let h2 := if is_nan h2 then h1 else h2 in
  if is_nan h1 && is_nan h2 then 0
  else
    let diff := h2 - h1 in
    let diff := if 180 <? diff then diff - 360 else diff in
    let diff := if diff <? -180 then diff + 360 else diff in
    rem (h1 + diff * t + 360) 360.

(** The OKLCH triple of a colour. *)
Record Oklch : Type := mkOklch { l : float; c : float; h : float }.

(** The body of the loop of [interpolateLinear] at counter [i], in OKLCH,
    up to the call of the constructor: the three numbers handed to
    [fromOklch].  [None] where the program would read a property of
    [undefined]. *)
Definition linear_step (colors : list Oklch) (steps i : float)
  : option Oklch :=
  let segments := length colors - 1 in
  let t := i / (steps - 1) in
  let globalPos := t * segments in
  let segmentIndex := min (floor globalPos) (segments - 1) in
  let localT := globalPos - segmentIndex in
  match get colors segmentIndex, get colors (segmentIndex + 1) with
  | Some c1, Some c2 =>
      Some (mkOklch (lerp (l c1) (l c2) localT)
                    (lerp (c c1) (c c2) localT)
                    (lerpHue (h c1) (h c2) localT))
  | _, _ => None
  end.

(** The OKLCH triples of [#ff0000] and [#0000ff]. *)
Definition red : Oklch :=
  mkOklch 0.6279553606145516 0.25768330773615683 29.233880279627854.

Definition blue : Oklch :=
  mkOklch 0.4520137183853429 0.3132143541779447 264.05202261636987.

End Binary64.


(* ================================================================== *)
(** ** A library with the sRGB gamut of OKLCH

    The library the engine imports is not in the repository.  [Oklab.lib]
    stands for it where the place of the gamut matters: OKLCH and sRGB are
    related by the OKLab transform (B. Ottosson's matrices, the cube and
    the sRGB transfer function), which the library implements, so a colour
    is displayable here exactly when it is an sRGB colour.  HSL is the
    hexcone of the sample library.  One part is a stand-in: a colour outside
    the gamut is clamped to the grey of its lightness, where the library
    searches for the largest chroma that is displayable; no statement below
    depends on which displayable chroma is returned. *)

Module Oklab.

Definition radians (degrees : R) : R := degrees * PI / 180.

(** OKLCH to linear-light sRGB. *)
Definition linear (x : Culori.Oklch.t) : Culori.Rgb.t :=
  let L := Culori.Oklch.l x in
  let hue := radians (Js.nullish (Culori.Oklch.h x) 0) in
  let a := Culori.Oklch.c x * cos hue in
  let b := Culori.Oklch.c x * sin hue in
  let l' := L + 0.3963377774 * a + 0.2158037573 * b in
  let m' := L - 0.1055613458 * a - 0.0638541728 * b in
  let s' := L - 0.0894841775 * a - 1.2914855480 * b in
  let l := l' * l' * l' in
  let m := m' * m' * m' in
  let s := s' * s' * s' in
  Culori.Rgb.mk
    (4.0767416621 * l - 3.3077115913 * m + 0.2309699292 * s)
    (-1.2684380046 * l + 2.6097574011 * m - 0.3413193965 * s)
    (-0.0041960863 * l - 0.7034186147 * m + 1.7076147010 * s).

Definition sign (v : R) : R := if Rlt_dec v 0 then -1 else 1.

(** The sRGB transfer function and its inverse. *)
Definition encode (v : R) : R :=
  if Rlt_dec 0.0031308 (Rabs v)
  then sign v * (1.055 * Rpower (Rabs v) (1 / 2.4) - 0.055)
  else v * 12.92.

Definition decode (v : R) : R :=
  if Rle_dec (Rabs v) 0.04045 then v / 12.92
  else sign v * Rpower ((Rabs v + 0.055) / 1.055) 2.4.

Definition of_lch (x : Culori.Oklch.t) : Culori.Rgb.t :=
  let y := linear x in
  Culori.Rgb.mk (encode (Culori.Rgb.r y)) (encode (Culori.Rgb.g y))
                (encode (Culori.Rgb.b y)).

Definition cbrt (v : R) : R :=
  if Rlt_dec 0 v then Rpower v (1 / 3)
  else if Rlt_dec v 0 then - Rpower (- v) (1 / 3)
  else 0.

(** The angle of the point (x, y), in degrees of [0, 360). *)
Definition angle (y x : R) : R :=
  let turn :=
    if Rlt_dec 0 x then atan (y / x)
    else if Rlt_dec x 0 then atan (y / x) + PI
    else if Rlt_dec 0 y then PI / 2
    else - (PI / 2) in
  normalizeHue (turn * 180 / PI).

(** sRGB to OKLCH; a grey has no hue. *)
Definition to_lch (x : Culori.Rgb.t) : Culori.Oklch.t :=
  let r := decode (Culori.Rgb.r x) in
  let g := decode (Culori.Rgb.g x) in
  let b := decode (Culori.Rgb.b x) in
  let l' := cbrt (0.4122214708 * r + 0.5363325363 * g + 0.0514459929 * b) in
  let m' := cbrt (0.2119034982 * r + 0.6806995451 * g + 0.1073969566 * b) in
  let s' := cbrt (0.0883024619 * r + 0.2817188376 * g + 0.6299787005 * b) in
  let L := 0.2104542553 * l' + 0.7936177850 * m' - 0.0040720468 * s' in
  let A := 1.9779984951 * l' - 2.4285922050 * m' + 0.4505937099 * s' in
  let B := 0.0259040371 * l' + 0.7827717662 * m' - 0.8086757660 * s' in
  let C := sqrt (A * A + B * B) in
  Culori.Oklch.mk L C (if Req_dec_T C 0 then None else Some (angle B A)).

Definition as_rgb (color : Culori.Color) : Culori.Rgb.t :=
  match color with
  | Culori.rgb x => x
  | Culori.oklch x => of_lch x
  | Culori.hsl x => Sample.of_hsl x
  end.

Definition as_lch (color : Culori.Color) : Culori.Oklch.t :=
  match color with
  | Culori.oklch x => x
  | _ => to_lch (as_rgb color)
  end.

Definition as_hsl (color : Culori.Color) : Culori.Hsl.t :=
  match color with
  | Culori.hsl x => x
  | _ => Sample.to_hsl (as_rgb color)
  end.

Definition clamp (color : Culori.Color) : Culori.Oklch.t :=
  let x := as_lch color in
  if Sample.displayable (of_lch x) then x
  else Culori.Oklch.mk (Culori.Oklch.l x) 0 (Culori.Oklch.h x).

Definition format_hex (color : Culori.Color) : string :=
  ImageColors.rgbToHex (round255 (as_rgb color)).

Definition format_rgb (color : Culori.Color) : string :=
  let x := round255 (as_rgb color) in
  ("rgb(" ++ Sample.decimal (Zfloor (RGB.r x)) ++ ", "
     ++ Sample.decimal (Zfloor (RGB.g x)) ++ ", "
     ++ Sample.decimal (Zfloor (RGB.b x)) ++ ")")%string.

Definition lib : Library := {|
  parse := Sample.parse_hex;
  formatHex := format_hex;
  formatRgb := format_rgb;
  toOklch := fun color => Some (as_lch color);
  toRgb := fun color => Some (as_rgb color);
  toHsl := fun color => Some (as_hsl color);
  clampChroma := clamp;
  toFixed := Sample.to_fixed
|}.

(** The colour that [fromOklch(l, c, h)] builds with this library. *)
Definition color_of_lch (l c h : R) : ColorResult :=
  let clamped := clamp (Culori.oklch (Culori.Oklch.mk l c (Some h))) in
  @result_of lib clamped (as_rgb (Culori.oklch clamped))
             (as_hsl (Culori.oklch clamped)).

End Oklab.


(* ================================================================== *)
(** ** [lib/color-utils.ts]: the helpers on strings and [randomColor]

    A string is the list of its characters; the functions below are used
    on ASCII text, where a character is one code unit and [toUpperCase]
    changes the letters [a] to [z] only. *)

Module JsString.

Definition between (lo hi : nat) (c : ascii) : bool :=
  (lo <=? nat_of_ascii c)%nat && (nat_of_ascii c <=? hi)%nat.

(** The character class [[A-Fa-f0-9]]. *)
Definition is_hex_digit (c : ascii) : bool :=
  between 65 70 c || between 97 102 c || between 48 57 c.

Fixpoint all (p : ascii -> bool) (s : string) : bool :=
  match s with
  | EmptyString => true
  | String c rest => p c && all p rest
  end.

(** [s.toUpperCase()] *)
Definition upper (c : ascii) : ascii :=
  if between 97 122 c then ascii_of_nat (nat_of_ascii c - 32) else c.

Fixpoint toUpperCase (s : string) : string :=
  match s with
  | EmptyString => EmptyString
  | String c rest => String (upper c) (toUpperCase rest)
  end.

(** [s.replace(p, empty)] for a pattern [p] of one character: the first
    occurrence is removed, the others stay. *)
Fixpoint remove_first (p : ascii) (s : string) : string :=
  match s with
  | EmptyString => EmptyString
  | String c rest =>
      if Ascii.eqb c p then rest else String c (remove_first p rest)
  end.

End JsString.

(** [isValidHex(hex)]: the test of [/^#?([A-Fa-f0-9]{6}|[A-Fa-f0-9]{3})$/].
    A leading [#] is always consumed by [#?], since no alternative can
    start with it. *)
Definition isValidHex (hex : string) : bool :=
  let digits :=
    match hex with
    | String "#"%char rest => rest
    | _ => hex
    end in
  ((String.length digits =? 6)%nat || (String.length digits =? 3)%nat)
  && JsString.all JsString.is_hex_digit digits.

(** [formatHexString(hex)] *)
Definition formatHexString (hex : string) : string :=
  let clean := JsString.remove_first "#"%char hex in
  String "#"%char (JsString.toUpperCase clean).

Section RandomColor.
Context {lib : Library}.

(** [randomColor()]: three calls of [Math.random()], then
    [fromOklch(l, c, h)!].  The assertion [!] is erased at run time: a
    [null] of [fromOklch] is returned as it is. *)
Definition randomColor : ImageColors.Gen (option ColorResult) :=
  ImageColors.gbind ImageColors.Math_random (fun r1 =>
  let l := 0.3 + r1 * 0.5 in
  ImageColors.gbind ImageColors.Math_random (fun r2 =>
  let c := 0.05 + r2 * 0.2 in
  ImageColors.gbind ImageColors.Math_random (fun r3 =>
  let h := r3 * 360 in
  ImageColors.gret (fromOklch l c h)))).

End RandomColor.

(* ================================================================== *)
(** ** [lib/generators/interpolation.ts]: the spline *)

Module Spline.

(** [catmullRom(p0, p1, p2, p3, t)] *)
Definition catmullRom (p0 p1 p2 p3 t : R) : R :=
  let t2 := t * t in
  let t3 := t2 * t in
  0.5 *
  (2 * p1 +
   (- p0 + p2) * t +
   (2 * p0 - 5 * p1 + 4 * p2 - p3) * t2 +
   (- p0 + 3 * p1 - 3 * p2 + p3) * t3).

(** [while (diff > 180) diff -= 360], with a budget of rounds; [None] when
    the budget runs out. *)
Fixpoint lower (fuel : nat) (diff : R) : option R :=
  if Rgt_dec diff 180 then
    match fuel with
    | O => None
    | S fuel' => lower fuel' (diff - 360)
    end
  else Some diff.

(** [while (diff < -180) diff += 360] *)
Fixpoint raise (fuel : nat) (diff : R) : option R :=
  if Rlt_dec diff (-180) then
    match fuel with
    | O => None
    | S fuel' => raise fuel' (diff + 360)
    end
  else Some diff.

(** The closure [unwrap(prev, curr)] of [catmullRomHue]. *)
Definition unwrap (fuel : nat) (prev curr : R) : option R :=
  match lower fuel (curr - prev) with
  | Some diff =>
      match raise fuel diff with
      | Some diff => Some (prev + diff)
      | None => None
      end
  | None => None
  end.

(** [catmullRomHue(h0, h1, h2, h3, t)] *)
Definition catmullRomHue (fuel : nat) (h0 h1 h2 h3 t : R) : option R :=
  let uh1 := h1 in
  match unwrap fuel uh1 h0 with
  | Some uh0 =>
      match unwrap fuel uh1 h2 with
      | Some uh2 =>
          match unwrap fuel uh2 h3 with
          | Some uh3 =>
              let result := catmullRom uh0 uh1 uh2 uh3 t in
              Some (Js.rem (Js.rem result 360 + 360) 360)
          | None => None
          end
      | None => None
      end
  | None => None
  end.

(** The results of the rounds of a loop, each of which may run out of
    budget ([None]) or yield a colour or [null]: the colours that were
    pushed, or [None] when some round ran out. *)
Fixpoint collect {A : Type} (rounds : list (option (option A)))
  : option (list A) :=
  match rounds with
  | [] => Some []
  | None :: _ => None
  | Some color :: rest =>
      match collect rest with
      | Some results =>
          Some (match color with
                | Some c => c :: results
                | None => results
                end)
      | None => None
      end
  end.

Section Generators.
Context {lib : Library}.

(** The body of the loop of [interpolateCatmullRom] at counter [i]. *)
Definition spline_step (fuel : nat) (colors : list ColorResult)
    (c0 : ColorResult) (steps : R) (colorSpace : ColorSpace) (i : R)
  : option (option ColorResult) :=
  let segments := INR (length colors) - 1 in
  let t := i / (steps - 1) in
  let globalPos := t * segments in
  let segmentIndex := Rmin (Js.floor globalPos) (segments - 1) in
  let localT := globalPos - segmentIndex in
  let p0 := nth (Js.index (Rmax 0 (segmentIndex - 1))) colors c0 in
  let p1 := nth (Js.index segmentIndex) colors c0 in
  let p2 := nth (Js.index (Rmin (INR (length colors) - 1) (segmentIndex + 1)))
                colors c0 in
  let p3 := nth (Js.index (Rmin (INR (length colors) - 1) (segmentIndex + 2)))
                colors c0 in
  match colorSpace with
  | oklch_space =>
      let l := catmullRom (LCH.l (oklch p0)) (LCH.l (oklch p1))
                          (LCH.l (oklch p2)) (LCH.l (oklch p3)) localT in
      let c := Rmax 0 (catmullRom (LCH.c (oklch p0)) (LCH.c (oklch p1))
                                  (LCH.c (oklch p2)) (LCH.c (oklch p3))
                                  localT) in
      match catmullRomHue fuel (LCH.h (oklch p0)) (LCH.h (oklch p1))
                          (LCH.h (oklch p2)) (LCH.h (oklch p3)) localT with
      | Some h => Some (fromOklch (Rmax 0 (Rmin 1 l)) c h)
      | None => None
      end
  | hsl_space =>
      match catmullRomHue fuel (HSL.h (hsl p0)) (HSL.h (hsl p1))
                          (HSL.h (hsl p2)) (HSL.h (hsl p3)) localT with
      | Some h =>
          let s := Rmax 0 (Rmin 100
                     (catmullRom (HSL.s (hsl p0)) (HSL.s (hsl p1))
                                 (HSL.s (hsl p2)) (HSL.s (hsl p3)) localT)) in
          let l := Rmax 0 (Rmin 100
                     (catmullRom (HSL.l (hsl p0)) (HSL.l (hsl p1))
                                 (HSL.l (hsl p2)) (HSL.l (hsl p3)) localT)) in
          Some (fromHsl h s l)
      | None => None
      end
  end.

(** [interpolateCatmullRom(colors, steps, colorSpace)]; [fuel] is the
    budget of every [while] loop of [unwrap]. *)
Definition interpolateCatmullRom (fuel : nat) (colors : list ColorResult)
    (steps : R) (colorSpace : ColorSpace) : option (list ColorResult) :=
  match colors with
  | [] => Some []
  | [c0] => Some [c0]
  | [_; _] => Some (Interpolation.interpolateLinear colors steps colorSpace)
  | c0 :: _ :: _ :: _ =>
      if Rlt_dec steps 2 then Some [c0; last colors c0]
      else
        collect
          (map (fun i => spline_step fuel colors c0 steps colorSpace (INR i))
               (seq 0 (Js.iterations steps)))
  end.

Inductive InterpolationMethod : Type := linear | catmull_rom.

Record InterpolationConfig : Type := mkConfig {
  method : InterpolationMethod;
  steps : R
}.

(** [interpolateColors(colors, config, colorSpace)] *)
Definition interpolateColors (fuel : nat) (colors : list ColorResult)
    (config : InterpolationConfig) (colorSpace : ColorSpace)
  : option (list ColorResult) :=
  match method config with
  | catmull_rom => interpolateCatmullRom fuel colors (steps config) colorSpace
  | linear =>
      Some (Interpolation.interpolateLinear colors (steps config) colorSpace)
  end.

End Generators.
End Spline.

(* ================================================================== *)
(** ** [lib/contrast.ts]: the WCAG ratio and the fast text colour *)

Module Wcag.

(** The function mapped over the three channels by
    [getRelativeLuminance]. *)
Definition linearize (c : R) : R :=
  let s := c / 255 in
  if Rle_dec s 0.03928 then s / 12.92
  else Js.pow ((s + 0.055) / 1.055) 2.4.

(** [getRelativeLuminance(r, g, b)] *)
Definition getRelativeLuminance (r g b : R) : R :=
  let rs := linearize r in
  let gs := linearize g in
  let bs := linearize b in
  0.2126 * rs + 0.7152 * gs + 0.0722 * bs.

(** [getWCAGContrast(color1, color2)] *)
Definition getWCAGContrast (color1 color2 : ColorResult) : R :=
  let l1 := getRelativeLuminance (RGB.r (rgb color1)) (RGB.g (rgb color1))
                                 (RGB.b (rgb color1)) in
  let l2 := getRelativeLuminance (RGB.r (rgb color2)) (RGB.g (rgb color2))
                                 (RGB.b (rgb color2)) in
  let lighter := Rmax l1 l2 in
  let darker := Rmin l1 l2 in
  (lighter + 0.05) / (darker + 0.05).

Section TextColor.
Context {lib : Library}.

(** [getContrastTextColorFast(bgColor)] *)
Definition getContrastTextColorFast (bgColor : ColorResult + string)
  : string :=
  let bg := match bgColor with
            | inr s => parseColor s
            | inl c => Some c
            end in
  match bg with
  | None => "#000000"%string
  | Some bg =>
      if Rlt_dec (LCH.l (oklch bg)) 0.6 then "#FFFFFF"%string
      else "#000000"%string
  end.

End TextColor.
End Wcag.

(* ================================================================== *)
(** ** [lib/generators/variations.ts] *)

Module Variations.

Inductive VariationType : Type :=
| monochromatic
| shades
| tints
| tones
| temperature
| saturation_gradient
| lightness_gradient.

Record VariationConfig : Type := mkConfig {
  type : VariationType;
  count : R
}.

(** [i / (count - 1 || 1)]: the divisor is 1 when [count - 1] is 0. *)
Definition fraction (count : R) (i : nat) : R :=
  INR i / (if Req_dec_T (count - 1) 0 then 1 else count - 1).

(** The loop that every generator of this module runs:
    [for (i = 0; i < count; i++) { t = i / (count - 1 || 1);
    color = body(t); if (color) results.push(color) }]. *)
Definition ramp {A : Type} (count : R) (body : R -> option A) : list A :=
  Js.filter_non_null
    (map (fun i => body (fraction count i)) (seq 0 (Js.iterations count))).

Section Generators.
Context {lib : Library}.

Definition generateMonochromatic (baseColor : ColorResult) (count : R)
    (colorSpace : ColorSpace) : list ColorResult :=
  match colorSpace with
  | oklch_space =>
      let c := LCH.c (oklch baseColor) in
      let h := LCH.h (oklch baseColor) in
      ramp count (fun t =>
        let l := 0.15 + t * 0.75 in
        let chromaMultiplier := 1 - Js.pow ((l - 0.5) / 0.5) 2 * 0.5 in
        let adjustedC := c * chromaMultiplier in
        fromOklch l adjustedC h)
  | hsl_space =>
      let h := HSL.h (hsl baseColor) in
      let s := HSL.s (hsl baseColor) in
      ramp count (fun t =>
        let l := 10 + t * 80 in
        fromHsl h (s * 0.9) l)
  end.

Definition generateShades (baseColor : ColorResult) (count : R)
    (colorSpace : ColorSpace) : list ColorResult :=
  match colorSpace with
  | oklch_space =>
      let l := LCH.l (oklch baseColor) in
      let c := LCH.c (oklch baseColor) in
      let h := LCH.h (oklch baseColor) in
      ramp count (fun t =>
        let newL := l * (1 - t * 0.85) in
        let newC := c * (1 - t * 0.3) in
        fromOklch (Rmax 0.05 newL) newC h)
  | hsl_space =>
      let h := HSL.h (hsl baseColor) in
      let s := HSL.s (hsl baseColor) in
      let l := HSL.l (hsl baseColor) in
      ramp count (fun t =>
        let newL := l * (1 - t * 0.9) in
        fromHsl h s (Rmax 5 newL))
  end.

Definition generateTints (baseColor : ColorResult) (count : R)
    (colorSpace : ColorSpace) : list ColorResult :=
  match colorSpace with
  | oklch_space =>
      let l := LCH.l (oklch baseColor) in
      let c := LCH.c (oklch baseColor) in
      let h := LCH.h (oklch baseColor) in
      ramp count (fun t =>
        let newL := l + (0.97 - l) * t in
        let newC := c * (1 - t * 0.7) in
        fromOklch newL newC h)
  | hsl_space =>
      let h := HSL.h (hsl baseColor) in
      let s := HSL.s (hsl baseColor) in
      let l := HSL.l (hsl baseColor) in
      ramp count (fun t =>
        let newL := l + (95 - l) * t in
        let newS := s * (1 - t * 0.5) in
        fromHsl h newS newL)
  end.

Definition generateTones (baseColor : ColorResult) (count : R)
    (colorSpace : ColorSpace) : list ColorResult :=
  match colorSpace with
  | oklch_space =>
      let l := LCH.l (oklch baseColor) in
      let c := LCH.c (oklch baseColor) in
      let h := LCH.h (oklch baseColor) in
      ramp count (fun t =>
        let newC := c * (1 - t * 0.9) in
        fromOklch l newC h)
  | hsl_space =>
      let h := HSL.h (hsl baseColor) in
      let s := HSL.s (hsl baseColor) in
      let l := HSL.l (hsl baseColor) in
      ramp count (fun t =>
        let newS := s * (1 - t * 0.95) in
        fromHsl h newS l)
  end.

Definition generateTemperature (baseColor : ColorResult) (count : R)
    (colorSpace : ColorSpace) : list ColorResult :=
  match colorSpace with
  | oklch_space =>
      let l := LCH.l (oklch baseColor) in
      let c := LCH.c (oklch baseColor) in
      ramp count (fun t =>
        let h := 240 - t * 210 in
        fromOklch l (c * 0.8) h)
  | hsl_space =>
      let s := HSL.s (hsl baseColor) in
      let l := HSL.l (hsl baseColor) in
      ramp count (fun t =>
        let h := 240 - t * 210 in
        fromHsl h s l)
  end.

Definition generateSaturationGradient (baseColor : ColorResult) (count : R)
    (colorSpace : ColorSpace) : list ColorResult :=
  match colorSpace with
  | oklch_space =>
      let l := LCH.l (oklch baseColor) in
      let h := LCH.h (oklch baseColor) in
      ramp count (fun t =>
        let c := 0.01 + t * 0.28 in
        fromOklch l c h)
  | hsl_space =>
      let h := HSL.h (hsl baseColor) in
      let l := HSL.l (hsl baseColor) in
      ramp count (fun t =>
        let s := 5 + t * 90 in
        fromHsl h s l)
  end.

Definition generateLightnessGradient (baseColor : ColorResult) (count : R)
    (colorSpace : ColorSpace) : list ColorResult :=
  match colorSpace with
  | oklch_space =>
      let c := LCH.c (oklch baseColor) in
      let h := LCH.h (oklch baseColor) in
      ramp count (fun t =>
        let l := 0.1 + t * 0.85 in
        let chromaMultiplier := 1 - Js.pow ((l - 0.55) / 0.55) 2 * 0.4 in
        let adjustedC := c * chromaMultiplier in
        fromOklch l adjustedC h)
  | hsl_space =>
      let h := HSL.h (hsl baseColor) in
      let s := HSL.s (hsl baseColor) in
      ramp count (fun t =>
        let l := 5 + t * 90 in
        fromHsl h s l)
  end.

(** [generateVariations(baseColor, config, colorSpace)] *)
Definition generateVariations (baseColor : ColorResult)
    (config : VariationConfig) (colorSpace : ColorSpace)
  : list ColorResult :=
  let count := count config in
  match type config with
  | monochromatic => generateMonochromatic baseColor count colorSpace
  | shades => generateShades baseColor count colorSpace
  | tints => generateTints baseColor count colorSpace
  | tones => generateTones baseColor count colorSpace
  | temperature => generateTemperature baseColor count colorSpace
  | saturation_gradient =>
      generateSaturationGradient baseColor count colorSpace
  | lightness_gradient =>
      generateLightnessGradient baseColor count colorSpace
  end.

End Generators.
End Variations.

(* ================================================================== *)
(** ** [lib/generators/tonal.ts]

    The module that the tonal matrix component imports; in the sources it
    is the second half of the file [lib/generators/variations.ts]. *)

Module Tonal.

Definition DEFAULT_STEPS : list R :=
  [50; 100; 200; 300; 400; 500; 600; 700; 800; 900; 950].

(** [stepToLightness(step)] *)
Definition stepToLightness (step : R) : R :=
  let normalized := step / 1000 in
  0.97 - normalized * 0.87.

(** [getChromaForLightness(baseLightness, baseChroma, targetLightness)] *)
Definition getChromaForLightness (baseLightness baseChroma targetLightness : R)
  : R :=
  let chromaCurve := 1 - Js.pow ((targetLightness - 0.55) / 0.55) 2 in
  let maxChroma := baseChroma * 1.2 in
  Rmax 0.01 (Rmin maxChroma (baseChroma * Rmax 0.3 chromaCurve)).

Inductive HueHarmony : Type := triadic | tetradic | complementary_split.

Record TonalConfig : Type := mkConfig {
  steps : option (list R);
  hues : option (list R)
}.

Record TonalMatrixResult : Type := mkResult {
  result_steps : list R;
  result_hues : list R;
  matrix : list (list ColorResult)       (* [hueIndex][stepIndex] *)
}.

Section Generators.
Context {lib : Library}.

Definition generateTonalScaleOklch (baseColor : ColorResult)
    (steps : list R) : list ColorResult :=
  let c := LCH.c (oklch baseColor) in
  let h := LCH.h (oklch baseColor) in
  Js.filter_non_null
    (map (fun step =>
            let l := stepToLightness step in
            let adjustedChroma :=
              getChromaForLightness (LCH.l (oklch baseColor)) c l in
            fromOklch l adjustedChroma h)
         steps).

Definition generateTonalScaleHsl (baseColor : ColorResult)
    (steps : list R) : list ColorResult :=
  let h := HSL.h (hsl baseColor) in
  let s := HSL.s (hsl baseColor) in
  Js.filter_non_null
    (map (fun step =>
            let l := Rmax 5 (Rmin 98 ((1000 - step) / 10)) in
            let satMultiplier := 1 - Js.pow ((l - 50) / 50) 2 * 0.3 in
            let adjustedSat := s * Rmax 0.2 satMultiplier in
            fromHsl h adjustedSat l)
         steps).

(** [generateTonalScale(baseColor, steps = DEFAULT_STEPS, colorSpace)] *)
Definition generateTonalScale (baseColor : ColorResult)
    (steps : option (list R)) (colorSpace : ColorSpace)
  : list ColorResult :=
  let steps := Js.nullish steps DEFAULT_STEPS in
  match colorSpace with
  | oklch_space => generateTonalScaleOklch baseColor steps
  | hsl_space => generateTonalScaleHsl baseColor steps
  end.

(** [generateTonalMatrix(baseColor, config = {}, colorSpace)] *)
Definition generateTonalMatrix (baseColor : ColorResult)
    (config : TonalConfig) (colorSpace : ColorSpace) : TonalMatrixResult :=
  let steps := Js.nullish (steps config) DEFAULT_STEPS in
  let baseHue :=
    match colorSpace with
    | oklch_space => LCH.h (oklch baseColor)
    | hsl_space => HSL.h (hsl baseColor)
    end in
  let hues := Js.nullish (hues config) [baseHue] in
  let matrix :=
    flat_map
      (fun hue =>
         let hueBaseColor :=
           match colorSpace with
           | oklch_space =>
               fromOklch (LCH.l (oklch baseColor)) (LCH.c (oklch baseColor))
                         (normalizeHue hue)
           | hsl_space =>
               fromHsl (normalizeHue hue) (HSL.s (hsl baseColor))
                       (HSL.l (hsl baseColor))
           end in
         match hueBaseColor with
         | Some hueBaseColor =>
             [generateTonalScale hueBaseColor (Some steps) colorSpace]
         | None => []
         end)
      hues in
  mkResult steps hues matrix.

End Generators.

(** [generateEvenHues(count, startHue = 0)] *)
Definition generateEvenHues (count : R) (startHue : option R) : list R :=
  let startHue := Js.nullish startHue 0 in
  let interval := 360 / count in
  map (fun i => normalizeHue (startHue + INR i * interval))
      (seq 0 (Js.iterations count)).

(** [generateHarmonyHues(baseHue, type)] *)
Definition generateHarmonyHues (baseHue : R) (type : HueHarmony) : list R :=
  match type with
  | triadic =>
      [baseHue; normalizeHue (baseHue + 120); normalizeHue (baseHue + 240)]
  | tetradic =>
      [baseHue; normalizeHue (baseHue + 90); normalizeHue (baseHue + 180);
       normalizeHue (baseHue + 270)]
  | complementary_split =>
      [baseHue; normalizeHue (baseHue + 150); normalizeHue (baseHue + 210)]
  end.

End Tonal.


(* ================================================================== *)
(** ** More vocabulary *)

Section Blend.
Context {lib : Library}.

(** The colour that the body of [interpolateLinear] builds between two
    neighbouring control points at the local position [u]. *)
Definition blend (colorSpace : ColorSpace) (c1 c2 : ColorResult) (u : R)
  : option ColorResult :=
  match colorSpace with
  | oklch_space =>
      fromOklch
        (Interpolation.lerp (LCH.l (oklch c1)) (LCH.l (oklch c2)) u)
        (Interpolation.lerp (LCH.c (oklch c1)) (LCH.c (oklch c2)) u)
        (Interpolation.lerpHue (LCH.h (oklch c1)) (LCH.h (oklch c2)) u)
  | hsl_space =>
      fromHsl
        (Interpolation.lerpHue (HSL.h (hsl c1)) (HSL.h (hsl c2)) u)
        (Interpolation.lerp (HSL.s (hsl c1)) (HSL.s (hsl c2)) u)
        (Interpolation.lerp (HSL.l (hsl c1)) (HSL.l (hsl c2)) u)
  end.

End Blend.

(** The hue of a colour, in the colour space in use, lies in [0, 360). *)
Definition hue_normalised (colorSpace : ColorSpace) (x : ColorResult) : Prop :=
  0 <= hue_in colorSpace x < 360.

(** A colour that keeps what a harmony keeps of its base colour: in OKLCH
    the lightness, with a chroma that is not larger; in HSL the saturation
    and the lightness. *)
Definition keeps_tone (colorSpace : ColorSpace) (base x : ColorResult)
  : Prop :=
  match colorSpace with
  | oklch_space =>
      LCH.l (oklch x) = LCH.l (oklch base)
      /\ LCH.c (oklch x) <= LCH.c (oklch base)
  | hsl_space =>
      HSL.s (hsl x) = HSL.s (hsl base) /\ HSL.l (hsl x) = HSL.l (hsl base)
  end.

(** *** The colourful generator *)

(** The OKLCH lightness that each method draws from when no lightness is
    fixed, as a closed band, and the largest chroma it asks for when no
    chroma is fixed. *)
Definition lightness_band (method : Colorful.ColorfulMethod) : R * R :=
  match method with
  | Colorful.hue_sweep => (0.65, 0.65)
  | Colorful.golden_angle => (0.45, 0.70)
  | Colorful.random_vibrant => (0.55, 0.75)
  | Colorful.random_pastel => (0.85, 0.95)
  | Colorful.random_dark => (0.2, 0.45)
  | Colorful.random_warm => (0.5, 0.8)
  | Colorful.random_cool => (0.45, 0.8)
  | Colorful.earth_tones => (0.35, 0.7)
  | Colorful.neon => (0.75, 0.9)
  end.

Definition chroma_cap (method : Colorful.ColorfulMethod) : R :=
  match method with
  | Colorful.hue_sweep => 0.18
  | Colorful.golden_angle => 0.24
  | Colorful.random_vibrant => 0.3
  | Colorful.random_pastel => 0.13
  | Colorful.random_dark => 0.2
  | Colorful.random_warm => 0.27
  | Colorful.random_cool => 0.25
  | Colorful.earth_tones => 0.12
  | Colorful.neon => 0.35
  end.

(** *** Contrast *)

(** The RGB channels of a colour lie in [0, 255]. *)
Definition in_srgb (x : ColorResult) : Prop :=
  0 <= RGB.r (rgb x) <= 255 /\ 0 <= RGB.g (rgb x) <= 255
  /\ 0 <= RGB.b (rgb x) <= 255.

(** No channel of [x] is above the same channel of [y]. *)
Definition no_lighter (x y : ColorResult) : Prop :=
  RGB.r (rgb x) <= RGB.r (rgb y) /\ RGB.g (rgb x) <= RGB.g (rgb y)
  /\ RGB.b (rgb x) <= RGB.b (rgb y).

(** *** Pixels *)

(** A channel that holds a byte, and a pixel of three such channels. *)
Definition byte (v : R) : Prop :=
  exists z : Z, v = IZR z /\ (0 <= z <= 255)%Z.

Definition byte_pixel (p : RGB.t) : Prop :=
  byte (RGB.r p) /\ byte (RGB.g p) /\ byte (RGB.b p).

(** *** More concrete inputs *)

(** Three colours of the sample library, as control points. *)
Definition three_colors : list ColorResult :=
  [Sample.color_of_lch 0.5 0.1 30; Sample.color_of_lch 0.7 0.1 200;
   Sample.color_of_lch 0.6 0.2 100].

(** A configuration of the colourful generator that fixes nothing. *)
Definition dark_config : Colorful.ColorfulConfig :=
  Colorful.mkConfig Colorful.random_dark (INR 12) (Some 8)
    None None None None.

(** Two pixels of bytes. *)
Definition two_pixels : list RGB.t := [RGB.mk 200 30 40; RGB.mk 10 200 30].

(** Two backgrounds: pure blue and black. *)
Definition blue_background : ColorResult :=
  mkColor "#0000ff" (RGB.mk 0 0 255) (LCH.mk 0.452 0.313 264.052)
          (HSL.mk 240 100 50) "oklch(45.2% 0.313 264.1)" "rgb(0, 0, 255)"
          "hsl(240, 100%, 50%)".

Definition black_background : ColorResult :=
  mkColor "#000000" (RGB.mk 0 0 0) (LCH.mk 0 0 0) (HSL.mk 0 0 0)
          "oklch(0.0% 0.000 0.0)" "rgb(0, 0, 0)" "hsl(0, 0%, 0%)".

(* ================================================================== *)
(** ** Remainders and hues *)


Lemma floor_bounds (x : R) : Js.floor x <= x < Js.floor x + 1.
Proof. unfold Js.floor. apply Zfloor_bound. Qed.

Lemma floor_unique (z : Z) (x : R) : IZR z <= x < IZR z + 1 -> Js.floor x = IZR z.
Proof. intro H. unfold Js.floor. now rewrite (Zfloor_eq z x H). Qed.

Lemma floor_IZR (z : Z) : Js.floor (IZR z) = IZR z.
Proof. apply floor_unique. lra. Qed.

Lemma floor_add_IZR (x : R) (z : Z) : Js.floor (x + IZR z) = Js.floor x + IZR z.
Proof. unfold Js.floor. now rewrite Zfloor_addz, plus_IZR. Qed.

(** The quotient of [%] is an integer. *)
Lemma trunc_integer (x : R) : exists k : Z, Js.trunc x = IZR k.
Proof.
  unfold Js.trunc, Js.floor. destruct (Rle_dec 0 x).
  - now exists (Zfloor x).
  - exists (- Zfloor (- x))%Z. now rewrite opp_IZR.
Qed.

Lemma rem_nonneg (x y : R) : 0 <= x -> 0 < y -> 0 <= Js.rem x y < y.
Proof.
  intros Hx Hy. unfold Js.rem, Js.trunc.
  assert (Hq : 0 <= x / y) by (apply Rmult_le_pos; [lra | left; now apply Rinv_0_lt_compat]).
  destruct (Rle_dec 0 (x / y)) as [_ | Hn]; [| contradiction].
  destruct (floor_bounds (x / y)) as [Hlo Hhi].
  assert (Hxy : x = y * (x / y)) by (field; lra).
  split.
  - apply (Rmult_le_compat_l y) in Hlo; lra.
  - apply (Rmult_lt_compat_l y) in Hhi; lra.
Qed.

Lemma rem_neg (x y : R) : x < 0 -> 0 < y -> - y < Js.rem x y <= 0.
Proof.
  intros Hx Hy. unfold Js.rem, Js.trunc.
  assert (Hq : x / y < 0).
  { unfold Rdiv. rewrite <- (Rmult_0_l (/ y)).
    apply Rmult_lt_compat_r; [now apply Rinv_0_lt_compat | lra]. }
  destruct (Rle_dec 0 (x / y)) as [Hp | _]; [lra |].
  destruct (floor_bounds (- (x / y))) as [Hlo Hhi].
  assert (Hxy : x = y * (x / y)) by (field; lra).
  split.
  - apply (Rmult_lt_compat_l y) in Hhi; lra.
  - apply (Rmult_le_compat_l y) in Hlo; lra.
Qed.

Lemma rem_range (x y : R) : 0 < y -> - y < Js.rem x y < y.
Proof.
  intro Hy. destruct (Rle_lt_dec 0 x) as [Hx | Hx].
  - pose proof (rem_nonneg x y Hx Hy). lra.
  - pose proof (rem_neg x y Hx Hy). lra.
Qed.

Lemma rem_shift (x y : R) : exists k : Z, Js.rem x y = x - y * IZR k.
Proof. unfold Js.rem. destruct (trunc_integer (x / y)) as [k ->]. now exists k. Qed.

(** A value of [0, 360) that differs from [h] by a multiple of 360 is
    [h - 360 * floor (h / 360)]. *)
Lemma mod360_unique (h : R) (k : Z) :
  0 <= h - 360 * IZR k < 360 -> h - 360 * IZR k = h - 360 * Js.floor (h / 360).
Proof.
  intro H. rewrite (floor_unique k); [reflexivity |].
  split.
  - apply (Rmult_le_reg_l 360); [lra |]. replace (360 * (h / 360)) with h by field. lra.
  - apply (Rmult_lt_reg_l 360); [lra |]. replace (360 * (h / 360)) with h by field. lra.
Qed.

Lemma normalizeHue_floor (h : R) : normalizeHue h = h - 360 * Js.floor (h / 360).
Proof.
  unfold normalizeHue.
  pose proof (rem_range h 360 ltac:(lra)) as Hr.
  destruct (rem_shift h 360) as [k Hk].
  assert (H0 : 0 <= Js.rem h 360 + 360) by lra.
  pose proof (rem_nonneg _ 360 H0 ltac:(lra)) as Hn.
  destruct (rem_shift (Js.rem h 360 + 360) 360) as [j Hj].
  rewrite Hj, Hk in *.
  replace (h - 360 * IZR k + 360 - 360 * IZR j) with (h - 360 * IZR (k - 1 + j))
    in * by (rewrite plus_IZR, minus_IZR; ring).
  now apply mod360_unique.
Qed.

Lemma normalizeHue_range (h : R) : 0 <= normalizeHue h < 360.
Proof.
  rewrite normalizeHue_floor. destruct (floor_bounds (h / 360)) as [Hlo Hhi].
  assert (Hh : h = 360 * (h / 360)) by field. lra.
Qed.

Lemma normalizeHue_shift (h : R) (k : Z) : normalizeHue (h + 360 * IZR k) = normalizeHue h.
Proof.
  rewrite !normalizeHue_floor.
  replace ((h + 360 * IZR k) / 360) with (h / 360 + IZR k) by field.
  rewrite floor_add_IZR. ring.
Qed.

Lemma normalizeHue_id (h : R) : 0 <= h < 360 -> normalizeHue h = h.
Proof.
  intro H. rewrite normalizeHue_floor.
  rewrite (floor_unique 0); [ring |].
  split.
  - apply (Rmult_le_reg_l 360); [lra |]. replace (360 * (h / 360)) with h by field. lra.
  - apply (Rmult_lt_reg_l 360); [lra |]. replace (360 * (h / 360)) with h by field. lra.
Qed.

(** On a whole number [normalizeHue] is the remainder of the division by
    360 that is not negative. *)
Lemma normalizeHue_integer (z : Z) : normalizeHue (IZR z) = IZR (z mod 360).
Proof.
  rewrite normalizeHue_floor.
  pose proof (Z.mod_pos_bound z 360 ltac:(lia)) as Hm.
  pose proof (Z.div_mod z 360 ltac:(lia)) as Hd.
  rewrite (floor_unique (z / 360)).
  - replace (z mod 360)%Z with (z - 360 * (z / 360))%Z by lia.
    rewrite minus_IZR, mult_IZR. reflexivity.
  - assert (E : IZR z = 360 * IZR (z / 360) + IZR (z mod 360)).
    { rewrite Hd at 1. rewrite plus_IZR, mult_IZR. reflexivity. }
    assert (H0 : 0 <= IZR (z mod 360) < 360).
    { split; [apply IZR_le; lia | apply IZR_lt; lia]. }
    split.
    + apply (Rmult_le_reg_l 360); [lra |].
      replace (360 * (IZR z / 360)) with (IZR z) by field. lra.
    + apply (Rmult_lt_reg_l 360); [lra |].
      replace (360 * (IZR z / 360)) with (IZR z) by field. lra.
Qed.

(** C4, as amended.  [normalizeHue(h)] lies in [0, 360) for every number
    h.  For a whole number h that binary64 holds exactly together with
    [h + 360] it is the remainder [h mod 360] that is not negative, and
    [normalizeHue(h + 360)] equals [normalizeHue(h)]. *)
Theorem normalizeHue_range_and_integer_period :
  (forall h : R, 0 <= normalizeHue h < 360)
  /\ (forall z : Z, (Z.abs z <= 2 ^ 52)%Z ->
        normalizeHue (IZR z) = IZR (z mod 360)
        /\ normalizeHue (IZR z + 360) = normalizeHue (IZR z)).
Proof.
  split; [exact normalizeHue_range |].
  intros z _. split; [apply normalizeHue_integer |].
  replace (IZR z + 360) with (IZR z + 360 * IZR 1) by ring.
  apply normalizeHue_shift.
Qed.

Section HueRounding.
Import PrimFloat.
Local Open Scope float_scope.

(** C4, the claim as stated, fails.  In binary64 [normalizeHue(-30.3)] is
    329.7 and [normalizeHue(-30.3 + 360)] is 329.70000000000005: the sum
    [h % 360 + 360] is rounded, and the two are not equal. *)
Lemma normalizeHue_period_is_rounded :
  Binary64.normalizeHue (-30.3) = 329.7
  /\ Binary64.normalizeHue (-30.3 + 360) = 329.70000000000005
  /\ (Binary64.normalizeHue (-30.3) =? Binary64.normalizeHue (-30.3 + 360))
     = false.
Proof. repeat split; vm_compute; reflexivity. Qed.

End HueRounding.


(** On a dividend that is not negative, [%] is the mathematical modulus. *)
Lemma rem_nonneg_unique (x y : R) (k : Z) :
  0 <= x -> 0 < y -> 0 <= x - y * IZR k < y -> Js.rem x y = x - y * IZR k.
Proof.
  intros Hx Hy Hk. unfold Js.rem, Js.trunc.
  assert (Hq : 0 <= x / y) by (apply Rmult_le_pos; [lra | left; now apply Rinv_0_lt_compat]).
  destruct (Rle_dec 0 (x / y)) as [_ | Hn]; [| contradiction].
  rewrite (floor_unique k); [reflexivity |].
  split.
  - apply (Rmult_le_reg_l y); [lra |]. replace (y * (x / y)) with x by (field; lra). lra.
  - apply (Rmult_lt_reg_l y); [lra |]. replace (y * (x / y)) with x by (field; lra). lra.
Qed.

Lemma rem_nonneg_normalize (x : R) : 0 <= x -> Js.rem x 360 = normalizeHue x.
Proof.
  intro Hx. rewrite normalizeHue_floor.
  pose proof (normalizeHue_range x) as Hr. rewrite normalizeHue_floor in Hr.
  unfold Js.floor in *. now apply rem_nonneg_unique; [| lra |].
Qed.

Lemma lerpHue_arc (h1 h2 t : R) :
  Interpolation.lerpHue h1 h2 t = Js.rem (h1 + arc h1 h2 * t + 360) 360.
Proof. reflexivity. Qed.

Lemma arc_cases (h1 h2 : R) :
  arc h1 h2 = h2 - h1 \/ arc h1 h2 = h2 - h1 - 360 \/ arc h1 h2 = h2 - h1 + 360.
Proof.
  unfold arc. destruct (Rgt_dec (h2 - h1) 180).
  - destruct (Rlt_dec (h2 - h1 - 360) (-180)); [right; right; lra | right; left; lra].
  - destruct (Rlt_dec (h2 - h1) (-180)); [right; right; lra | left; lra].
Qed.

(** Between two normalised hues the adjusted difference is the short way
    round. *)
Lemma arc_short (h1 h2 : R) :
  0 <= h1 < 360 -> 0 <= h2 < 360 -> -180 <= arc h1 h2 <= 180.
Proof.
  intros H1 H2. unfold arc. destruct (Rgt_dec (h2 - h1) 180).
  - destruct (Rlt_dec (h2 - h1 - 360) (-180)); lra.
  - destruct (Rlt_dec (h2 - h1) (-180)); lra.
Qed.

(** The sum that [lerpHue] reduces is positive between normalised hues, so
    the result is a hue of [0, 360). *)
Lemma lerpHue_range (h1 h2 t : R) :
  0 <= h1 < 360 -> 0 <= h2 < 360 -> 0 <= t <= 1 ->
  0 <= Interpolation.lerpHue h1 h2 t < 360.
Proof.
  intros H1 H2 Ht. rewrite lerpHue_arc.
  pose proof (arc_short h1 h2 H1 H2) as Ha.
  assert (Hd : -180 <= arc h1 h2 * t <= 180) by nra.
  apply rem_nonneg; lra.
Qed.

(** C2.  Hue interpolation goes the short way round.  Between two hues of
    [0, 360) the difference [h2 - h1] is used as it is or moved by one
    turn, so that it lies in [-180, 180]; the result is
    [(h1 + diff * t + 360) % 360], a hue of [0, 360) for t in [0, 1].  From
    350 degrees to 10 degrees at t = 0.5 it yields 0 degrees, not 180. *)
Theorem lerpHue_takes_the_shorter_arc (h1 h2 t : R) :
  0 <= h1 < 360 -> 0 <= h2 < 360 -> 0 <= t <= 1 ->
  (exists diff : R,
     (diff = h2 - h1 \/ diff = h2 - h1 - 360 \/ diff = h2 - h1 + 360)
     /\ -180 <= diff <= 180
     /\ Interpolation.lerpHue h1 h2 t = Js.rem (h1 + diff * t + 360) 360)
  /\ 0 <= Interpolation.lerpHue h1 h2 t < 360
  /\ Interpolation.lerpHue 350 10 0.5 = 0
  /\ Interpolation.lerpHue 350 10 0.5 <> 180.
Proof.
  intros H1 H2 Ht.
  split; [| split; [now apply lerpHue_range |]].
  - exists (arc h1 h2).
    split; [apply arc_cases | split; [now apply arc_short | apply lerpHue_arc]].
  - assert (H : Interpolation.lerpHue 350 10 0.5 = 0).
    { rewrite lerpHue_arc.
      assert (Ha : arc 350 10 = 20).
      { unfold arc. destruct (Rgt_dec (10 - 350) 180); [lra |].
        destruct (Rlt_dec (10 - 350) (-180)); lra. }
      rewrite Ha.
      replace (350 + 20 * 0.5 + 360) with (0 + 360 * IZR 2) by lra.
      rewrite rem_nonneg_normalize by lra.
      rewrite normalizeHue_shift. apply normalizeHue_id. lra. }
    split; [exact H | rewrite H; lra].
Qed.

(* ================================================================== *)
(** ** The constructors of [ColorResult] *)

Section Constructors.
Context {lib : Library}.

Lemma fromOklch_total (l c h : R) :
  Converts lib -> exists x, fromOklch l c h = Some x.
Proof.
  intro Hc. unfold fromOklch.
  set (clamped := clampChroma _).
  destruct (Hc (Culori.oklch clamped)) as (_ & Hrgb & Hhsl).
  destruct (toRgb _); [| contradiction].
  destruct (toHsl _); [| contradiction].
  eauto.
Qed.

Lemma fromHsl_total (h s l : R) :
  Converts lib -> exists x, fromHsl h s l = Some x.
Proof.
  intro Hc. unfold fromHsl.
  set (color := Culori.hsl _).
  destruct (Hc color) as (Hlch & Hrgb & _).
  destruct (toOklch color); [| contradiction].
  destruct (toRgb color); [| contradiction].
  set (clamped := clampChroma _).
  destruct (Hc (Culori.oklch clamped)) as (_ & Hrgb' & _).
  destruct (toRgb (Culori.oklch clamped)); [| contradiction].
  eauto.
Qed.

(** The OKLCH triple of [fromOklch(l, c, h)] is the clamped colour. *)
Lemma fromOklch_oklch (l c h : R) (x : ColorResult) :
  fromOklch l c h = Some x ->
  oklch x =
  LCH.mk
    (Culori.Oklch.l (clampChroma (Culori.oklch (Culori.Oklch.mk l c (Some h)))))
    (Culori.Oklch.c (clampChroma (Culori.oklch (Culori.Oklch.mk l c (Some h)))))
    (Js.nullish
       (Culori.Oklch.h (clampChroma (Culori.oklch (Culori.Oklch.mk l c (Some h)))))
       0).
Proof.
  unfold fromOklch. intro H.
  destruct (toRgb _); [| discriminate].
  destruct (toHsl _); [| discriminate].
  injection H as <-. reflexivity.
Qed.

(** The HSL triple of [fromHsl(h, s, l)] is the one given. *)
Lemma fromHsl_hsl (h s l : R) (x : ColorResult) :
  fromHsl h s l = Some x -> hsl x = HSL.mk h s l.
Proof.
  unfold fromHsl. intro H.
  destruct (toOklch _); [| discriminate].
  destruct (toRgb _); [| discriminate].
  destruct (toRgb _); [| discriminate].
  injection H as <-. reflexivity.
Qed.

(** Under the clamp contract [fromOklch] keeps lightness and hue and does
    not raise chroma. *)
Lemma fromOklch_clamped (l c h : R) (x : ColorResult) :
  GamutClamp lib -> 0 <= l <= 1 -> 0 <= c ->
  fromOklch l c h = Some x ->
  LCH.l (oklch x) = l /\ LCH.h (oklch x) = h /\
  0 <= LCH.c (oklch x) <= c /\
  (LCH.c (oklch x) = c <-> in_gamut lib (Culori.Oklch.mk l c (Some h))).
Proof.
  intros G Hl Hc H. apply fromOklch_oklch in H. rewrite H.
  set (color := Culori.Oklch.mk l c (Some h)) in *.
  assert (Hv : lch_valid color) by (split; assumption).
  pose proof (clamp_lightness lib G color Hv) as El.
  pose proof (clamp_hue lib G color Hv) as Eh.
  pose proof (clamp_chroma lib G color Hv) as Ec.
  cbn [LCH.l LCH.c LCH.h]. rewrite El, Eh. cbn.
  repeat split; try tauto.
  - intro E. unfold in_gamut.
    destruct (clampChroma (Culori.oklch color)) as [l' c' h'].
    cbn in *. subst. reflexivity.
  - intro E. unfold in_gamut in E. rewrite E. reflexivity.
Qed.

End Constructors.

(* ================================================================== *)
(** ** Harmonies *)

Lemma iterations_INR (n : nat) : Js.iterations (INR n) = n.
Proof.
  unfold Js.iterations. rewrite INR_IZR_INZ.
  rewrite (Zceil_eq (Z.of_nat n)); [apply Nat2Z.id | lra].
Qed.

Lemma filter_non_null_map {A B : Type} (f : A -> option B) (g : A -> B) (xs : list A) :
  (forall a, In a xs -> f a = Some (g a)) ->
  Js.filter_non_null (map f xs) = map g xs.
Proof.
  induction xs as [| a xs IH]; intro H; cbn; [reflexivity |].
  rewrite (H a (or_introl eq_refl)). f_equal. apply IH.
  intros y Hy. apply H. now right.
Qed.

Lemma filter_non_null_length {A B : Type} (f : A -> option B) (xs : list A) :
  (forall a, In a xs -> f a <> None) ->
  length (Js.filter_non_null (map f xs)) = length xs.
Proof.
  induction xs as [| a xs IH]; intro H; cbn; [reflexivity |].
  destruct (f a) eqn:E; [| exfalso; now apply (H a (or_introl eq_refl))].
  cbn. f_equal. apply IH. intros y Hy. apply H. now right.
Qed.

Section HarmonyFacts.
Context {lib : Library}.

Lemma created_oklch (base : ColorResult) (hue : R) :
  Converts lib -> GamutClamp lib ->
  0 <= LCH.l (oklch base) <= 1 -> 0 <= LCH.c (oklch base) ->
  exists x,
    fromOklch (LCH.l (oklch base)) (LCH.c (oklch base)) (normalizeHue hue) = Some x
    /\ LCH.l (oklch x) = LCH.l (oklch base)
    /\ LCH.h (oklch x) = normalizeHue hue
    /\ 0 <= LCH.c (oklch x) <= LCH.c (oklch base)
    /\ (LCH.c (oklch x) = LCH.c (oklch base) <->
        in_gamut lib (Culori.Oklch.mk (LCH.l (oklch base)) (LCH.c (oklch base))
                                      (Some (normalizeHue hue)))).
Proof.
  intros Hc G Hl Hch.
  destruct (fromOklch_total (LCH.l (oklch base)) (LCH.c (oklch base))
              (normalizeHue hue) Hc) as [x Hx].
  exists x. split; [exact Hx |].
  now apply fromOklch_clamped.
Qed.

Lemma created_hsl (base : ColorResult) (hue : R) :
  Converts lib ->
  exists x,
    fromHsl (normalizeHue hue) (HSL.s (hsl base)) (HSL.l (hsl base)) = Some x
    /\ hsl x = HSL.mk (normalizeHue hue) (HSL.s (hsl base)) (HSL.l (hsl base)).
Proof.
  intro Hc.
  destruct (fromHsl_total (normalizeHue hue) (HSL.s (hsl base)) (HSL.l (hsl base)) Hc)
    as [x Hx].
  exists x. split; [exact Hx | now apply fromHsl_hsl].
Qed.

End HarmonyFacts.

(** Under the gamut contract the colours that the clamp leaves as they are
    are the displayable ones. *)
Lemma in_gamut_displayable (lib : Library) (x : Culori.Oklch.t) :
  SrgbGamut lib -> lch_valid x -> (in_gamut lib x <-> displayable lib x).
Proof.
  intros S Hv. unfold in_gamut. split.
  - intro E. rewrite <- E. now apply (clamp_displayable lib S).
  - now apply (clamp_of_displayable lib S).
Qed.

(** C1, as amended.  The complementary harmony of a base colour of the data
    model (L in [0, 1], C >= 0) is the base colour and one more colour,
    whose hue is [normalizeHue(H + 180)], half a turn from the hue H of the
    base.  In HSL the second colour has the saturation and lightness of the
    base.  In OKLCH it has the lightness of the base, and its chroma is at
    most that of the base: equal exactly when the complement
    (L, C, normalizeHue(H + 180)) is inside the sRGB gamut, lowered by gamut
    clamping otherwise. *)
Theorem complementary_harmony (lib : Library) (base : ColorResult)
    (count spread : option R) (colorSpace : ColorSpace) :
  Converts lib -> GamutClamp lib -> SrgbGamut lib ->
  0 <= LCH.l (oklch base) <= 1 -> 0 <= LCH.c (oklch base) ->
  exists second : ColorResult,
    Harmonic.generateHarmony base
      (Harmonic.mkConfig Harmonic.complementary count spread) colorSpace
    = [base; second]
    /\ hue_in colorSpace second = normalizeHue (hue_in colorSpace base + 180)
    /\ match colorSpace with
       | oklch_space =>
           LCH.l (oklch second) = LCH.l (oklch base)
           /\ LCH.c (oklch second) <= LCH.c (oklch base)
           /\ (LCH.c (oklch second) = LCH.c (oklch base) <->
               displayable lib
                 (Culori.Oklch.mk (LCH.l (oklch base)) (LCH.c (oklch base))
                    (Some (normalizeHue (LCH.h (oklch base) + 180)))))
       | hsl_space =>
           HSL.s (hsl second) = HSL.s (hsl base)
           /\ HSL.l (hsl second) = HSL.l (hsl base)
       end.
Proof.
  intros Hc G S Hl Hch. destruct colorSpace.
  - destruct (created_oklch base (LCH.h (oklch base) + 180) Hc G Hl Hch)
      as (x & Hx & El & Eh & Ec & Eg).
    exists x. unfold Harmonic.generateHarmony, Harmonic.generateHarmonyOklch.
    cbn. rewrite Hx. cbn. split; [reflexivity |].
    split; [exact Eh |]. split; [exact El | split; [tauto |]].
    rewrite Eg. apply in_gamut_displayable; [exact S | split; assumption].
  - destruct (created_hsl base (HSL.h (hsl base) + 180) Hc) as (x & Hx & E).
    exists x. unfold Harmonic.generateHarmony, Harmonic.generateHarmonyHsl.
    cbn. rewrite Hx. cbn. split; [reflexivity |].
    rewrite E. cbn. split; [reflexivity | split; reflexivity].
Qed.

(** The golden-ratio loop runs [count] times and every round adds a
    colour. *)
Lemma golden_ratio_length (lib : Library) (base : ColorResult)
    (colorSpace : ColorSpace) (n : nat) (spread : option R) :
  Converts lib ->
  length (Harmonic.generateHarmony base
            (Harmonic.mkConfig Harmonic.golden_ratio (Some (INR n)) spread)
            colorSpace) = n.
Proof.
  intro Hc.
  unfold Harmonic.generateHarmony. cbn [Harmonic.count Harmonic.type Js.nullish].
  destruct colorSpace;
    unfold Harmonic.generateHarmonyOklch, Harmonic.generateHarmonyHsl,
           Harmonic.harmony_results;
    rewrite iterations_INR, filter_non_null_length, length_seq; try reflexivity;
    intros i _ E.
  - destruct (fromOklch_total (LCH.l (oklch base)) (LCH.c (oklch base))
                (normalizeHue (LCH.h (oklch base) + INR i * Harmonic.goldenAngle)) Hc)
      as [x Hx]. congruence.
  - destruct (fromHsl_total
                (normalizeHue (HSL.h (hsl base) + INR i * Harmonic.goldenAngle))
                (HSL.s (hsl base)) (HSL.l (hsl base)) Hc)
      as [x Hx]. congruence.
Qed.

(** The analogous harmony steps by [spread] and twice [spread] to either
    side of the base hue.  In HSL nothing is asked of the base colour. *)
Lemma analogous_hues_hsl (lib : Library) (base : ColorResult)
    (count : option R) (s : R) :
  Converts lib ->
  map (hue_in hsl_space)
      (Harmonic.generateHarmony base
         (Harmonic.mkConfig Harmonic.analogous count (Some s)) hsl_space)
  = [normalizeHue (HSL.h (hsl base) - s * 2);
     normalizeHue (HSL.h (hsl base) - s);
     HSL.h (hsl base);
     normalizeHue (HSL.h (hsl base) + s);
     normalizeHue (HSL.h (hsl base) + s * 2)].
Proof.
  intro Hc.
  unfold Harmonic.generateHarmony. cbn [Harmonic.spread Harmonic.type Js.nullish].
  unfold Harmonic.generateHarmonyHsl, Harmonic.harmony_results.
  destruct (created_hsl base (HSL.h (hsl base) - s * 2) Hc) as (x1 & -> & E1).
  destruct (created_hsl base (HSL.h (hsl base) - s) Hc) as (x2 & -> & E2).
  destruct (created_hsl base (HSL.h (hsl base) + s) Hc) as (x3 & -> & E3).
  destruct (created_hsl base (HSL.h (hsl base) + s * 2) Hc) as (x4 & -> & E4).
  cbn. now rewrite E1, E2, E3, E4.
Qed.

(** In either colour space, for a base colour of the data model. *)
Lemma analogous_hues (lib : Library) (base : ColorResult)
    (colorSpace : ColorSpace) (count : option R) (s : R) :
  Converts lib -> GamutClamp lib ->
  0 <= LCH.l (oklch base) <= 1 -> 0 <= LCH.c (oklch base) ->
  map (hue_in colorSpace)
      (Harmonic.generateHarmony base
         (Harmonic.mkConfig Harmonic.analogous count (Some s)) colorSpace)
  = [normalizeHue (hue_in colorSpace base - s * 2);
     normalizeHue (hue_in colorSpace base - s);
     hue_in colorSpace base;
     normalizeHue (hue_in colorSpace base + s);
     normalizeHue (hue_in colorSpace base + s * 2)].
Proof.
  intros Hc G Hl Hch.
  destruct colorSpace; [| exact (analogous_hues_hsl lib base count s Hc)].
  unfold Harmonic.generateHarmony. cbn [Harmonic.spread Harmonic.type Js.nullish].
  unfold Harmonic.generateHarmonyOklch, Harmonic.harmony_results.
  destruct (created_oklch base (LCH.h (oklch base) - s * 2) Hc G Hl Hch)
    as (x1 & -> & _ & E1 & _).
  destruct (created_oklch base (LCH.h (oklch base) - s) Hc G Hl Hch)
    as (x2 & -> & _ & E2 & _).
  destruct (created_oklch base (LCH.h (oklch base) + s) Hc G Hl Hch)
    as (x3 & -> & _ & E3 & _).
  destruct (created_oklch base (LCH.h (oklch base) + s * 2) Hc G Hl Hch)
    as (x4 & -> & _ & E4 & _).
  cbn. now rewrite E1, E2, E3, E4.
Qed.

(** C5, as amended.  The harmony generator uses [count] and [spread] as
    they are given, with no clamping: the golden-ratio harmony of an integer
    count n >= 0 has n colours, and the analogous harmony of any spread s
    has the hues H - 2s, H - s, H, H + s and H + 2s (normalised), for a base
    colour of the data model. *)
Theorem harmony_uses_count_and_spread_as_given (lib : Library)
    (base : ColorResult) (colorSpace : ColorSpace) :
  Converts lib -> GamutClamp lib ->
  0 <= LCH.l (oklch base) <= 1 -> 0 <= LCH.c (oklch base) ->
  (forall (n : nat) (spread : option R),
      length (Harmonic.generateHarmony base
                (Harmonic.mkConfig Harmonic.golden_ratio (Some (INR n)) spread)
                colorSpace) = n)
  /\
  (forall (count : option R) (s : R),
      map (hue_in colorSpace)
          (Harmonic.generateHarmony base
             (Harmonic.mkConfig Harmonic.analogous count (Some s)) colorSpace)
      = [normalizeHue (hue_in colorSpace base - s * 2);
         normalizeHue (hue_in colorSpace base - s);
         hue_in colorSpace base;
         normalizeHue (hue_in colorSpace base + s);
         normalizeHue (hue_in colorSpace base + s * 2)]).
Proof.
  intros Hc G Hl Hch. split.
  - intros n spread. now apply golden_ratio_length.
  - intros count s. now apply analogous_hues.
Qed.

(* ================================================================== *)
(** ** The sample library meets the contract *)

Lemma sample_converts : Converts Sample.lib.
Proof. intro color. cbn. repeat split; discriminate. Qed.

Lemma sample_clamp_cases (x : Culori.Oklch.t) :
  Sample.clamp (Culori.oklch x) = x \/
  Sample.clamp (Culori.oklch x)
  = Culori.Oklch.mk (Culori.Oklch.l x) 0 (Culori.Oklch.h x).
Proof.
  unfold Sample.clamp. cbn [Sample.as_lch].
  destruct (Sample.displayable _); [now left | now right].
Qed.

Lemma sample_gamut_clamp : GamutClamp Sample.lib.
Proof.
  split; intros x [Hl Hc]; cbn [clampChroma Sample.lib].
  - destruct (sample_clamp_cases x) as [-> | ->]; reflexivity.
  - destruct (sample_clamp_cases x) as [-> | ->]; reflexivity.
  - destruct (sample_clamp_cases x) as [-> | ->]; cbn; lra.
  - unfold in_gamut. cbn [clampChroma Sample.lib].
    destruct (sample_clamp_cases x) as [E | E]; rewrite E.
    + exact E.
    + unfold Sample.clamp. cbn [Sample.as_lch Culori.Oklch.l Culori.Oklch.h].
      destruct (Sample.displayable _); reflexivity.
Qed.

(** In the sample library the constructors always succeed. *)
Lemma sample_fromOklch (l c h : R) :
  exists x, @fromOklch Sample.lib l c h = Some x.
Proof. apply fromOklch_total, sample_converts. Qed.

Lemma sample_fromHsl (h s l : R) :
  exists x, @fromHsl Sample.lib h s l = Some x.
Proof. apply fromHsl_total, sample_converts. Qed.

(* ================================================================== *)
(** ** Linear interpolation *)

Lemma index_INR (n : nat) : Js.index (INR n) = n.
Proof.
  unfold Js.index. rewrite INR_IZR_INZ, ZfloorZ. apply Nat2Z.id.
Qed.

Lemma floor_INR (n : nat) : Js.floor (INR n) = INR n.
Proof. rewrite INR_IZR_INZ. apply floor_IZR. Qed.

Lemma lerp_start (a b : R) : Interpolation.lerp a b 0 = a.
Proof. unfold Interpolation.lerp. ring. Qed.

(** The segment index stays inside the array: with at least two colours,
    [steps >= 2] and a counter that is not negative, both reads of the loop
    body are in range. *)
Lemma segment_is_index (len : nat) (globalPos : R) :
  (2 <= len)%nat -> 0 <= globalPos ->
  exists k : nat,
    Rmin (Js.floor globalPos) (INR len - 1 - 1) = INR k /\ (k + 1 < len)%nat.
Proof.
  intros Hlen Hpos.
  assert (Hf : 0 <= Js.floor globalPos).
  { unfold Js.floor. apply IZR_le. apply Zfloor_lub. exact Hpos. }
  assert (Hl : INR len - 1 - 1 = INR (len - 2)).
  { rewrite minus_INR by lia. cbn. lra. }
  rewrite Hl. unfold Rmin. destruct (Rle_dec _ _) as [Hle | Hgt].
  - unfold Js.floor in *.
    exists (Z.to_nat (Zfloor globalPos)).
    assert (Hz : (0 <= Zfloor globalPos)%Z) by (apply le_IZR; exact Hf).
    rewrite INR_IZR_INZ, Z2Nat.id by exact Hz. split; [reflexivity |].
    rewrite INR_IZR_INZ in Hle. apply le_IZR in Hle. lia.
  - exists (len - 2)%nat. split; [reflexivity | lia].
Qed.

Lemma segmentIndex_in_range (colors : list ColorResult) (steps i : R) :
  (2 <= length colors)%nat -> 2 <= steps -> 0 <= i ->
  let segments := INR (length colors) - 1 in
  let globalPos := i / (steps - 1) * segments in
  let segmentIndex := Rmin (Js.floor globalPos) (segments - 1) in
  (Js.index segmentIndex < length colors)%nat
  /\ (Js.index (segmentIndex + 1) < length colors)%nat.
Proof.
  intros Hlen Hsteps Hi segments globalPos segmentIndex.
  assert (Hseg : 1 <= segments).
  { subst segments. apply le_INR in Hlen. cbn in Hlen. lra. }
  assert (Hpos : 0 <= globalPos).
  { subst globalPos. apply Rmult_le_pos; [| lra].
    apply Rmult_le_pos; [exact Hi |].
    left. apply Rinv_0_lt_compat. lra. }
  destruct (segment_is_index (length colors) globalPos Hlen Hpos) as (k & Hk & Hlt).
  subst segmentIndex segments. rewrite Hk.
  replace (INR k + 1) with (INR (k + 1)) by (rewrite plus_INR; cbn; ring).
  rewrite !index_INR. lia.
Qed.

Section LinearFacts.
Context {lib : Library}.

Lemma linear_step_total (colors : list ColorResult) (c0 : ColorResult)
    (steps : R) (colorSpace : ColorSpace) (i : R) :
  Converts lib ->
  exists x, Interpolation.linear_step colors c0 steps colorSpace i = Some x.
Proof.
  intro Hc. unfold Interpolation.linear_step. destruct colorSpace.
  - apply fromOklch_total, Hc.
  - apply fromHsl_total, Hc.
Qed.

(** The first round of the loop is at the start of the first segment: the
    constructor gets the lightness and chroma (or saturation) of the first
    control point and its hue reduced once more. *)
Lemma linear_step_first (colors : list ColorResult) (c0 : ColorResult)
    (steps : R) (colorSpace : ColorSpace) :
  (2 <= length colors)%nat ->
  Interpolation.linear_step colors c0 steps colorSpace (INR 0)
  = match colorSpace with
    | oklch_space =>
        fromOklch (LCH.l (oklch (nth 0 colors c0)))
                  (LCH.c (oklch (nth 0 colors c0)))
                  (Js.rem (LCH.h (oklch (nth 0 colors c0)) + 360) 360)
    | hsl_space =>
        fromHsl (Js.rem (HSL.h (hsl (nth 0 colors c0)) + 360) 360)
                (HSL.s (hsl (nth 0 colors c0)))
                (HSL.l (hsl (nth 0 colors c0)))
    end.
Proof.
  intros Hlen. unfold Interpolation.linear_step.
  assert (Hseg : 1 <= INR (length colors) - 1).
  { apply le_INR in Hlen. cbn in Hlen. lra. }
  replace (INR 0 / (steps - 1) * (INR (length colors) - 1)) with 0
    by (cbn; unfold Rdiv; ring).
  replace (Js.floor 0) with 0 by (symmetry; apply (floor_IZR 0)).
  rewrite Rmin_left by lra.
  replace (0 - 0) with 0 by ring.
  replace (Js.index 0) with 0%nat by (symmetry; apply (index_INR 0)).
  replace (Js.index (0 + 1)) with 1%nat
    by (replace (0 + 1) with (INR 1) by (cbn; ring); symmetry; apply index_INR).
  destruct colorSpace; rewrite !lerp_start, lerpHue_arc; do 3 f_equal; ring.
Qed.

(** The last round is at the end of the last segment. *)
Lemma linear_step_last (colors : list ColorResult) (c0 : ColorResult)
    (n : nat) (colorSpace : ColorSpace) :
  (2 <= length colors)%nat -> (2 <= n)%nat ->
  Interpolation.linear_step colors c0 (INR n) colorSpace (INR (n - 1))
  = blend colorSpace (nth (length colors - 2) colors c0)
          (nth (length colors - 1) colors c0) 1.
Proof.
  intros Hlen Hn. unfold Interpolation.linear_step, blend.
  assert (Hseg : INR (length colors) - 1 = INR (length colors - 1)).
  { rewrite minus_INR by lia. cbn. ring. }
  assert (Hn1 : INR (n - 1) = INR n - 1).
  { rewrite minus_INR by lia. cbn. ring. }
  assert (Hn2 : INR n - 1 <> 0).
  { apply le_INR in Hn. cbn in Hn. lra. }
  replace (INR (n - 1) / (INR n - 1) * (INR (length colors) - 1))
    with (INR (length colors - 1))
    by (rewrite Hn1, Hseg; field; exact Hn2).
  rewrite floor_INR, Hseg.
  assert (Hseg' : INR (length colors - 1) - 1 = INR (length colors - 2)).
  { rewrite !minus_INR by lia. cbn. ring. }
  rewrite Rmin_right by lra. rewrite Hseg'.
  replace (INR (length colors - 1) - INR (length colors - 2)) with 1
    by (rewrite <- Hseg'; ring).
  replace (INR (length colors - 2) + 1) with (INR (length colors - 1))
    by (rewrite <- Hseg'; ring).
  rewrite !index_INR. reflexivity.
Qed.

End LinearFacts.

Lemma filter_non_null_nth {A B : Type} (f : A -> option B) (xs : list A)
    (k : nat) (a : A) (b : B) :
  (forall a, In a xs -> f a <> None) ->
  nth_error xs k = Some a -> f a = Some b ->
  nth_error (Js.filter_non_null (map f xs)) k = Some b.
Proof.
  revert k. induction xs as [| y xs IH]; intros k Hall Hk Hf.
  - destruct k; discriminate.
  - cbn. destruct (f y) eqn:E;
      [| exfalso; now apply (Hall y (or_introl eq_refl))].
    destruct k as [| k]; cbn in *.
    + injection Hk as ->. congruence.
    + apply IH; [| exact Hk | exact Hf].
      intros z Hz. apply Hall. now right.
Qed.

(** C3, as amended.  With at least two control points, an integer
    [steps >= 2] and a library that converts, [interpolateLinear] returns
    [steps] colours.  The first is not the first control point itself: it
    is built anew by the constructor from the lightness and chroma (or
    saturation) of the first control point and from its hue as
    [(h + 360) % 360].  The last is the colour the constructor builds at
    the end of the last segment, from [a + (b - a) * 1] in each linear
    coordinate and from the hue [lerpHue(ha, hb, 1)]. *)
Theorem interpolateLinear_endpoints (lib : Library)
    (colors : list ColorResult) (n : nat) (colorSpace : ColorSpace)
    (first before_last last : ColorResult) :
  Converts lib ->
  (2 <= length colors)%nat -> (2 <= n)%nat ->
  nth_error colors 0 = Some first ->
  nth_error colors (length colors - 2) = Some before_last ->
  nth_error colors (length colors - 1) = Some last ->
  let out := Interpolation.interpolateLinear colors (INR n) colorSpace in
  length out = n
  /\ nth_error out 0
     = match colorSpace with
       | oklch_space =>
           fromOklch (LCH.l (oklch first)) (LCH.c (oklch first))
                     (Js.rem (LCH.h (oklch first) + 360) 360)
       | hsl_space =>
           fromHsl (Js.rem (HSL.h (hsl first) + 360) 360)
                   (HSL.s (hsl first)) (HSL.l (hsl first))
       end
  /\ nth_error out (n - 1) = blend colorSpace before_last last 1.
Proof.
  intros Hc Hlen Hn Efirst Ebefore Elast out. subst out.
  unfold Interpolation.interpolateLinear.
  destruct colors as [| c0 [| c1 rest]]; cbn [length] in Hlen; try lia.
  set (colors := c0 :: c1 :: rest) in *.
  assert (Hsteps : ~ INR n < 2).
  { apply le_INR in Hn. cbn in Hn. lra. }
  destruct (Rlt_dec (INR n) 2) as [Hlt | _]; [contradiction |].
  rewrite iterations_INR.
  assert (Hall : forall i, In i (seq 0 n) ->
            Interpolation.linear_step colors c0 (INR n) colorSpace (INR i) <> None).
  { intros i _ E.
    destruct (linear_step_total colors c0 (INR n) colorSpace (INR i) Hc) as [x Hx].
    congruence. }
  assert (Hlen' : (2 <= length colors)%nat) by (cbn; lia).
  apply (nth_error_nth _ _ c0) in Efirst, Ebefore, Elast.
  split; [| split].
  - rewrite filter_non_null_length by exact Hall. apply length_seq.
  - destruct (linear_step_total colors c0 (INR n) colorSpace (INR 0) Hc)
      as [x Hx].
    rewrite <- Efirst, <- (linear_step_first colors c0 (INR n)) by exact Hlen'.
    rewrite Hx.
    apply (filter_non_null_nth _ _ 0 0%nat); try exact Hall.
    + destruct n; [lia | reflexivity].
    + exact Hx.
  - destruct (linear_step_total colors c0 (INR n) colorSpace (INR (n - 1)) Hc)
      as [x Hx].
    rewrite <- Ebefore, <- Elast.
    rewrite <- (linear_step_last colors c0 n) by assumption.
    rewrite Hx.
    apply (filter_non_null_nth _ _ (n - 1) (n - 1)%nat); try exact Hall.
    + rewrite nth_error_nth' with (d := 0%nat) by (rewrite length_seq; lia).
      rewrite seq_nth by lia. reflexivity.
    + exact Hx.
Qed.

Section GradientRounding.
Import PrimFloat.
Local Open Scope float_scope.

(** C3, the claim as stated, fails.  In binary64, for a gradient of five
    steps from red to blue (their OKLCH triples as control points), the
    first round of the loop hands the constructor the hue
    29.23388027962784 where the first control point has
    29.233880279627854: [(h + 360) % 360] has rounded it.  The first colour
    of the gradient is therefore not the first control point. *)
Lemma interpolateLinear_first_hue_is_rounded :
  Binary64.linear_step [Binary64.red; Binary64.blue] 5 0
  = Some (Binary64.mkOklch 0.6279553606145516 0.25768330773615683
                           29.23388027962784)
  /\ Binary64.h Binary64.red = 29.233880279627854
  /\ (29.23388027962784 =? 29.233880279627854) = false.
Proof. repeat split; vm_compute; reflexivity. Qed.

End GradientRounding.

(* ================================================================== *)
(** ** The colourful generator *)

(** Every value of the seeded generator lies in [0, 1). *)
Lemma random_unit (s : R) : 0 <= fst (Colorful.random s) < 1.
Proof.
  unfold Colorful.random. cbn [fst].
  pose proof (floor_bounds (sin (s * 9999) * 10000)). lra.
Qed.

Lemma fixed_or_between (fixed : option R) (base scale lo hi s : R) :
  (forall v, fixed = Some v -> lo <= v <= hi) ->
  0 <= scale -> lo <= base -> base + scale <= hi ->
  lo <= fst (Colorful.fixed_or fixed base scale s) <= hi.
Proof.
  intros Hfix Hs Hlo Hhi. unfold Colorful.fixed_or.
  destruct fixed as [v |].
  - cbn. now apply Hfix.
  - unfold Colorful.bind, Colorful.ret.
    pose proof (random_unit s) as Hr.
    destruct (Colorful.random s) as [r s']. cbn in *. nra.
Qed.

Lemma for_push_all {A : Type} (body : nat -> Colorful.Rand (option A))
    (P : A -> Prop) :
  (forall i s x, fst (body i s) = Some x -> P x) ->
  forall n i s x, In x (fst (Colorful.for_push body i n s)) -> P x.
Proof.
  intros Hbody. induction n as [| n IH]; intros i s x Hin.
  - contradiction.
  - cbn in Hin. unfold Colorful.bind, Colorful.ret in Hin.
    pose proof (Hbody i s) as Hb.
    destruct (body i s) as [color s1].
    pose proof (IH (S i) s1) as Hrest.
    destruct (Colorful.for_push body (S i) n s1) as [rest s2].
    cbn in *. destruct color as [c |].
    + destruct Hin as [<- | Hin]; [now apply Hb | now apply Hrest].
    + now apply Hrest.
Qed.

Lemma for_push_head {A : Type} (body : nat -> Colorful.Rand (option A))
    (n i : nat) (s : R) (x : A) :
  fst (body i s) = Some x ->
  nth_error (fst (Colorful.for_push body i (S n) s)) 0 = Some x.
Proof.
  intro Hb. cbn. unfold Colorful.bind, Colorful.ret.
  destruct (body i s) as [color s1]. cbn in Hb. subst color.
  destruct (Colorful.for_push body (S i) n s1) as [rest s2]. reflexivity.
Qed.

Section ColorfulFacts.
Context {lib : Library}.

(** The hue that a loop body hands to [styled] is the hue of the colour it
    builds. *)
Lemma styled_hue (config : Colorful.ColorfulConfig) (colorSpace : ColorSpace)
    (h l0 l1 c0 c1 s0 s1 hl0 hl1 s : R) (x : ColorResult) :
  GamutClamp lib -> fixed_in_range config ->
  0 <= l1 -> 0 <= l0 -> l0 + l1 <= 1 -> 0 <= c1 -> 0 <= c0 ->
  fst (Colorful.styled config colorSpace h l0 l1 c0 c1 s0 s1 hl0 hl1 s) = Some x ->
  hue_in colorSpace x = h.
Proof.
  intros G [Hfl Hfc] Hl1 Hl0 Hl Hc1 Hc0. unfold Colorful.styled.
  destruct colorSpace; unfold Colorful.bind, Colorful.ret.
  - pose proof (fixed_or_between (Colorful.fixedLightness config) l0 l1 0 1 s
                  Hfl Hl1 Hl0 Hl) as Bl.
    destruct (Colorful.fixed_or (Colorful.fixedLightness config) l0 l1 s)
      as [l s'].
    assert (Bc : 0 <= fst (Colorful.fixed_or (Colorful.fixedChroma config) c0 c1 s')).
    { unfold Colorful.fixed_or. destruct (Colorful.fixedChroma config) as [v |].
      - cbn. now apply Hfc.
      - unfold Colorful.bind, Colorful.ret.
        pose proof (random_unit s') as Hr.
        destruct (Colorful.random s') as [r s'']. cbn in *. nra. }
    destruct (Colorful.fixed_or (Colorful.fixedChroma config) c0 c1 s')
      as [c s''].
    cbn in *. intro H.
    now destruct (fromOklch_clamped l c h x G Bl Bc H) as (_ & Eh & _).
  - destruct (Colorful.fixed_or (Colorful.fixedSaturation config) s0 s1 s)
      as [sat s'].
    destruct (Colorful.fixed_or (Colorful.fixedLightnessHsl config) hl0 hl1 s')
      as [lHsl s''].
    cbn. intro H. now rewrite (fromHsl_hsl _ _ _ _ H).
Qed.

End ColorfulFacts.

(** C6.  When the configuration carries a seed, two calls of
    [generateColorful] with the same configuration and colour space return
    the same list, whatever the clock reads at either call. *)
Theorem generateColorful_deterministic (lib : Library)
    (config : Colorful.ColorfulConfig) (colorSpace : ColorSpace)
    (seed now1 now2 : R) :
  Colorful.seed config = Some seed ->
  Colorful.generateColorful now1 config colorSpace
  = Colorful.generateColorful now2 config colorSpace.
Proof.
  intro Hseed. unfold Colorful.generateColorful. rewrite Hseed. reflexivity.
Qed.


(* ================================================================== *)
(** ** The cool spectrum *)

Lemma filter_non_null_In {A B : Type} (f : A -> option B) (xs : list A) (y : B) :
  In y (Js.filter_non_null (map f xs)) -> exists a, In a xs /\ f a = Some y.
Proof.
  induction xs as [| a xs IH]; cbn; [tauto |].
  destruct (f a) as [b |] eqn:E.
  - intros [<- | H].
    + exists a. split; [now left | exact E].
    + destruct (IH H) as (a' & Ha & Ea). exists a'. split; [now right | exact Ea].
  - intro H. destruct (IH H) as (a' & Ha & Ea).
    exists a'. split; [now right | exact Ea].
Qed.

(** X26.  The hues of the spectrum method step from 120 to 280: for an
    integer count of at least 1 every colour has its hue in [120, 280].  The
    range of the random method of [lib/generators/colorful.ts] is wider. *)
Lemma cool_spectrum_hue_range (lib : Library) (n : nat)
    (config : Spectrum.ColorfulConfig) (colorSpace : ColorSpace) :
  GamutClamp lib ->
  (forall v, Spectrum.fixedLightness config = Some v -> 0 <= v <= 1) ->
  (forall v, Spectrum.fixedChroma config = Some v -> 0 <= v) ->
  Forall (fun x => 120 <= hue_in colorSpace x <= 280)
         (Spectrum.generateCoolSpectrum (INR n) config colorSpace).
Proof.
  intros G Hfl Hfc. apply Forall_forall. intros x Hin.
  unfold Spectrum.generateCoolSpectrum in Hin.
  apply filter_non_null_In in Hin. destruct Hin as (i & Hi & E).
  rewrite iterations_INR in Hi. apply in_seq in Hi.
  assert (Hh : 120 <= 120 + INR i *
                  ((280 - 120) / (if Req_dec_T (INR n - 1) 0 then 1 else INR n - 1))
               <= 280).
  { assert (Hle : INR i <= INR n - 1).
    { replace (INR n - 1) with (INR (n - 1)).
      - apply le_INR. lia.
      - rewrite minus_INR by lia. reflexivity. }
    pose proof (pos_INR i) as Hpos.
    destruct (Req_dec_T (INR n - 1) 0) as [Hz | Hnz].
    - assert (INR i = 0) by lra. rewrite H. lra.
    - assert (Hd : 0 < INR n - 1) by lra.
      assert (Hq : 0 <= INR i / (INR n - 1) <= 1).
      { split.
        - apply Rmult_le_pos; [lra |]. left. now apply Rinv_0_lt_compat.
        - apply (Rmult_le_reg_r (INR n - 1)); [lra |].
          replace (INR i / (INR n - 1) * (INR n - 1)) with (INR i) by (field; lra).
          lra. }
      replace (INR i * ((280 - 120) / (INR n - 1)))
        with (160 * (INR i / (INR n - 1))) by (field; lra).
      lra. }
  rewrite normalizeHue_id in E by lra.
  destruct colorSpace; cbn [hue_in].
  - assert (Bl : 0 <= Js.nullish (Spectrum.fixedLightness config) 0.60 <= 1).
    { destruct (Spectrum.fixedLightness config) as [v |]; cbn; [now apply Hfl | lra]. }
    assert (Bc : 0 <= Js.nullish (Spectrum.fixedChroma config) 0.15).
    { destruct (Spectrum.fixedChroma config) as [v |]; cbn; [now apply Hfc | lra]. }
    destruct (fromOklch_clamped _ _ _ _ G Bl Bc E) as (_ & Eh & _).
    rewrite Eh. exact Hh.
  - rewrite (fromHsl_hsl _ _ _ _ E). cbn. exact Hh.
Qed.

(* ================================================================== *)
(** ** The generator seeded with 8 *)

(** Eleven digits of pi, from the series of [atan (1/3)] and [atan (1/7)]. *)
Lemma PI_bounds : 3.14159265358 < PI < 3.14159265359.
Proof.
  pose proof (PI_2_3_7_ineq 6) as [Hlo Hhi].
  unfold sum_f_R0, tg_alt, PI_2_3_7_tg, Ratan_seq in Hlo, Hhi.
  cbn [Nat.mul Nat.add] in Hlo, Hhi.
  INR_to_IZR Hlo. INR_to_IZR Hhi.
  split; lra.
Qed.

(** [Math.sin(8 * 9999) * 10000]: 79992 is 0.767854... past 12731 full
    turns. *)
Lemma sin_of_seed_8 : 6945.9 < sin (8 * 9999) * 10000 < 6945.95.
Proof.
  pose proof PI_bounds as [Plo Phi].
  set (turns := Z.to_nat 12731).
  assert (Ht : INR turns = 12731).
  { subst turns. rewrite INR_IZR_INZ, Z2Nat.id by lia. reflexivity. }
  set (r := 8 * 9999 - 2 * INR turns * PI).
  assert (Hr : 0.76785429 < r < 0.76785455) by (subst r; rewrite Ht; lra).
  replace (8 * 9999) with (r + 2 * INR turns * PI) by (subst r; ring).
  rewrite sin_period.
  assert (Hlo : sin 0.76785429 <= sin r) by (apply sin_incr_1; lra).
  assert (Hhi : sin r <= sin 0.76785455) by (apply sin_incr_1; lra).
  pose proof (SIN 0.76785429 ltac:(lra) ltac:(lra)) as [L _].
  pose proof (SIN 0.76785455 ltac:(lra) ltac:(lra)) as [_ U].
  unfold sin_lb, sin_ub, sin_approx, sum_f_R0, sin_term in L, U.
  cbn [Nat.mul Nat.add] in L, U.
  INR_to_IZR L. INR_to_IZR U.
  split; lra.
Qed.

Lemma first_random_of_seed_8 :
  0.9 < fst (Colorful.random (Colorful.seededRandom 8)) < 0.95.
Proof.
  unfold Colorful.random, Colorful.seededRandom. cbn [fst].
  pose proof sin_of_seed_8 as [L U].
  rewrite (floor_unique 6945) by lra. lra.
Qed.


(* ================================================================== *)
(** ** Contrast *)

Lemma pow_zero (y : R) : 0 < y -> Js.pow 0 y = 0.
Proof.
  intro Hy. unfold Js.pow.
  destruct (Rlt_dec 0 0) as [H | _]; [lra |].
  destruct (Req_dec_T 0 0) as [_ | H]; [| lra].
  destruct (Rlt_dec 0 y) as [_ | H]; [reflexivity | contradiction].
Qed.

Lemma pow_one (y : R) : Js.pow 1 y = 1.
Proof.
  unfold Js.pow. destruct (Rlt_dec 0 1) as [_ | H]; [| lra].
  unfold Rpower. rewrite ln_1, Rmult_0_r. apply exp_0.
Qed.

(** A power between 0 and 1 of a base that is at least 1 lies between 1
    and the base, and grows with the exponent. *)
Lemma pow_between (x y : R) : 1 <= x -> 0 <= y <= 1 -> 1 <= Js.pow x y <= x.
Proof.
  intros Hx Hy. unfold Js.pow. destruct (Rlt_dec 0 x) as [Hp | H]; [| lra].
  split.
  - rewrite <- (Rpower_O x Hp). apply Rle_Rpower; lra.
  - rewrite <- (Rpower_1 x Hp) at 2. apply Rle_Rpower; lra.
Qed.

Lemma pow_exponent_le (x y z : R) : 1 <= x -> y <= z -> Js.pow x y <= Js.pow x z.
Proof.
  intros Hx Hyz. unfold Js.pow. destruct (Rlt_dec 0 x) as [Hp | H]; [| lra].
  now apply Rle_Rpower.
Qed.

Lemma Y_of_black : Contrast.sRGBtoY (RGB.mk 0 0 0) = 0.
Proof.
  unfold Contrast.sRGBtoY. cbn [RGB.r RGB.g RGB.b].
  replace (0 / 255) with 0 by lra. rewrite pow_zero by lra. lra.
Qed.

Lemma Y_of_white : Contrast.sRGBtoY (RGB.mk 255 255 255) = 1.0000001.
Proof.
  unfold Contrast.sRGBtoY. cbn [RGB.r RGB.g RGB.b].
  replace (255 / 255) with 1 by lra. rewrite pow_one. lra.
Qed.

(** White text on black: a magnitude of at least 1.113. *)
Lemma apca_white_on_black : Contrast.APCAcontrast 1.0000001 0 <= -1.113.
Proof.
  unfold Contrast.APCAcontrast.
  rewrite (Rmax_right 0 1.0000001) by lra. rewrite (Rmax_left 0 0) by lra.
  destruct (Rgt_dec 0 1.0000001) as [H | _]; [lra |].
  rewrite pow_zero by lra.
  pose proof (pow_between 1.0000001 0.62 ltac:(lra) ltac:(lra)) as Hp.
  destruct (Rgt_dec _ _) as [H | _]; lra.
Qed.

Lemma apca_black_on_black : Contrast.APCAcontrast 0 0 = 0.
Proof.
  unfold Contrast.APCAcontrast. rewrite (Rmax_left 0 0) by lra.
  destruct (Rgt_dec 0 0) as [H | _]; [lra |].
  rewrite !pow_zero by lra.
  destruct (Rgt_dec _ _) as [_ | H]; lra.
Qed.

Lemma apca_white_on_white : Contrast.APCAcontrast 1.0000001 1.0000001 = 0.
Proof.
  unfold Contrast.APCAcontrast. rewrite (Rmax_right 0 1.0000001) by lra.
  destruct (Rgt_dec 1.0000001 1.0000001) as [H | _]; [lra |].
  pose proof (pow_exponent_le 1.0000001 0.62 0.65 ltac:(lra) ltac:(lra)) as Hp.
  destruct (Rgt_dec _ _) as [_ | H]; [reflexivity | lra].
Qed.

(** Black text on white: a magnitude of at least 1.113. *)
Lemma apca_black_on_white : 1.113 <= Contrast.APCAcontrast 0 1.0000001.
Proof.
  unfold Contrast.APCAcontrast.
  rewrite (Rmax_right 0 1.0000001) by lra. rewrite (Rmax_left 0 0) by lra.
  destruct (Rgt_dec 1.0000001 0) as [_ | H]; [| lra].
  rewrite pow_zero by lra.
  pose proof (pow_between 1.0000001 0.56 ltac:(lra) ltac:(lra)) as Hp.
  destruct (Rlt_dec _ _) as [H | _]; lra.
Qed.

Section TextColorFacts.
Context {lib : Library}.

Lemma text_color_on_black (white black bg : ColorResult) :
  rgb white = RGB.mk 255 255 255 -> rgb black = RGB.mk 0 0 0 ->
  rgb bg = RGB.mk 0 0 0 ->
  Rabs (Contrast.getAPCAContrast white bg)
  > Rabs (Contrast.getAPCAContrast black bg).
Proof.
  intros Ew Ek Eb. unfold Contrast.getAPCAContrast.
  rewrite Ew, Ek, Eb, Y_of_white, Y_of_black, apca_black_on_black.
  pose proof apca_white_on_black as H.
  rewrite Rmult_0_l, Rabs_R0, Rabs_left by lra. lra.
Qed.

Lemma text_color_on_white (white black bg : ColorResult) :
  rgb white = RGB.mk 255 255 255 -> rgb black = RGB.mk 0 0 0 ->
  rgb bg = RGB.mk 255 255 255 ->
  ~ Rabs (Contrast.getAPCAContrast white bg)
    > Rabs (Contrast.getAPCAContrast black bg).
Proof.
  intros Ew Ek Eb. unfold Contrast.getAPCAContrast.
  rewrite Ew, Ek, Eb, Y_of_white, Y_of_black, apca_white_on_white.
  pose proof apca_black_on_white as H.
  rewrite Rmult_0_l, Rabs_R0, Rabs_right by lra. lra.
Qed.

End TextColorFacts.

(** C8.  For a library that parses [#FFFFFF] and [#000000] to the RGB
    triples (255, 255, 255) and (0, 0, 0), the best text colour on a black
    background is white and on a white background is black, whether the
    background is given as a string or as a colour; and for every
    background the answer is white exactly when the APCA magnitude of white
    on the background exceeds that of black on it. *)
Theorem best_text_color_black_white (lib : Library)
    (white black : ColorResult) :
  parseColor "#FFFFFF" = Some white -> rgb white = RGB.mk 255 255 255 ->
  parseColor "#000000" = Some black -> rgb black = RGB.mk 0 0 0 ->
  Contrast.getContrastTextColor (inr "#000000"%string) = Some "#FFFFFF"%string
  /\ Contrast.getContrastTextColor (inr "#FFFFFF"%string) = Some "#000000"%string
  /\ Contrast.getContrastTextColor (inl black) = Some "#FFFFFF"%string
  /\ Contrast.getContrastTextColor (inl white) = Some "#000000"%string
  /\ forall bg : ColorResult,
       Contrast.getContrastTextColor (inl bg)
       = Some (if Rgt_dec (Rabs (Contrast.getAPCAContrast white bg))
                          (Rabs (Contrast.getAPCAContrast black bg))
               then "#FFFFFF" else "#000000")%string.
Proof.
  intros Pw Ew Pk Ek.
  assert (Hgen : forall bg : ColorResult,
             Contrast.getContrastTextColor (inl bg)
             = Some (if Rgt_dec (Rabs (Contrast.getAPCAContrast white bg))
                                (Rabs (Contrast.getAPCAContrast black bg))
                     then "#FFFFFF" else "#000000")%string).
  { intro bg. unfold Contrast.getContrastTextColor. now rewrite Pw, Pk. }
  assert (Hk : Contrast.getContrastTextColor (inl black) = Some "#FFFFFF"%string).
  { rewrite Hgen. destruct (Rgt_dec _ _) as [_ | H]; [reflexivity |].
    exfalso. apply H. now apply text_color_on_black. }
  assert (Hw : Contrast.getContrastTextColor (inl white) = Some "#000000"%string).
  { rewrite Hgen. destruct (Rgt_dec _ _) as [H | _]; [| reflexivity].
    exfalso. revert H. now apply text_color_on_white. }
  repeat split; try assumption.
  - unfold Contrast.getContrastTextColor in *. now rewrite Pk in *.
  - unfold Contrast.getContrastTextColor in *. now rewrite Pw in *.
Qed.

(* ================================================================== *)
(** ** k-means clustering *)

Import ImageColors.

(** *** Nearest centroid *)

Lemma nearest_from_range (pixel : RGB.t) (centroids : list RGB.t)
    (i : nat) (minDist : option R) (minIdx : nat) :
  nearest_from pixel centroids i minDist minIdx = minIdx
  \/ (i <= nearest_from pixel centroids i minDist minIdx < i + length centroids)%nat.
Proof.
  revert i minDist minIdx.
  induction centroids as [| c rest IH]; intros i minDist minIdx; cbn.
  - now left.
  - destruct (below _ _).
    + right. destruct (IH (S i) (Some (colorDistance pixel c)) i) as [-> | H]; lia.
    + destruct (IH (S i) minDist minIdx) as [-> | H]; [now left | right; lia].
Qed.

Lemma nearest_lt (pixel : RGB.t) (centroids : list RGB.t) :
  centroids <> [] -> (nearest pixel centroids < length centroids)%nat.
Proof.
  intro Hne. unfold nearest.
  destruct centroids as [| c rest]; [contradiction |].
  destruct (nearest_from_range pixel (c :: rest) 0 None 0) as [-> | H];
    cbn in *; lia.
Qed.

(** *** Final assignment: every pixel is counted once *)

Lemma count_at_total (finalClusters : list Cluster) (minIdx : nat) :
  (minIdx < length finalClusters)%nat ->
  exists finalClusters',
    count_at finalClusters minIdx = Some finalClusters'
    /\ population finalClusters' = S (population finalClusters)
    /\ length finalClusters' = length finalClusters.
Proof.
  revert minIdx.
  induction finalClusters as [| cl rest IH]; intros minIdx Hlt; cbn in Hlt.
  - lia.
  - destruct minIdx as [| j]; cbn.
    + eexists. split; [reflexivity |]. cbn. split; reflexivity.
    + destruct (IH j ltac:(lia)) as (rest' & -> & Hp & Hl).
      eexists. split; [reflexivity |]. unfold population in *. cbn.
      rewrite Hp, Hl. split; lia.
Qed.

Lemma tally_total (pixels centroids : list RGB.t) (finalClusters : list Cluster) :
  centroids <> [] -> length finalClusters = length centroids ->
  exists finalClusters',
    tally pixels centroids finalClusters = Some finalClusters'
    /\ population finalClusters'
       = (population finalClusters + length pixels)%nat.
Proof.
  intros Hne. revert finalClusters.
  induction pixels as [| pixel rest IH]; intros finalClusters Hlen;
    cbn [tally length].
  - eexists. split; [reflexivity | lia].
  - pose proof (nearest_lt pixel centroids Hne) as Hlt.
    rewrite <- Hlen in Hlt.
    destruct (count_at_total finalClusters _ Hlt) as (fc & -> & Hp & Hl).
    destruct (IH fc ltac:(congruence)) as (fc' & -> & Hp').
    eexists. split; [reflexivity | lia].
Qed.

(** Dropping the empty clusters loses no pixel. *)
Lemma population_filter (clusters : list Cluster) :
  population (filter (fun c => (0 <? count c)%nat) clusters)
  = population clusters.
Proof.
  unfold population. induction clusters as [| cl rest IH]; [reflexivity |].
  cbn [filter]. destruct (0 <? count cl)%nat eqn:E; cbn [fold_right]; rewrite IH.
  - reflexivity.
  - apply Nat.ltb_ge in E. lia.
Qed.

Lemma population_fresh (centroids : list RGB.t) :
  population (map (fun c => mkCluster c 0) centroids) = 0%nat.
Proof.
  unfold population. induction centroids as [| c rest IH]; cbn; lia.
Qed.

Lemma population_singletons (pixels : list RGB.t) :
  population (map (fun p => mkCluster p 1) pixels) = length pixels.
Proof.
  unfold population. induction pixels as [| p rest IH]; cbn; lia.
Qed.

(** *** Lloyd iterations keep the number of centroids *)

Lemma push_at_some {A : Type} (clusters : list (list A)) (minIdx : nat) (pixel : A) :
  (minIdx < length clusters)%nat ->
  exists clusters',
    push_at clusters minIdx pixel = Some clusters'
    /\ length clusters' = length clusters.
Proof.
  revert minIdx.
  induction clusters as [| cl rest IH]; intros minIdx Hlt; cbn in Hlt.
  - lia.
  - destruct minIdx as [| j]; cbn.
    + eexists. split; reflexivity.
    + destruct (IH j ltac:(lia)) as (rest' & -> & Hl).
      eexists. split; [reflexivity |]. cbn. lia.
Qed.

Lemma assign_some (pixels centroids : list RGB.t) (clusters : list (list RGB.t)) :
  centroids <> [] -> (length centroids <= length clusters)%nat ->
  exists clusters',
    assign pixels centroids clusters = Some clusters'
    /\ length clusters' = length clusters.
Proof.
  intros Hne. revert clusters.
  induction pixels as [| pixel rest IH]; intros clusters Hlen; cbn.
  - eexists. split; reflexivity.
  - pose proof (nearest_lt pixel centroids Hne) as Hlt.
    destruct (push_at_some clusters (nearest pixel centroids) pixel ltac:(lia))
      as (cl & -> & Hl).
    destruct (IH cl ltac:(lia)) as (cl' & -> & Hl').
    eexists. split; [reflexivity | lia].
Qed.

Lemma update_centroids_length (centroids : list RGB.t)
    (clusters : list (list RGB.t)) :
  length (update_centroids centroids clusters) = length centroids.
Proof.
  revert clusters.
  induction centroids as [| c cs IH]; intros [| cl cls]; cbn; try reflexivity.
  now rewrite IH.
Qed.

Lemma lloyd_some (iterations : nat) (pixels : list RGB.t) (k : Z)
    (centroids : list RGB.t) :
  centroids <> [] -> length centroids = Z.to_nat k ->
  exists centroids',
    lloyd iterations pixels k centroids = Some centroids'
    /\ length centroids' = length centroids.
Proof.
  revert centroids.
  induction iterations as [| iter IH]; intros centroids Hne Hlen; cbn.
  - eexists. split; reflexivity.
  - destruct (assign_some pixels centroids (repeat [] (Z.to_nat k)) Hne)
      as (clusters & -> & Hl).
    { rewrite repeat_length. lia. }
    destruct (IH (update_centroids centroids clusters)) as (cs & -> & Hl').
    + intro E. apply (f_equal (@length _)) in E.
      rewrite update_centroids_length in E. destruct centroids; [| discriminate].
      contradiction.
    + now rewrite update_centroids_length.
    + eexists. split; [reflexivity |].
      now rewrite Hl', update_centroids_length.
Qed.

(** *** Seeding terminates *)

Lemma fold_left_Rplus (ds : list R) (a : R) :
  fold_left Rplus ds a = a + fold_left Rplus ds 0.
Proof.
  revert a. induction ds as [| d ds IH]; intro a; cbn.
  - ring.
  - rewrite (IH (a + d)), (IH (0 + d)). ring.
Qed.

Lemma fold_left_Rplus_nonneg (ds : list R) :
  Forall (fun d => 0 <= d) ds -> 0 <= fold_left Rplus ds 0.
Proof.
  induction 1 as [| d ds Hd _ IH]; cbn; [lra |].
  rewrite fold_left_Rplus. lra.
Qed.

Lemma distances_to_nonneg (pixels centroids : list RGB.t) :
  Forall (fun d => 0 <= d) (distances_to pixels centroids).
Proof.
  unfold distances_to. apply Forall_forall. intros d Hd.
  apply in_map_iff in Hd. destruct Hd as (pixel & <- & _). nra.
Qed.

(** The walk over the pixels pushes exactly one of them when [random] is
    at most the sum of the distances. *)
Lemma pick_adds (pixels : list RGB.t) (distances : list R) (random : R)
    (centroids : list RGB.t) :
  length pixels = length distances -> pixels <> [] ->
  random <= fold_left Rplus distances 0 ->
  length (pick pixels distances random centroids) = S (length centroids).
Proof.
  revert distances random.
  induction pixels as [| p ps IH]; intros distances random Hlen Hne Hsum.
  - contradiction.
  - destruct distances as [| d ds]; [discriminate |]. cbn [pick].
    cbn in Hsum. rewrite fold_left_Rplus in Hsum.
    destruct (Rle_dec (random - d) 0) as [Hle | Hgt].
    + rewrite length_app. cbn. lia.
    + apply IH.
      * cbn in Hlen. lia.
      * destruct ps; [| discriminate].
        destruct ds; [| discriminate]. cbn in Hsum. lra.
      * lra.
Qed.

Lemma seed_centroids_returns (fuel : nat) (pixels : list RGB.t) (k : Z)
    (centroids : list RGB.t) (rnd : nat -> R) (calls : nat) :
  unit_stream rnd -> pixels <> [] -> centroids <> [] ->
  (Z.of_nat (length centroids) <= k)%Z ->
  (Z.to_nat k - length centroids <= fuel)%nat ->
  exists centroids' calls',
    seed_centroids fuel pixels k centroids rnd calls = Returns centroids' calls'
    /\ length centroids' = Z.to_nat k.
Proof.
  intros Hrnd Hpx. revert centroids calls.
  induction fuel as [| fuel IH]; intros centroids calls Hne Hle Hfuel;
    cbn [seed_centroids];
    destruct (Z.ltb_spec (Z.of_nat (length centroids)) k) as [Hlt | Hge].
  - lia.
  - exists centroids, calls. split; [reflexivity | lia].
  - unfold gbind, Math_random.
    set (distances := distances_to pixels centroids).
    set (random := rnd calls * fold_left Rplus distances 0).
    assert (Hlen : length (pick pixels distances random centroids)
                   = S (length centroids)).
    { apply pick_adds; [| exact Hpx |].
      - subst distances. unfold distances_to. now rewrite length_map.
      - subst random.
        pose proof (fold_left_Rplus_nonneg distances
                      (distances_to_nonneg pixels centroids)) as Hs.
        pose proof (Hrnd calls). nra. }
    apply IH.
    + intro E. rewrite E in Hlen. discriminate.
    + rewrite Hlen. lia.
    + rewrite Hlen. lia.
  - exists centroids, calls. split; [reflexivity | lia].
Qed.

(** The first centroid is one of the pixels. *)
Lemma get_random_pixel (pixels : list RGB.t) (r : R) :
  pixels <> [] -> 0 <= r < 1 ->
  exists p, Js.get pixels (Js.floor (r * INR (length pixels))) = Some p.
Proof.
  intros Hne Hr.
  assert (Hn : 0 < INR (length pixels)).
  { apply lt_0_INR. destruct pixels; [contradiction | cbn; lia]. }
  set (x := r * INR (length pixels)).
  assert (Hx : 0 <= x < INR (length pixels)) by (subst x; nra).
  pose proof (Zfloor_bound x) as Hb.
  assert (H0 : (0 <= Zfloor x)%Z) by (apply Zfloor_lub; lra).
  assert (H1 : (Zfloor x < Z.of_nat (length pixels))%Z).
  { apply lt_IZR. rewrite <- INR_IZR_INZ. lra. }
  unfold Js.get, Js.floor, Js.index.
  destruct (Rle_dec 0 (IZR (Zfloor x))) as [_ | H];
    [| exfalso; apply H; now apply IZR_le].
  rewrite ZfloorZ.
  destruct (nth_error pixels (Z.to_nat (Zfloor x))) eqn:E; [eauto |].
  apply nth_error_None in E. lia.
Qed.

(** The three exits of [kMeansClustering], as one: it returns the
    clusters that are left of a list accounting for every pixel once its
    empty clusters are dropped. *)
Lemma kMeans_returns (pixels : list RGB.t) (k : Z)
    (iterations fuel : nat) (rnd : nat -> R) (calls : nat) :
  (1 <= k)%Z -> unit_stream rnd -> (Z.to_nat k <= fuel)%nat ->
  exists (all : list Cluster) (calls' : nat),
    kMeansClustering fuel pixels k iterations rnd calls
    = Returns (filter (fun c => (0 <? count c)%nat) all) calls'
    /\ population all = length pixels.
Proof.
  intros Hk Hrnd Hfuel. unfold kMeansClustering.
  destruct pixels as [| p0 rest] eqn:Epx.
  { exists [], calls. split; reflexivity. }
  rewrite <- Epx. assert (Hne : pixels <> []) by (subst pixels; discriminate).
  clear Epx.
  destruct (Z.leb_spec (Z.of_nat (length pixels)) k) as [Hle | Hgt].
  { exists (map (fun p => mkCluster p 1) pixels), calls. split.
    - unfold gret. f_equal. symmetry. apply forallb_filter_id.
      apply forallb_forall. intros c Hc. apply in_map_iff in Hc.
      destruct Hc as (p & <- & _). reflexivity.
    - apply population_singletons. }
  unfold gbind at 1. unfold Math_random.
  destruct (get_random_pixel pixels (rnd calls) Hne (Hrnd calls)) as [first Ef].
  unfold gbind at 1. rewrite Ef. cbn [lift gret].
  destruct (seed_centroids_returns fuel pixels k [first] rnd (S calls)
              Hrnd Hne ltac:(discriminate) ltac:(cbn; lia) ltac:(cbn; lia))
    as (cs & calls1 & Es & Hlen).
  unfold gbind at 1. rewrite Es.
  assert (Hcs : cs <> []).
  { intro E. rewrite E in Hlen. cbn in Hlen. lia. }
  destruct (lloyd_some iterations pixels k cs Hcs Hlen) as (cs' & El & Hlen').
  unfold gbind at 1. rewrite El. cbn [lift gret].
  assert (Hcs' : cs' <> []).
  { intro E. rewrite E in Hlen'. cbn in Hlen'.
    destruct cs; [contradiction | discriminate]. }
  destruct (tally_total pixels cs' (map (fun c => mkCluster c 0) cs') Hcs'
              ltac:(apply length_map)) as (fc & Et & Hp).
  unfold gbind. rewrite Et. cbn [lift gret].
  exists fc, calls1. split; [reflexivity |].
  rewrite Hp, population_fresh. reflexivity.
Qed.

(** C10.  For an integer [k >= 1], values of [Math.random()] in [0, 1) and
    a loop budget of at least [k], [kMeansClustering] returns, and the member
    counts of the clusters it returns add up to the number of pixels; none
    of the returned clusters is empty. *)
Theorem kMeans_counts_sum_to_pixels (pixels : list RGB.t) (k : Z)
    (iterations fuel : nat) (rnd : nat -> R) (calls : nat) :
  (1 <= k)%Z -> unit_stream rnd -> (Z.to_nat k <= fuel)%nat ->
  exists (clusters : list Cluster) (calls' : nat),
    kMeansClustering fuel pixels k iterations rnd calls
    = Returns clusters calls'
    /\ population clusters = length pixels
    /\ Forall (fun c => (0 < count c)%nat) clusters.
Proof.
  intros Hk Hrnd Hfuel.
  destruct (kMeans_returns pixels k iterations fuel rnd calls Hk Hrnd Hfuel)
    as (all & calls' & E & Hp).
  exists (filter (fun c => (0 <? count c)%nat) all), calls'.
  split; [exact E | split].
  - now rewrite population_filter.
  - apply Forall_forall. intros c Hc. apply filter_In in Hc.
    destruct Hc as [_ Hc]. now apply Nat.ltb_lt in Hc.
Qed.

(** *** The sort of the extraction *)

Lemma insert_by_In {A : Type} (cmp : A -> A -> Z) (x y : A) (xs : list A) :
  In y (insert_by cmp x xs) <-> y = x \/ In y xs.
Proof.
  induction xs as [| z rest IH]; cbn.
  - intuition.
  - destruct (cmp x z <=? 0)%Z; cbn; [intuition |].
    rewrite IH. intuition.
Qed.

Lemma insert_by_count_descending (x : Cluster) (clusters : list Cluster) :
  descending clusters -> descending (insert_by by_count x clusters).
Proof.
  unfold descending. induction 1 as [| y rest Hrest IH Hy]; cbn.
  - repeat constructor.
  - destruct (Z.leb_spec (by_count x y) 0) as [Hle | Hgt]; unfold by_count in *.
    + constructor; [now constructor |].
      constructor; [lia |].
      rewrite Forall_forall in *. intros z Hz. specialize (Hy z Hz). lia.
    + constructor; [exact IH |].
      apply Forall_forall. intros z Hz. apply insert_by_In in Hz.
      destruct Hz as [-> | Hz]; [lia |].
      rewrite Forall_forall in Hy. now apply Hy.
Qed.

Lemma sort_by_count_descending (clusters : list Cluster) :
  descending (sort_by by_count clusters).
Proof.
  unfold sort_by. induction clusters as [| x rest IH]; cbn.
  - constructor.
  - now apply insert_by_count_descending.
Qed.

(** The sort rearranges: it neither drops nor invents a cluster. *)
Lemma insert_by_permutation {A : Type} (cmp : A -> A -> Z) (x : A) (xs : list A) :
  Permutation (insert_by cmp x xs) (x :: xs).
Proof.
  induction xs as [| y rest IH]; cbn; [reflexivity |].
  destruct (cmp x y <=? 0)%Z; [reflexivity |].
  rewrite IH. apply perm_swap.
Qed.

Lemma sort_by_permutation {A : Type} (cmp : A -> A -> Z) (xs : list A) :
  Permutation (sort_by cmp xs) xs.
Proof.
  unfold sort_by. induction xs as [| x rest IH]; cbn; [reflexivity |].
  rewrite insert_by_permutation. now constructor.
Qed.

Section ExtractionFacts.
Context {lib : Library}.

(** The colours of the output are the clusters in their order, each
    through [rgbToHex] and [parseColor], the ones that do not parse left
    out. *)
Lemma parsed_clusters_colors (clusters : list Cluster) :
  map snd (parsed_clusters clusters)
  = Js.filter_non_null
      (map (fun cluster => parseColor (rgbToHex (center cluster))) clusters).
Proof.
  unfold parsed_clusters.
  induction clusters as [| x rest IH]; cbn [flat_map map Js.filter_non_null];
    [reflexivity |].
  destruct (parseColor (rgbToHex (center x))); cbn [app map snd];
    now rewrite IH.
Qed.

End ExtractionFacts.

(** C9.  For an integer colour count of at least 1 (8 when it is left
    out), values of [Math.random()] in [0, 1) and a loop budget of at least
    the colour count, the extraction returns.  Its output follows the
    clusters that [kMeansClustering] returned for the pixels of the image,
    none of them empty, rearranged so that their member counts do not
    increase: it is the list of the colours parsed from the hex strings of
    their centres, in that order, a centre that does not parse left out. *)
Theorem extraction_counts_non_increasing (lib : Library)
    (data : list RGBA) (colorCount : option Z) (fuel : nat) (rnd : nat -> R)
    (calls : nat) :
  (1 <= Js.nullish colorCount 8%Z)%Z -> unit_stream rnd ->
  (Z.to_nat (Js.nullish colorCount 8%Z) <= fuel)%nat ->
  exists (clusters sorted : list Cluster) (calls' : nat),
    kMeansClustering fuel (getPixelsFromImageData data)
      (Js.nullish colorCount 8%Z) 10 rnd calls
    = Returns clusters calls'
    /\ Forall (fun c => (0 < count c)%nat) clusters
    /\ Permutation clusters sorted
    /\ descending sorted
    /\ extractColorsFromImage fuel data colorCount rnd calls
       = Returns
           (Js.filter_non_null
              (map (fun cluster => parseColor (rgbToHex (center cluster)))
                   sorted))
           calls'.
Proof.
  intros Hk Hrnd Hfuel.
  destruct (kMeans_returns (getPixelsFromImageData data)
              (Js.nullish colorCount 8%Z) 10 fuel rnd calls Hk Hrnd Hfuel)
    as (all & calls' & Ek & _).
  set (clusters := filter (fun c => (0 <? count c)%nat) all) in *.
  exists clusters, (sort_by by_count clusters), calls'.
  split; [exact Ek | split; [| split; [| split]]].
  - apply Forall_forall. intros c Hc. apply filter_In in Hc.
    destruct Hc as [_ Hc]. now apply Nat.ltb_lt in Hc.
  - apply Permutation_sym, sort_by_permutation.
  - apply sort_by_count_descending.
  - unfold extractColorsFromImage, sortedClusters, gbind. rewrite Ek.
    unfold gret. now rewrite parsed_clusters_colors.
Qed.

(* ================================================================== *)
(** ** The sample library parses white and black *)

Lemma round_255 : Js.round (1 * 255) = 255.
Proof. unfold Js.round. apply (floor_unique 255). lra. Qed.

Lemma round_0 : Js.round (0 * 255) = 0.
Proof. unfold Js.round. apply (floor_unique 0). lra. Qed.

Lemma to_lch_grey (v : R) :
  Sample.to_lch (Culori.Rgb.mk v v v) = Culori.Oklch.mk v 0 None.
Proof.
  unfold Sample.to_lch, Sample.hue_of, Sample.luma, Sample.max3, Sample.min3.
  cbn [Culori.Rgb.r Culori.Rgb.g Culori.Rgb.b].
  assert (Hmax : Rmax v (Rmax v v) = v)
    by (unfold Rmax; repeat destruct (Rle_dec _ _); lra).
  assert (Hmin : Rmin v (Rmin v v) = v)
    by (unfold Rmin; repeat destruct (Rle_dec _ _); lra).
  rewrite Hmax, Hmin.
  destruct (Req_dec_T (v - v) 0) as [_ | H]; [| exfalso; lra].
  f_equal; lra.
Qed.

Lemma of_lch_grey (v : R) (h : option R) :
  Sample.of_lch (Culori.Oklch.mk v 0 h) = Culori.Rgb.mk v v v.
Proof.
  unfold Sample.of_lch, Sample.shade.
  cbn [Culori.Oklch.l Culori.Oklch.c Culori.Oklch.h]. f_equal; ring.
Qed.

Lemma clamp_grey (v : R) (h : option R) :
  Sample.clamp (Culori.oklch (Culori.Oklch.mk v 0 h)) = Culori.Oklch.mk v 0 h.
Proof.
  unfold Sample.clamp. cbn [Sample.as_lch Culori.Oklch.l Culori.Oklch.h].
  destruct (Sample.displayable _); reflexivity.
Qed.

(** A grey [#vvvvvv] parses to the RGB triple of its channel value. *)
Lemma sample_parse_grey (input : string) (v : R) :
  Sample.parse_hex input = Some (Culori.Rgb.mk v v v) ->
  exists x, @parseColor Sample.lib input = Some x
            /\ rgb x = RGB.mk (Js.round (v * 255)) (Js.round (v * 255))
                              (Js.round (v * 255)).
Proof.
  intro Hp. unfold parseColor.
  cbn [parse toOklch toRgb toHsl clampChroma Sample.lib].
  rewrite Hp. cbn [Sample.as_lch Sample.as_rgb].
  rewrite to_lch_grey, clamp_grey, of_lch_grey.
  eexists. split; [reflexivity |]. reflexivity.
Qed.

Lemma parse_hex_white :
  Sample.parse_hex "#FFFFFF" = Some (Culori.Rgb.mk 1 1 1).
Proof.
  unfold Sample.parse_hex, Sample.channel.
  replace (Sample.hex_value "F") with (Some 15%Z) by reflexivity.
  change (16 * 15 + 15)%Z with 255%Z.
  replace (255 / 255) with 1 by lra. reflexivity.
Qed.

Lemma parse_hex_black :
  Sample.parse_hex "#000000" = Some (Culori.Rgb.mk 0 0 0).
Proof.
  unfold Sample.parse_hex, Sample.channel.
  replace (Sample.hex_value "0") with (Some 0%Z) by reflexivity.
  change (16 * 0 + 0)%Z with 0%Z.
  replace (0 / 255) with 0 by lra. reflexivity.
Qed.

Lemma sample_parse_white :
  exists white, @parseColor Sample.lib "#FFFFFF" = Some white
                /\ rgb white = RGB.mk 255 255 255.
Proof.
  destruct (sample_parse_grey _ _ parse_hex_white) as (x & Hx & E).
  exists x. split; [exact Hx |]. now rewrite E, round_255.
Qed.

Lemma sample_parse_black :
  exists black, @parseColor Sample.lib "#000000" = Some black
                /\ rgb black = RGB.mk 0 0 0.
Proof.
  destruct (sample_parse_grey _ _ parse_hex_black) as (x & Hx & E).
  exists x. split; [exact Hx |]. now rewrite E, round_0.
Qed.

(* ================================================================== *)
(** ** The theorems at concrete inputs *)

Lemma sample_color (l c h : R) :
  @fromOklch Sample.lib l c h = Some (Sample.color_of_lch l c h).
Proof. reflexivity. Qed.

Lemma sample_color_valid (l c h : R) :
  0 <= l <= 1 -> 0 <= c ->
  0 <= LCH.l (oklch (Sample.color_of_lch l c h)) <= 1
  /\ 0 <= LCH.c (oklch (Sample.color_of_lch l c h)).
Proof.
  intros Hl Hc.
  destruct (fromOklch_clamped l c h _ sample_gamut_clamp Hl Hc (sample_color l c h))
    as (El & _ & Ec & _).
  rewrite El. split; [exact Hl | tauto].
Qed.

(** C2 from 350 degrees to 10 degrees, half way. *)
Lemma lerpHue_takes_the_shorter_arc_witness :
  Interpolation.lerpHue 350 10 0.5 = Js.rem (350 + 20 * 0.5 + 360) 360
  /\ 0 <= Interpolation.lerpHue 350 10 0.5 < 360
  /\ Interpolation.lerpHue 350 10 0.5 = 0
  /\ Interpolation.lerpHue 350 10 0.5 <> 180.
Proof.
  destruct (lerpHue_takes_the_shorter_arc 350 10 0.5
              ltac:(lra) ltac:(lra) ltac:(lra))
    as ((diff & Hcase & Hshort & E) & Hrange & E0 & Hnot).
  split; [| split; [exact Hrange | split; [exact E0 | exact Hnot]]].
  assert (Hd : diff = 20) by lra.
  now rewrite <- Hd.
Defined.

(** C3 at two colours of the sample library and three steps. *)
Lemma interpolateLinear_endpoints_witness :
  length (@Interpolation.interpolateLinear Sample.lib
            [Sample.color_of_lch 0.5 0.1 30; Sample.color_of_lch 0.7 0.1 200]
            (INR 3) oklch_space) = 3%nat
  /\ nth_error (@Interpolation.interpolateLinear Sample.lib
            [Sample.color_of_lch 0.5 0.1 30; Sample.color_of_lch 0.7 0.1 200]
            (INR 3) oklch_space) 0
     = @fromOklch Sample.lib
         (LCH.l (oklch (Sample.color_of_lch 0.5 0.1 30)))
         (LCH.c (oklch (Sample.color_of_lch 0.5 0.1 30)))
         (Js.rem (LCH.h (oklch (Sample.color_of_lch 0.5 0.1 30)) + 360) 360)
  /\ nth_error (@Interpolation.interpolateLinear Sample.lib
            [Sample.color_of_lch 0.5 0.1 30; Sample.color_of_lch 0.7 0.1 200]
            (INR 3) oklch_space) 2
     = @blend Sample.lib oklch_space (Sample.color_of_lch 0.5 0.1 30)
         (Sample.color_of_lch 0.7 0.1 200) 1.
Proof.
  apply (interpolateLinear_endpoints Sample.lib
           [Sample.color_of_lch 0.5 0.1 30; Sample.color_of_lch 0.7 0.1 200]
           3 oklch_space
           (Sample.color_of_lch 0.5 0.1 30) (Sample.color_of_lch 0.5 0.1 30)
           (Sample.color_of_lch 0.7 0.1 200)).
  - exact sample_converts.
  - cbn. lia.
  - lia.
  - reflexivity.
  - reflexivity.
  - reflexivity.
Defined.

(** C5 at pure blue in the sample library: a golden-ratio harmony of one
    colour, below the range of the spec. *)
Lemma harmony_uses_count_and_spread_as_given_witness :
  length (@Harmonic.generateHarmony Sample.lib (Sample.color_of_lch 0.0722 1 240)
            (Harmonic.mkConfig Harmonic.golden_ratio (Some (INR 1)) None)
            oklch_space) = 1%nat.
Proof.
  destruct (sample_color_valid 0.0722 1 240 ltac:(lra) ltac:(lra)) as [Hl Hc].
  destruct (harmony_uses_count_and_spread_as_given Sample.lib
              (Sample.color_of_lch 0.0722 1 240) oklch_space
              sample_converts sample_gamut_clamp Hl Hc) as [Hcount _].
  exact (Hcount 1%nat None).
Defined.

(** C6 at the panel's configuration, the clock at 0 and at 1. *)
Lemma generateColorful_deterministic_witness :
  @Colorful.generateColorful Sample.lib 0 panel_config oklch_space
  = @Colorful.generateColorful Sample.lib 1 panel_config oklch_space.
Proof.
  apply (generateColorful_deterministic Sample.lib panel_config oklch_space 8 0 1).
  reflexivity.
Defined.


(** C8 in the sample library. *)
Lemma best_text_color_black_white_witness :
  @Contrast.getContrastTextColor Sample.lib (inr "#000000"%string)
  = Some "#FFFFFF"%string
  /\ @Contrast.getContrastTextColor Sample.lib (inr "#FFFFFF"%string)
     = Some "#000000"%string.
Proof.
  destruct sample_parse_white as (white & Pw & Ew).
  destruct sample_parse_black as (black & Pk & Ek).
  destruct (best_text_color_black_white Sample.lib white black Pw Ew Pk Ek)
    as (H1 & H2 & _).
  split; assumption.
Defined.

Lemma zeros_unit : unit_stream zeros.
Proof. intro n. unfold zeros. lra. Qed.

(** C9 at three pixels and two colours. *)
Lemma extraction_counts_non_increasing_witness :
  exists (clusters sorted : list ImageColors.Cluster) (calls' : nat),
    ImageColors.kMeansClustering 2%nat
      (ImageColors.getPixelsFromImageData three_pixels) 2 10 zeros 0%nat
    = ImageColors.Returns clusters calls'
    /\ Forall (fun c => (0 < ImageColors.count c)%nat) clusters
    /\ Permutation clusters sorted
    /\ descending sorted
    /\ @ImageColors.extractColorsFromImage Sample.lib 2%nat three_pixels
         (Some 2%Z) zeros 0%nat
       = ImageColors.Returns
           (Js.filter_non_null
              (map (fun cluster =>
                      @parseColor Sample.lib
                        (ImageColors.rgbToHex (ImageColors.center cluster)))
                   sorted))
           calls'.
Proof.
  destruct (extraction_counts_non_increasing Sample.lib three_pixels (Some 2%Z) 2%nat
              zeros 0%nat
              ltac:(cbn; lia) zeros_unit ltac:(cbn; lia))
    as (clusters & sorted & calls' & Ek & Hfull & Hperm & Hsorted & E).
  exists clusters, sorted, calls'. repeat split; assumption.
Defined.

(** C10 at three pixels and two clusters. *)
Lemma kMeans_counts_sum_to_pixels_witness :
  exists (clusters : list ImageColors.Cluster) (calls' : nat),
    ImageColors.kMeansClustering 2%nat
      (ImageColors.getPixelsFromImageData three_pixels) 2 10%nat zeros 0%nat
    = ImageColors.Returns clusters calls'
    /\ population clusters
       = length (ImageColors.getPixelsFromImageData three_pixels).
Proof.
  destruct (kMeans_counts_sum_to_pixels
              (ImageColors.getPixelsFromImageData three_pixels) 2 10%nat 2%nat
              zeros 0%nat
              ltac:(cbn; lia) zeros_unit ltac:(cbn; lia))
    as (clusters & calls' & E & Hp & _).
  exists clusters, calls'. split; [exact E | exact Hp].
Defined.

(* ================================================================== *)
(** ** The harmony generator does not clamp *)

Lemma clamp_to_count : clamp_to 3 200 1 = INR 3.
Proof.
  unfold clamp_to. rewrite Rmin_right, Rmax_left by lra.
  rewrite INR_IZR_INZ. reflexivity.
Qed.

Lemma clamp_to_spread : clamp_to 5 90 100 = 90.
Proof. unfold clamp_to. rewrite Rmin_left, Rmax_right by lra. reflexivity. Qed.

Lemma hue_minus (a b : R) (k : Z) :
  0 <= b < 360 -> a = b + 360 * IZR k -> normalizeHue a = b.
Proof. intros Hb ->. rewrite normalizeHue_shift. now apply normalizeHue_id. Qed.

(** C5, the claim as stated, fails.  From red, [fromHsl(0, 100, 50)], a
    golden-ratio harmony with count 1 has one colour, and three with the
    count clamped into [3, 200]; an analogous harmony with spread 100 has
    the hues 160, 260, 0, 100 and 200, not those of spread 90. *)
Lemma harmony_count_and_spread_not_clamped :
  exists base : ColorResult,
    @fromHsl Sample.lib 0 100 50 = Some base
    /\ length (@Harmonic.generateHarmony Sample.lib base
                 (Harmonic.mkConfig Harmonic.golden_ratio (Some 1) None)
                 hsl_space) = 1%nat
    /\ length (@Harmonic.generateHarmony Sample.lib base
                 (clamped_config
                    (Harmonic.mkConfig Harmonic.golden_ratio (Some 1) None))
                 hsl_space) = 3%nat
    /\ map (hue_in hsl_space)
           (@Harmonic.generateHarmony Sample.lib base
              (Harmonic.mkConfig Harmonic.analogous None (Some 100)) hsl_space)
       = [160; 260; 0; 100; 200]
    /\ map (hue_in hsl_space)
           (@Harmonic.generateHarmony Sample.lib base
              (clamped_config
                 (Harmonic.mkConfig Harmonic.analogous None (Some 100)))
              hsl_space)
       = [180; 270; 0; 90; 180].
Proof.
  destruct (sample_fromHsl 0 100 50) as [base Hb].
  pose proof (fromHsl_hsl _ _ _ _ Hb) as Eh.
  exists base. split; [exact Hb |]. repeat split.
  - replace 1 with (INR 1) by reflexivity.
    apply golden_ratio_length, sample_converts.
  - unfold clamped_config. cbn [Harmonic.type Harmonic.count Js.nullish].
    rewrite clamp_to_count. apply golden_ratio_length, sample_converts.
  - rewrite analogous_hues_hsl by exact sample_converts.
    rewrite Eh. cbn [HSL.h].
    rewrite (hue_minus (0 - 100 * 2) 160 (-1)) by lra.
    rewrite (hue_minus (0 - 100) 260 (-1)) by lra.
    rewrite (hue_minus (0 + 100) 100 0) by lra.
    rewrite (hue_minus (0 + 100 * 2) 200 0) by lra.
    reflexivity.
  - unfold clamped_config. cbn [Harmonic.type Harmonic.spread Js.nullish].
    rewrite clamp_to_spread.
    rewrite analogous_hues_hsl by exact sample_converts.
    rewrite Eh. cbn [HSL.h].
    rewrite (hue_minus (0 - 90 * 2) 180 (-1)) by lra.
    rewrite (hue_minus (0 - 90) 270 (-1)) by lra.
    rewrite (hue_minus (0 + 90) 90 0) by lra.
    rewrite (hue_minus (0 + 90 * 2) 180 0) by lra.
    reflexivity.
Qed.


(* ================================================================== *)
(** ** More on [lib/color-utils.ts] *)

(** *** Hex strings *)

Lemma upper_hex_digit (c : ascii) :
  JsString.is_hex_digit c = true ->
  JsString.is_hex_digit (JsString.upper c) = true
  /\ JsString.between 97 122 (JsString.upper c) = false
  /\ Ascii.eqb (JsString.upper c) "#" = false
  /\ Ascii.eqb c "#" = false.
Proof.
  destruct c as [[] [] [] [] [] [] [] []]; vm_compute; intro H;
    try discriminate; repeat split.
Qed.

Lemma upper_idempotent (c : ascii) :
  JsString.upper (JsString.upper c) = JsString.upper c.
Proof. destruct c as [[] [] [] [] [] [] [] []]; reflexivity. Qed.

Lemma toUpperCase_idempotent (s : string) :
  JsString.toUpperCase (JsString.toUpperCase s) = JsString.toUpperCase s.
Proof.
  induction s as [| c s IH]; cbn; [reflexivity |].
  now rewrite upper_idempotent, IH.
Qed.

Lemma toUpperCase_length (s : string) :
  String.length (JsString.toUpperCase s) = String.length s.
Proof. induction s as [| c s IH]; cbn; [reflexivity | now rewrite IH]. Qed.

Lemma toUpperCase_hex_digits (s : string) :
  JsString.all JsString.is_hex_digit s = true ->
  JsString.all JsString.is_hex_digit (JsString.toUpperCase s) = true
  /\ JsString.all (fun c => negb (JsString.between 97 122 c))
       (JsString.toUpperCase s) = true
  /\ JsString.remove_first "#" s = s.
Proof.
  induction s as [| c s IH]; cbn [JsString.all JsString.toUpperCase JsString.remove_first];
    [repeat split |].
  intro H. apply andb_prop in H. destruct H as [Hc Hs].
  destruct (IH Hs) as (H1 & H2 & H3).
  destruct (upper_hex_digit c Hc) as (U1 & U2 & U3 & U4).
  rewrite U1, U2, U4, H1, H2, H3. repeat split.
Qed.

(** What a string that passes [isValidHex] is: three or six hex digits
    after an optional [#]. *)
Lemma isValidHex_digits (hex : string) :
  isValidHex hex = true ->
  exists digits,
    (hex = digits \/ hex = String "#" digits)
    /\ JsString.all JsString.is_hex_digit digits = true
    /\ (String.length digits = 6 \/ String.length digits = 3)%nat.
Proof.
  unfold isValidHex. intro H. apply andb_prop in H. destruct H as [Hlen Hall].
  apply orb_prop in Hlen.
  match type of Hall with
  | JsString.all _ ?d = true => exists d
  end.
  split; [| split; [exact Hall |]].
  - destruct hex as [| c rest]; [now left |].
    destruct (Ascii.eqb c "#") eqn:E.
    + apply Ascii.eqb_eq in E. subst c. now right.
    + left. destruct c as [[] [] [] [] [] [] [] []]; try reflexivity.
      discriminate E.
  - destruct Hlen as [Hlen | Hlen]; apply Nat.eqb_eq in Hlen; tauto.
Qed.

(** X3.  [formatHexString] on a valid hex string: the result is [#] followed
    by the same number of digits with no lower-case letter, it is valid
    again, and formatting it again changes nothing. *)
Theorem formatHexString_of_a_valid_hex (hex : string) :
  isValidHex hex = true ->
  isValidHex (formatHexString hex) = true
  /\ formatHexString (formatHexString hex) = formatHexString hex
  /\ exists digits,
       formatHexString hex = String "#" digits
       /\ JsString.all (fun c => negb (JsString.between 97 122 c)) digits
          = true
       /\ (String.length digits = 6 \/ String.length digits = 3)%nat.
Proof.
  intro H. destruct (isValidHex_digits hex H) as (digits & Hhex & Hall & Hlen).
  destruct (toUpperCase_hex_digits digits Hall) as (U1 & U2 & U3).
  assert (E : formatHexString hex = String "#" (JsString.toUpperCase digits)).
  { unfold formatHexString. destruct Hhex as [-> | ->].
    - now rewrite U3.
    - reflexivity. }
  rewrite E. split; [| split].
  - unfold isValidHex. rewrite toUpperCase_length, U1.
    destruct Hlen as [-> | ->]; reflexivity.
  - unfold formatHexString. cbn [JsString.remove_first].
    rewrite Ascii.eqb_refl. now rewrite toUpperCase_idempotent.
  - exists (JsString.toUpperCase digits).
    rewrite toUpperCase_length. repeat split; assumption.
Qed.

(** *** A random colour *)



(* ================================================================== *)
(** ** More on linear interpolation *)

(** X6.  The size of a gradient, in every case: no colour for no control
    point, one for one and, from two control points on, two when [steps]
    is below 2 and otherwise one for every round of the loop, which runs
    [ceil steps] times. *)
Theorem interpolateLinear_length (lib : Library) (colors : list ColorResult)
    (steps : R) (colorSpace : ColorSpace) :
  Converts lib ->
  length (Interpolation.interpolateLinear colors steps colorSpace)
  = match colors with
    | [] => 0%nat
    | [_] => 1%nat
    | _ :: _ :: _ =>
        if Rlt_dec steps 2 then 2%nat else Z.to_nat (Zceil steps)
    end.
Proof.
  intro Hc. unfold Interpolation.interpolateLinear.
  destruct colors as [| c0 [| c1 rest]]; try reflexivity.
  destruct (Rlt_dec steps 2); [reflexivity |].
  rewrite filter_non_null_length.
  - apply length_seq.
  - intros i _ E.
    destruct (linear_step_total (c0 :: c1 :: rest) c0 steps colorSpace (INR i) Hc)
      as [x Hx].
    congruence.
Qed.


(* ================================================================== *)
(** ** The spline *)

(** *** Unwrapping hues *)

Lemma lower_done (fuel : nat) (diff : R) :
  diff <= 180 -> Spline.lower fuel diff = Some diff.
Proof.
  intro H. destruct fuel; cbn [Spline.lower];
    destruct (Rgt_dec diff 180); try lra; reflexivity.
Qed.

Lemma raise_done (fuel : nat) (diff : R) :
  -180 <= diff -> Spline.raise fuel diff = Some diff.
Proof.
  intro H. destruct fuel; cbn [Spline.raise];
    destruct (Rlt_dec diff (-180)); try lra; reflexivity.
Qed.

(** Within a turn and a half of [prev], one round of one of the two loops
    is enough: [unwrap] moves the difference by at most one turn, into
    [-180, 180]. *)
Lemma unwrap_one_round (fuel : nat) (prev curr : R) :
  (1 <= fuel)%nat -> -540 <= curr - prev <= 540 ->
  exists diff : R,
    (diff = curr - prev \/ diff = curr - prev - 360
     \/ diff = curr - prev + 360)
    /\ -180 <= diff <= 180
    /\ Spline.unwrap fuel prev curr = Some (prev + diff).
Proof.
  intros Hfuel H. destruct fuel as [| fuel]; [lia |].
  unfold Spline.unwrap. cbn [Spline.lower].
  destruct (Rgt_dec (curr - prev) 180) as [Hgt | Hle].
  - exists (curr - prev - 360).
    rewrite lower_done, raise_done by lra.
    split; [tauto | split; [lra | reflexivity]].
  - cbn [Spline.raise].
    destruct (Rlt_dec (curr - prev) (-180)) as [Hlt | Hge].
    + exists (curr - prev + 360). rewrite raise_done by lra.
      split; [tauto | split; [lra | reflexivity]].
    + exists (curr - prev). split; [tauto | split; [lra | reflexivity]].
Qed.

(** X9.  The spline of hues.  For four hues of [0, 360) one round of every
    [while] loop is enough, so the function returns, and what it returns is
    a hue of [0, 360).  Each hue is unwrapped to within half a turn of the
    one before it: the outer hues [h0] and [h2] relative to [h1], and [h3]
    relative to the unwrapped [h2], each difference being moved by at most
    one turn; the spline through the unwrapped hues is then normalised. *)
Theorem catmullRomHue_unwraps_within_half_a_turn (fuel : nat)
    (h0 h1 h2 h3 t : R) :
  (1 <= fuel)%nat ->
  0 <= h0 < 360 -> 0 <= h1 < 360 -> 0 <= h2 < 360 -> 0 <= h3 < 360 ->
  exists h d0 d2 d3 : R,
    Spline.catmullRomHue fuel h0 h1 h2 h3 t = Some h
    /\ 0 <= h < 360
    /\ h = normalizeHue
             (Spline.catmullRom (h1 + d0) h1 (h1 + d2) (h1 + d2 + d3) t)
    /\ (d0 = h0 - h1 \/ d0 = h0 - h1 - 360 \/ d0 = h0 - h1 + 360)
    /\ (d2 = h2 - h1 \/ d2 = h2 - h1 - 360 \/ d2 = h2 - h1 + 360)
    /\ (d3 = h3 - (h1 + d2) \/ d3 = h3 - (h1 + d2) - 360
        \/ d3 = h3 - (h1 + d2) + 360)
    /\ -180 <= d0 <= 180 /\ -180 <= d2 <= 180 /\ -180 <= d3 <= 180.
Proof.
  intros Hfuel H0 H1 H2 H3.
  destruct (unwrap_one_round fuel h1 h0 Hfuel ltac:(lra)) as (d0 & C0 & B0 & E0).
  destruct (unwrap_one_round fuel h1 h2 Hfuel ltac:(lra)) as (d2 & C2 & B2 & E2).
  destruct (unwrap_one_round fuel (h1 + d2) h3 Hfuel ltac:(lra))
    as (d3 & C3 & B3 & E3).
  exists (normalizeHue
            (Spline.catmullRom (h1 + d0) h1 (h1 + d2) (h1 + d2 + d3) t)),
    d0, d2, d3.
  split.
  - unfold Spline.catmullRomHue. rewrite E0, E2, E3. reflexivity.
  - split; [apply normalizeHue_range |]. tauto.
Qed.

(** *** The smooth gradient *)

Lemma catmullRomHue_returns (fuel : nat) (h0 h1 h2 h3 t : R) :
  (1 <= fuel)%nat ->
  0 <= h0 < 360 -> 0 <= h1 < 360 -> 0 <= h2 < 360 -> 0 <= h3 < 360 ->
  exists h, Spline.catmullRomHue fuel h0 h1 h2 h3 t = Some h /\ 0 <= h < 360.
Proof.
  intros Hfuel H0 H1 H2 H3.
  destruct (unwrap_one_round fuel h1 h0 Hfuel ltac:(lra)) as (d0 & C0 & B0 & E0).
  destruct (unwrap_one_round fuel h1 h2 Hfuel ltac:(lra)) as (d2 & C2 & B2 & E2).
  destruct (unwrap_one_round fuel (h1 + d2) h3 Hfuel ltac:(lra))
    as (d3 & C3 & B3 & E3).
  unfold Spline.catmullRomHue. rewrite E0, E2, E3.
  eexists. split; [reflexivity | apply normalizeHue_range].
Qed.

Lemma collect_all {A B : Type} (f : A -> option (option B)) (xs : list A) :
  (forall a, In a xs -> exists b, f a = Some (Some b)) ->
  exists out,
    Spline.collect (map f xs) = Some out
    /\ length out = length xs
    /\ (forall k a b, nth_error xs k = Some a -> f a = Some (Some b) ->
          nth_error out k = Some b).
Proof.
  induction xs as [| a xs IH]; intro H.
  - exists []. repeat split. intros [| k] ? ? E; discriminate E.
  - destruct (H a (or_introl eq_refl)) as [b Eb].
    destruct (IH (fun y Hy => H y (or_intror Hy))) as (out & E & Hlen & Hnth).
    exists (b :: out). cbn [map Spline.collect]. rewrite Eb, E.
    repeat split.
    + cbn. now rewrite Hlen.
    + intros [| k] a' b' Ek Ef; cbn in *.
      * injection Ek as <-. congruence.
      * now apply (Hnth k a').
Qed.

Section SplineFacts.
Context {lib : Library}.

Lemma nth_hue_normalised (colorSpace : ColorSpace)
    (colors : list ColorResult) (c0 : ColorResult) (p : nat) :
  Forall (hue_normalised colorSpace) colors ->
  hue_normalised colorSpace c0 ->
  hue_normalised colorSpace (nth p colors c0).
Proof.
  intros Hall H0. destruct (nth_in_or_default p colors c0) as [Hin | ->].
  - rewrite Forall_forall in Hall. now apply Hall.
  - exact H0.
Qed.

(** No round of the loop runs out of budget or yields [null]. *)
Lemma spline_step_total (fuel : nat) (colors : list ColorResult)
    (c0 : ColorResult) (steps : R) (colorSpace : ColorSpace) (i : R) :
  Converts lib -> (1 <= fuel)%nat ->
  Forall (hue_normalised colorSpace) colors ->
  hue_normalised colorSpace c0 ->
  exists x,
    Spline.spline_step fuel colors c0 steps colorSpace i = Some (Some x).
Proof.
  intros Hc Hfuel Hall H0. unfold Spline.spline_step.
  set (p0 := nth _ colors c0). set (p1 := nth _ colors c0).
  set (p2 := nth _ colors c0). set (p3 := nth _ colors c0).
  assert (N0 : hue_normalised colorSpace p0) by now apply nth_hue_normalised.
  assert (N1 : hue_normalised colorSpace p1) by now apply nth_hue_normalised.
  assert (N2 : hue_normalised colorSpace p2) by now apply nth_hue_normalised.
  assert (N3 : hue_normalised colorSpace p3) by now apply nth_hue_normalised.
  unfold hue_normalised in *.
  destruct colorSpace; cbn [hue_in] in *.
  - match goal with
    | |- context [Spline.catmullRomHue fuel ?a ?b ?c ?d ?t] =>
        destruct (catmullRomHue_returns fuel a b c d t Hfuel N0 N1 N2 N3)
          as (h & -> & _)
    end.
    match goal with
    | |- context [fromOklch ?l ?c ?hh] =>
        destruct (fromOklch_total l c hh Hc) as [x ->]
    end.
    now exists x.
  - match goal with
    | |- context [Spline.catmullRomHue fuel ?a ?b ?c ?d ?t] =>
        destruct (catmullRomHue_returns fuel a b c d t Hfuel N0 N1 N2 N3)
          as (h & -> & _)
    end.
    match goal with
    | |- context [fromHsl ?hh ?s ?l] =>
        destruct (fromHsl_total hh s l Hc) as [x ->]
    end.
    now exists x.
Qed.

End SplineFacts.

(** X10.  The smooth gradient returns a colour for every round.  With
    control points whose hues lie in [0, 360), a library that converts and
    one round of budget for the [while] loops, no round runs out of budget
    or is dropped: from three control points on the function returns two
    colours when [steps] is below 2 and otherwise [ceil steps] colours; with
    at most two control points it returns what [interpolateLinear]
    returns. *)
Theorem interpolateCatmullRom_returns_every_round (lib : Library)
    (colors : list ColorResult) (steps : R) (colorSpace : ColorSpace)
    (fuel : nat) :
  Converts lib -> (1 <= fuel)%nat ->
  Forall (hue_normalised colorSpace) colors ->
  exists out,
    Spline.interpolateCatmullRom fuel colors steps colorSpace = Some out
    /\ ((3 <= length colors)%nat ->
        length out
        = if Rlt_dec steps 2 then 2%nat else Z.to_nat (Zceil steps))
    /\ ((length colors <= 2)%nat ->
        out = Interpolation.interpolateLinear colors steps colorSpace).
Proof.
  intros Hc Hfuel Hall. unfold Spline.interpolateCatmullRom.
  destruct colors as [| c0 [| c1 [| c2 rest]]].
  - exists []. repeat split; cbn; intros; try lia; reflexivity.
  - exists [c0]. repeat split; cbn; intros; try lia; reflexivity.
  - eexists. split; [reflexivity |]. split; cbn; intros; try lia; reflexivity.
  - set (colors := c0 :: c1 :: c2 :: rest) in *.
    destruct (Rlt_dec steps 2) as [Hlt | Hge].
    + eexists. split; [reflexivity |]. split; cbn; intros; try lia; reflexivity.
    + assert (H0 : hue_normalised colorSpace c0).
      { rewrite Forall_forall in Hall. apply Hall. now left. }
      destruct (collect_all
                  (fun i => Spline.spline_step fuel colors c0 steps colorSpace
                              (INR i))
                  (seq 0 (Js.iterations steps))) as (out & E & Hout & _).
      { intros i _. now apply spline_step_total. }
      exists out. split; [exact E |]. split.
      * intros _. rewrite Hout. apply length_seq.
      * cbn. intro. lia.
Qed.


(* ================================================================== *)
(** ** More on harmonies *)

Section HarmonyMore.
Context {lib : Library}.

(** The colour that [createColor(hue)] builds, in either colour space. *)
Lemma created (colorSpace : ColorSpace) (base : ColorResult) (hue : R) :
  Converts lib -> GamutClamp lib ->
  0 <= LCH.l (oklch base) <= 1 -> 0 <= LCH.c (oklch base) ->
  exists x,
    match colorSpace with
    | oklch_space =>
        fromOklch (LCH.l (oklch base)) (LCH.c (oklch base)) (normalizeHue hue)
    | hsl_space =>
        fromHsl (normalizeHue hue) (HSL.s (hsl base)) (HSL.l (hsl base))
    end = Some x
    /\ hue_in colorSpace x = normalizeHue hue
    /\ keeps_tone colorSpace base x.
Proof.
  intros Hc G Hl Hch. destruct colorSpace.
  - destruct (created_oklch base hue Hc G Hl Hch) as (x & Hx & El & Eh & Ec & _).
    exists x. cbn. repeat split; try assumption. lra.
  - destruct (created_hsl base hue Hc) as (x & Hx & E).
    exists x. cbn. rewrite E. repeat split. exact Hx.
Qed.

Lemma keeps_tone_refl (colorSpace : ColorSpace) (base : ColorResult) :
  keeps_tone colorSpace base base.
Proof. destruct colorSpace; cbn; split; try reflexivity; lra. Qed.

End HarmonyMore.

(** X11.  The harmonies of fixed size.  For a base colour of the data model
    the split-complementary and the triadic harmony have three colours and
    the tetradic one four; the first is the base colour itself and the
    others stand 150 and 210, 120 and 240, and 90, 180 and 270 degrees
    further round the wheel.  Every colour keeps the lightness of the base
    (and in HSL its saturation); [count] and [spread] play no part. *)
Theorem harmony_hues_of_the_fixed_types (lib : Library) (base : ColorResult)
    (colorSpace : ColorSpace) (count spread : option R) :
  Converts lib -> GamutClamp lib ->
  0 <= LCH.l (oklch base) <= 1 -> 0 <= LCH.c (oklch base) ->
  let harmony type :=
    Harmonic.generateHarmony base (Harmonic.mkConfig type count spread)
      colorSpace in
  let H := hue_in colorSpace base in
  (map (hue_in colorSpace) (harmony Harmonic.split_complementary)
   = [H; normalizeHue (H + 150); normalizeHue (H + 210)]
   /\ map (hue_in colorSpace) (harmony Harmonic.triadic)
      = [H; normalizeHue (H + 120); normalizeHue (H + 240)]
   /\ map (hue_in colorSpace) (harmony Harmonic.tetradic)
      = [H; normalizeHue (H + 90); normalizeHue (H + 180);
         normalizeHue (H + 270)])
  /\ forall type,
       In type [Harmonic.split_complementary; Harmonic.triadic;
                Harmonic.tetradic] ->
       nth_error (harmony type) 0 = Some base
       /\ Forall (keeps_tone colorSpace base) (harmony type).
Proof.
  intros Hc G Hl Hch harmony H. subst harmony H.
  pose proof (keeps_tone_refl colorSpace base) as K0.
  destruct (created colorSpace base (hue_in colorSpace base + 90) Hc G Hl Hch)
    as (x90 & E90 & H90 & K90).
  destruct (created colorSpace base (hue_in colorSpace base + 120) Hc G Hl Hch)
    as (x120 & E120 & H120 & K120).
  destruct (created colorSpace base (hue_in colorSpace base + 150) Hc G Hl Hch)
    as (x150 & E150 & H150 & K150).
  destruct (created colorSpace base (hue_in colorSpace base + 180) Hc G Hl Hch)
    as (x180 & E180 & H180 & K180).
  destruct (created colorSpace base (hue_in colorSpace base + 210) Hc G Hl Hch)
    as (x210 & E210 & H210 & K210).
  destruct (created colorSpace base (hue_in colorSpace base + 240) Hc G Hl Hch)
    as (x240 & E240 & H240 & K240).
  destruct (created colorSpace base (hue_in colorSpace base + 270) Hc G Hl Hch)
    as (x270 & E270 & H270 & K270).
  unfold Harmonic.generateHarmony.
  cbn [Harmonic.type Harmonic.count Harmonic.spread].
  destruct colorSpace;
    unfold Harmonic.generateHarmonyOklch, Harmonic.generateHarmonyHsl;
    cbn [Harmonic.harmony_results hue_in] in *;
    rewrite E90, E120, E150, E180, E210, E240, E270;
    cbn [Js.filter_non_null map hue_in];
    rewrite H90, H120, H150, H180, H210, H240, H270;
    (split; [repeat split |]);
    intros type [<- | [<- | [<- | []]]];
    cbn [Harmonic.harmony_results];
    rewrite ?E90, ?E120, ?E150, ?E180, ?E210, ?E240, ?E270;
    cbn [Js.filter_non_null nth_error];
    (split; [reflexivity | repeat (apply Forall_cons; [assumption |]); apply Forall_nil]).
Qed.

(** *** The golden angle *)

(** Two hues that normalise to the same hue differ by whole turns. *)
Lemma normalizeHue_eq_turns (a b : R) :
  normalizeHue a = normalizeHue b -> exists k : Z, a - b = 360 * IZR k.
Proof.
  rewrite !normalizeHue_floor. unfold Js.floor. intro E.
  exists (Zfloor (a / 360) - Zfloor (b / 360))%Z. rewrite minus_IZR. lra.
Qed.

(** No multiple of the golden angle below ninety million is a whole
    number of turns. *)
Lemma golden_angle_never_closes (d : nat) (k : Z) :
  (0 < Z.of_nat d < 90000000)%Z ->
  INR d * Harmonic.goldenAngle <> 360 * IZR k.
Proof.
  intros Hd E. unfold Harmonic.goldenAngle in E.
  assert (Ez : (34376941 * Z.of_nat d = 90000000 * k)%Z).
  { apply eq_IZR. rewrite !mult_IZR, <- INR_IZR_INZ. lra. }
  assert (Hdiv : (90000000 | Z.of_nat d)%Z).
  { apply (Z.gauss _ 34376941).
    - exists k. lia.
    - vm_compute. reflexivity. }
  destruct Hdiv as [q Hq]. lia.
Qed.

(** X12.  The golden-ratio harmony never repeats a hue: for a base colour of
    the data model and an integer count of at most ninety million, the hues
    of its colours are all different. *)
Theorem golden_ratio_hues_are_distinct (lib : Library) (base : ColorResult)
    (colorSpace : ColorSpace) (n : nat) (spread : option R) :
  Converts lib -> GamutClamp lib ->
  0 <= LCH.l (oklch base) <= 1 -> 0 <= LCH.c (oklch base) ->
  (Z.of_nat n <= 90000000)%Z ->
  NoDup (map (hue_in colorSpace)
           (Harmonic.generateHarmony base
              (Harmonic.mkConfig Harmonic.golden_ratio (Some (INR n)) spread)
              colorSpace)).
Proof.
  intros Hc G Hl Hch Hn.
  assert (Hout : exists g : nat -> ColorResult,
            Harmonic.generateHarmony base
              (Harmonic.mkConfig Harmonic.golden_ratio (Some (INR n)) spread)
              colorSpace
            = map g (seq 0 n)
            /\ forall p, hue_in colorSpace (g p)
                         = normalizeHue (hue_in colorSpace base
                                         + INR p * Harmonic.goldenAngle)).
  { assert (Hg : forall p, exists x,
              match colorSpace with
              | oklch_space =>
                  fromOklch (LCH.l (oklch base)) (LCH.c (oklch base))
                    (normalizeHue (hue_in colorSpace base
                                   + INR p * Harmonic.goldenAngle))
              | hsl_space =>
                  fromHsl (normalizeHue (hue_in colorSpace base
                                         + INR p * Harmonic.goldenAngle))
                    (HSL.s (hsl base)) (HSL.l (hsl base))
              end = Some x
              /\ hue_in colorSpace x
                 = normalizeHue (hue_in colorSpace base
                                 + INR p * Harmonic.goldenAngle)).
    { intro p.
      destruct (created colorSpace base
                  (hue_in colorSpace base + INR p * Harmonic.goldenAngle)
                  Hc G Hl Hch) as (z & Ez & Hz & _).
      now exists z. }
    exists (fun p => match colorSpace with
                     | oklch_space =>
                         match fromOklch (LCH.l (oklch base)) (LCH.c (oklch base))
                                 (normalizeHue (hue_in colorSpace base
                                                + INR p * Harmonic.goldenAngle))
                         with Some z => z | None => base end
                     | hsl_space =>
                         match fromHsl (normalizeHue (hue_in colorSpace base
                                                + INR p * Harmonic.goldenAngle))
                                 (HSL.s (hsl base)) (HSL.l (hsl base))
                         with Some z => z | None => base end
                     end).
    split.
    - unfold Harmonic.generateHarmony.
      cbn [Harmonic.type Harmonic.count Harmonic.spread Js.nullish].
      destruct colorSpace;
        unfold Harmonic.generateHarmonyOklch, Harmonic.generateHarmonyHsl,
               Harmonic.harmony_results;
        rewrite iterations_INR; apply filter_non_null_map; intros p _;
        destruct (Hg p) as (z & Ez & _); cbn [hue_in] in *; now rewrite Ez.
    - intro p. destruct (Hg p) as (z & Ez & Hz).
      destruct colorSpace; now rewrite Ez. }
  destruct Hout as (g & Eout & Hg). rewrite Eout, map_map.
  apply Finite.Injective_map_NoDup_in; [| apply seq_NoDup].
  intros i j Hi Hj E. apply in_seq in Hi, Hj. rewrite !Hg in E.
  apply normalizeHue_eq_turns in E. destruct E as [k E].
  destruct (Nat.lt_total i j) as [Hlt | [Heq | Hgt]]; [| exact Heq |].
  - exfalso. apply (golden_angle_never_closes (j - i) (- k)); [lia |].
    rewrite minus_INR, opp_IZR by lia. lra.
  - exfalso. apply (golden_angle_never_closes (i - j) k); [lia |].
    rewrite minus_INR by lia. lra.
Qed.


(* ================================================================== *)
(** ** More on the colourful generator *)

Lemma for_push_length {A : Type} (body : nat -> Colorful.Rand (option A)) :
  (forall i s, fst (body i s) <> None) ->
  forall n i s, length (fst (Colorful.for_push body i n s)) = n.
Proof.
  intro Hbody. induction n as [| n IH]; intros i s; [reflexivity |].
  cbn. unfold Colorful.bind, Colorful.ret.
  pose proof (Hbody i s) as Hb.
  destruct (body i s) as [color s1].
  pose proof (IH (S i) s1) as Hrest.
  destruct (Colorful.for_push body (S i) n s1) as [rest s2].
  cbn in *. destruct color as [c |]; [| contradiction].
  cbn. now rewrite Hrest.
Qed.

Section ColorfulMore.
Context {lib : Library}.

(** What [styled] returns: the colour built from the fixed values, or
    from two values drawn in [0, 1). *)
Lemma styled_value (config : Colorful.ColorfulConfig)
    (colorSpace : ColorSpace) (h l0 l1 c0 c1 s0 s1 hl0 hl1 s : R) :
  exists r1 r2 : R,
    0 <= r1 < 1 /\ 0 <= r2 < 1
    /\ fst (Colorful.styled config colorSpace h l0 l1 c0 c1 s0 s1 hl0 hl1 s)
       = match colorSpace with
         | oklch_space =>
             fromOklch
               (Js.nullish (Colorful.fixedLightness config) (l0 + r1 * l1))
               (Js.nullish (Colorful.fixedChroma config) (c0 + r2 * c1)) h
         | hsl_space =>
             fromHsl h
               (Js.nullish (Colorful.fixedSaturation config) (s0 + r1 * s1))
               (Js.nullish (Colorful.fixedLightnessHsl config)
                  (hl0 + r2 * hl1))
         end.
Proof.
  assert (Hfix : forall fixed base scale s0',
            exists r, 0 <= r < 1
              /\ fst (Colorful.fixed_or fixed base scale s0')
                 = Js.nullish fixed (base + r * scale)).
  { intros fixed base scale s0'. unfold Colorful.fixed_or.
    destruct fixed as [v |].
    - exists 0. split; [lra | reflexivity].
    - exists (fst (Colorful.random s0')). split; [apply random_unit |].
      unfold Colorful.bind, Colorful.ret.
      destruct (Colorful.random s0'); reflexivity. }
  unfold Colorful.styled. destruct colorSpace; unfold Colorful.bind, Colorful.ret.
  - destruct (Hfix (Colorful.fixedLightness config) l0 l1 s) as (r1 & B1 & E1).
    destruct (Colorful.fixed_or (Colorful.fixedLightness config) l0 l1 s)
      as [l s'].
    destruct (Hfix (Colorful.fixedChroma config) c0 c1 s') as (r2 & B2 & E2).
    destruct (Colorful.fixed_or (Colorful.fixedChroma config) c0 c1 s')
      as [c s''].
    cbn [fst] in *. subst l c. now exists r1, r2.
  - destruct (Hfix (Colorful.fixedSaturation config) s0 s1 s) as (r1 & B1 & E1).
    destruct (Colorful.fixed_or (Colorful.fixedSaturation config) s0 s1 s)
      as [sat s'].
    destruct (Hfix (Colorful.fixedLightnessHsl config) hl0 hl1 s')
      as (r2 & B2 & E2).
    destruct (Colorful.fixed_or (Colorful.fixedLightnessHsl config) hl0 hl1 s')
      as [l s''].
    cbn [fst] in *. subst sat l. now exists r1, r2.
Qed.

Lemma styled_total (config : Colorful.ColorfulConfig)
    (colorSpace : ColorSpace) (h l0 l1 c0 c1 s0 s1 hl0 hl1 s : R) :
  Converts lib ->
  fst (Colorful.styled config colorSpace h l0 l1 c0 c1 s0 s1 hl0 hl1 s)
  <> None.
Proof.
  intro Hc.
  destruct (styled_value config colorSpace h l0 l1 c0 c1 s0 s1 hl0 hl1 s)
    as (r1 & r2 & _ & _ & ->).
  destruct colorSpace.
  - match goal with
    | |- fromOklch ?l ?c ?hh <> None =>
        destruct (fromOklch_total l c hh Hc) as [x ->]
    end. discriminate.
  - match goal with
    | |- fromHsl ?hh ?ss ?l <> None =>
        destruct (fromHsl_total hh ss l Hc) as [x ->]
    end. discriminate.
Qed.

End ColorfulMore.

(** X13.  Every method returns one colour for every round: with an integer
    count and a library that converts, the palette has [count] colours. *)
Theorem generateColorful_length (lib : Library)
    (config : Colorful.ColorfulConfig) (colorSpace : ColorSpace)
    (now : R) (n : nat) :
  Converts lib -> Colorful.count config = INR n ->
  length (Colorful.generateColorful now config colorSpace) = n.
Proof.
  intros Hc Hn. unfold Colorful.generateColorful. rewrite Hn.
  destruct (Colorful.method config).
  - unfold Colorful.generateHueSweep.
    rewrite iterations_INR, filter_non_null_length, length_seq; [reflexivity |].
    intros i _. destruct colorSpace.
    + match goal with
      | |- fromOklch ?l ?c ?hh <> None =>
          destruct (fromOklch_total l c hh Hc) as [x ->]
      end. discriminate.
    + match goal with
      | |- fromHsl ?hh ?ss ?l <> None =>
          destruct (fromHsl_total hh ss l Hc) as [x ->]
      end. discriminate.
  - unfold Colorful.generateGoldenAngle. unfold Colorful.bind at 1.
    destruct (Colorful.random _) as [r s'].
    rewrite iterations_INR. apply for_push_length.
    intros i s. now apply styled_total.
  - unfold Colorful.generateRandomVibrant. rewrite iterations_INR.
    apply for_push_length. intros i s. unfold Colorful.bind at 1.
    destruct (Colorful.random s) as [r s']. now apply styled_total.
  - unfold Colorful.generateRandomPastel. rewrite iterations_INR.
    apply for_push_length. intros i s. unfold Colorful.bind at 1.
    destruct (Colorful.random s) as [r s']. now apply styled_total.
  - unfold Colorful.generateRandomDark. rewrite iterations_INR.
    apply for_push_length. intros i s. unfold Colorful.bind at 1.
    destruct (Colorful.random s) as [r s']. now apply styled_total.
  - unfold Colorful.generateRandomWarm. rewrite iterations_INR.
    apply for_push_length. intros i s. unfold Colorful.bind at 1.
    destruct (Colorful.random s) as [r s']. unfold Colorful.bind at 1.
    destruct (Rgt_dec r 0.3); unfold Colorful.bind at 1;
      destruct (Colorful.random s') as [r' s'']; now apply styled_total.
  - unfold Colorful.generateRandomCool. rewrite iterations_INR.
    apply for_push_length. intros i s. unfold Colorful.bind at 1.
    destruct (Colorful.random s) as [r s']. now apply styled_total.
  - unfold Colorful.generateEarthTones. rewrite iterations_INR.
    apply for_push_length. intros i s. unfold Colorful.bind at 1.
    destruct (Colorful.random s) as [r s']. now apply styled_total.
  - unfold Colorful.generateNeon. rewrite iterations_INR.
    apply for_push_length. intros i s. unfold Colorful.bind at 1.
    destruct (Colorful.random s) as [r s']. now apply styled_total.
Qed.

(** *** What the rounds build *)

(** One call of [random()] in the goal: name its value and its bounds. *)
Ltac draw :=
  unfold Colorful.bind at 1;
  match goal with
  | |- context [Colorful.random ?s] =>
      let Hr := fresh "Hr" in
      pose proof (random_unit s) as Hr;
      destruct (Colorful.random s) as [? ?]; cbn [fst] in Hr
  end.

(** Reduce a statement about every colour of a palette to a statement
    about the colour that [styled] returns in one round ([sweep] closes the
    case of the hue sweep, which has no random part). *)
Ltac each_round sweep :=
  match goal with
  | |- Forall ?P (Colorful.generateColorful ?now ?config ?colorSpace) =>
      apply Forall_forall; intros x Hin;
      unfold Colorful.generateColorful in Hin;
      remember (Colorful.method config) as method eqn:Emethod in Hin;
      destruct method;
      [ unfold Colorful.generateHueSweep in Hin;
        apply filter_non_null_In in Hin;
        destruct Hin as (i & Hi & Hin);
        rewrite iterations_INR in Hi || idtac;
        sweep
      | unfold Colorful.generateGoldenAngle in Hin;
        unfold Colorful.bind at 1 in Hin;
        destruct (Colorful.random _) as [r0 s0] in Hin;
        refine (for_push_all _ P _ _ _ _ x Hin);
        clear x Hin; intros i s x
      | unfold Colorful.generateRandomVibrant in Hin;
        refine (for_push_all _ P _ _ _ _ x Hin);
        clear x Hin; intros i s x; draw
      | unfold Colorful.generateRandomPastel in Hin;
        refine (for_push_all _ P _ _ _ _ x Hin);
        clear x Hin; intros i s x; draw
      | unfold Colorful.generateRandomDark in Hin;
        refine (for_push_all _ P _ _ _ _ x Hin);
        clear x Hin; intros i s x; draw
      | unfold Colorful.generateRandomWarm in Hin;
        refine (for_push_all _ P _ _ _ _ x Hin);
        clear x Hin; intros i s x; draw;
        unfold Colorful.bind at 1;
        match goal with
        | |- context [Rgt_dec ?a ?b] => destruct (Rgt_dec a b)
        end; draw; unfold Colorful.ret at 1
      | unfold Colorful.generateRandomCool in Hin;
        refine (for_push_all _ P _ _ _ _ x Hin);
        clear x Hin; intros i s x; draw
      | unfold Colorful.generateEarthTones in Hin;
        refine (for_push_all _ P _ _ _ _ x Hin);
        clear x Hin; intros i s x; draw
      | unfold Colorful.generateNeon in Hin;
        refine (for_push_all _ P _ _ _ _ x Hin);
        clear x Hin; intros i s x; draw ]
  end.


(** Name the two values that [styled] drew, in the hypothesis [H] that it
    returned a colour. *)
Ltac styled_values H :=
  match type of H with
  | fst (Colorful.styled ?c ?cs ?h ?l0 ?l1 ?c0 ?c1 ?s0 ?s1 ?hl0 ?hl1 ?s) = _ =>
      let r1 := fresh "r1" in let r2 := fresh "r2" in
      let B1 := fresh "B1" in let B2 := fresh "B2" in
      let E := fresh "E" in
      destruct (styled_value c cs h l0 l1 c0 c1 s0 s1 hl0 hl1 s)
        as (r1 & r2 & B1 & B2 & E);
      rewrite E in H; clear E
  end.

(** X15.  With no lightness and no chroma fixed, every method keeps to its
    band of OKLCH lightness (the dark palette is dark, the pastel one light)
    and under its cap of chroma. *)
Theorem colorful_lightness_bands (lib : Library)
    (config : Colorful.ColorfulConfig) (now : R) :
  GamutClamp lib ->
  Colorful.fixedLightness config = None ->
  Colorful.fixedChroma config = None ->
  Forall (fun x =>
            fst (lightness_band (Colorful.method config))
              <= LCH.l (oklch x)
              <= snd (lightness_band (Colorful.method config))
            /\ 0 <= LCH.c (oklch x) <= chroma_cap (Colorful.method config))
         (Colorful.generateColorful now config oklch_space).
Proof.
  intros G Hl Hc.
  each_round ltac:(idtac).
  1: { rewrite Hl, Hc in Hin. cbn [Js.nullish] in Hin.
       apply fromOklch_clamped in Hin; [| exact G | lra | lra].
       destruct Hin as (El & _ & Ec & _). rewrite <- Emethod, El. cbn. lra. }
  all: intro H; styled_values H; rewrite Hl, Hc in H; cbn [Js.nullish] in H;
    apply fromOklch_clamped in H; [| exact G | lra | lra];
    destruct H as (El & _ & Ec & _); rewrite <- Emethod, El; cbn; lra.
Qed.

(** X16.  The fixed parameters are honoured by every method: a fixed OKLCH
    lightness is the lightness of every colour and a fixed chroma bounds the
    chroma of every colour; a fixed HSL saturation or lightness is that of
    every colour. *)
Theorem colorful_fixed_parameters (lib : Library)
    (config : Colorful.ColorfulConfig) (colorSpace : ColorSpace) (now : R) :
  GamutClamp lib -> fixed_in_range config ->
  Forall (fun x =>
            match colorSpace with
            | oklch_space =>
                (forall v, Colorful.fixedLightness config = Some v ->
                           LCH.l (oklch x) = v)
                /\ (forall v, Colorful.fixedChroma config = Some v ->
                              LCH.c (oklch x) <= v)
            | hsl_space =>
                (forall v, Colorful.fixedSaturation config = Some v ->
                           HSL.s (hsl x) = v)
                /\ (forall v, Colorful.fixedLightnessHsl config = Some v ->
                              HSL.l (hsl x) = v)
            end)
         (Colorful.generateColorful now config colorSpace).
Proof.
  intros G [Hfl Hfc].
  assert (Hbuilt : forall l0 c0 h x,
            0 <= l0 <= 1 -> 0 <= c0 ->
            fromOklch (Js.nullish (Colorful.fixedLightness config) l0)
                      (Js.nullish (Colorful.fixedChroma config) c0) h = Some x ->
            (forall v, Colorful.fixedLightness config = Some v ->
                       LCH.l (oklch x) = v)
            /\ (forall v, Colorful.fixedChroma config = Some v ->
                          LCH.c (oklch x) <= v)).
  { intros l0 c0 h x Bl Bc H.
    assert (Bl' : 0 <= Js.nullish (Colorful.fixedLightness config) l0 <= 1).
    { destruct (Colorful.fixedLightness config) as [v |]; cbn;
        [now apply Hfl | exact Bl]. }
    assert (Bc' : 0 <= Js.nullish (Colorful.fixedChroma config) c0).
    { destruct (Colorful.fixedChroma config) as [v |]; cbn;
        [now apply Hfc | exact Bc]. }
    destruct (fromOklch_clamped _ _ _ _ G Bl' Bc' H) as (El & _ & Ec & _).
    split; intros v Ev; rewrite Ev in *; cbn in *; lra. }
  assert (Hbuilt' : forall s0 l0 h x,
            fromHsl h (Js.nullish (Colorful.fixedSaturation config) s0)
                    (Js.nullish (Colorful.fixedLightnessHsl config) l0)
            = Some x ->
            (forall v, Colorful.fixedSaturation config = Some v ->
                       HSL.s (hsl x) = v)
            /\ (forall v, Colorful.fixedLightnessHsl config = Some v ->
                          HSL.l (hsl x) = v)).
  { intros s0 l0 h x H. rewrite (fromHsl_hsl _ _ _ _ H).
    split; intros v Ev; rewrite Ev; reflexivity. }
  each_round ltac:(idtac).
  1: { destruct colorSpace;
         [ apply Hbuilt in Hin; [exact Hin | lra | lra]
         | apply Hbuilt' in Hin; exact Hin ]. }
  all: intro H; styled_values H;
    (destruct colorSpace;
     [ apply Hbuilt in H; [exact H | lra | lra]
     | apply Hbuilt' in H; exact H ]).
Qed.

(** X17.  The hue sweep uses neither the seed nor the clock.  For an integer
    count n >= 1 the hue at position [i] is [normalizeHue(i * (360 / n))],
    a hue of [0, 360); no two of the n hues are equal, and the palette is
    the same whatever the seed and the clock. *)
Theorem hue_sweep_is_evenly_spaced (lib : Library) (n : nat)
    (seed seed' fl fc fs fh : option R) (now now' : R)
    (colorSpace : ColorSpace) :
  Converts lib -> GamutClamp lib ->
  (forall v, fl = Some v -> 0 <= v <= 1) ->
  (forall v, fc = Some v -> 0 <= v) ->
  (1 <= n)%nat ->
  let palette seed now :=
    Colorful.generateColorful now
      (Colorful.mkConfig Colorful.hue_sweep (INR n) seed fl fc fs fh)
      colorSpace in
  let hues := map (hue_in colorSpace) (palette seed now) in
  hues = map (fun i => normalizeHue (INR i * (360 / INR n))) (seq 0 n)
  /\ Forall (fun h => 0 <= h < 360) hues
  /\ NoDup hues
  /\ palette seed' now' = palette seed now.
Proof.
  intros Hc G Hfl Hfc Hn palette hues.
  assert (Hn0 : 0 < INR n) by (apply lt_0_INR; lia).
  assert (E : hues
              = map (fun i => normalizeHue (INR i * (360 / INR n))) (seq 0 n)).
  { subst hues palette.
    unfold Colorful.generateColorful, Colorful.generateHueSweep.
    cbn [Colorful.method Colorful.count Colorful.fixedLightness
         Colorful.fixedChroma Colorful.fixedSaturation
         Colorful.fixedLightnessHsl].
    rewrite iterations_INR.
    assert (Bl : 0 <= Js.nullish fl 0.65 <= 1).
    { destruct fl as [v |]; cbn; [now apply Hfl | lra]. }
    assert (Bc : 0 <= Js.nullish fc 0.18).
    { destruct fc as [v |]; cbn; [now apply Hfc | lra]. }
    destruct colorSpace.
    - rewrite (filter_non_null_map _
                 (fun i => match fromOklch (Js.nullish fl 0.65) (Js.nullish fc 0.18)
                                   (normalizeHue (INR i * (360 / INR n)))
                           with Some x => x | None => Sample.color_of_lch 0 0 0 end)).
      + rewrite map_map. apply map_ext_in. intros i Hi. cbn [hue_in].
        destruct (fromOklch_total (Js.nullish fl 0.65) (Js.nullish fc 0.18)
                    (normalizeHue (INR i * (360 / INR n))) Hc) as [x Hx].
        rewrite Hx.
        now destruct (fromOklch_clamped _ _ _ _ G Bl Bc Hx) as (_ & -> & _).
      + intros i _.
        destruct (fromOklch_total (Js.nullish fl 0.65) (Js.nullish fc 0.18)
                    (normalizeHue (INR i * (360 / INR n))) Hc) as [x Hx].
        now rewrite Hx.
    - rewrite (filter_non_null_map _
                 (fun i => match fromHsl (normalizeHue (INR i * (360 / INR n)))
                                   (Js.nullish fs 75) (Js.nullish fh 55)
                           with Some x => x | None => Sample.color_of_lch 0 0 0 end)).
      + rewrite map_map. apply map_ext_in. intros i Hi. cbn [hue_in].
        destruct (fromHsl_total (normalizeHue (INR i * (360 / INR n)))
                    (Js.nullish fs 75) (Js.nullish fh 55) Hc) as [x Hx].
        rewrite Hx. rewrite (fromHsl_hsl _ _ _ _ Hx). reflexivity.
      + intros i _.
        destruct (fromHsl_total (normalizeHue (INR i * (360 / INR n)))
                    (Js.nullish fs 75) (Js.nullish fh 55) Hc) as [x Hx].
        now rewrite Hx. }
  split; [exact E |]. rewrite E. split; [| split; [| reflexivity]].
  - apply Forall_forall. intros h Hh. apply in_map_iff in Hh.
    destruct Hh as (i & <- & _). apply normalizeHue_range.
  - apply Finite.Injective_map_NoDup_in; [| apply seq_NoDup].
    intros i j Hi Hj Eij. apply in_seq in Hi, Hj.
    apply normalizeHue_eq_turns in Eij. destruct Eij as [k Ek'].
    assert (Ek : INR i - INR j = INR n * IZR k).
    { apply (Rmult_eq_reg_l (360 / INR n)).
      - rewrite Rmult_minus_distr_l.
        replace (360 / INR n * (INR n * IZR k)) with (360 * IZR k)
          by (field; lra).
        lra.
      - apply Rmult_integral_contrapositive_currified; [lra |].
        apply Rinv_neq_0_compat. lra. }
    rewrite !INR_IZR_INZ, <- minus_IZR, <- mult_IZR in Ek.
    apply eq_IZR in Ek.
    destruct (Z.lt_trichotomy k 0) as [Hk | [Hk | Hk]]; nia.
Qed.


(* ================================================================== *)
(** ** More on contrast *)

Lemma pow_positive (x y : R) : 0 < x -> Js.pow x y = Rpower x y.
Proof.
  intro H. unfold Js.pow. destruct (Rlt_dec 0 x); [reflexivity | contradiction].
Qed.

Lemma pow_nonneg (x y : R) : 0 <= x -> 0 < y -> 0 <= Js.pow x y.
Proof.
  intros Hx Hy. destruct (Req_dec_T x 0) as [-> | Hne].
  - rewrite pow_zero by exact Hy. lra.
  - rewrite pow_positive by lra. left. apply exp_pos.
Qed.

(** A positive power grows with its base. *)
Lemma pow_base_le (a b y : R) :
  0 <= a <= b -> 0 < y -> Js.pow a y <= Js.pow b y.
Proof.
  intros [Ha Hab] Hy. destruct (Req_dec_T a 0) as [-> | Hne].
  - rewrite pow_zero by exact Hy. apply pow_nonneg; lra.
  - rewrite !pow_positive by lra. apply Rle_Rpower_l; lra.
Qed.

(** Below 1 a power shrinks as the exponent grows. *)
Lemma Rpower_exponent_ge (x y z : R) :
  0 < x <= 1 -> y <= z -> Rpower x z <= Rpower x y.
Proof.
  intros [Hx Hx1] Hyz. unfold Rpower.
  assert (Hln : ln x <= 0).
  { rewrite <- ln_1. destruct (Req_dec_T x 1) as [-> | Hne]; [lra |].
    left. apply ln_increasing; lra. }
  destruct (Req_dec_T (z * ln x) (y * ln x)) as [-> | Hne]; [lra |].
  left. apply exp_increasing. nra.
Qed.

Lemma Rpower_le_one (x y : R) : 0 < x <= 1 -> 0 <= y -> Rpower x y <= 1.
Proof.
  intros Hx Hy. rewrite <- (Rpower_O x) by lra.
  now apply Rpower_exponent_ge.
Qed.

(** The two powers of the reverse polarity are close together on (0, 1):
    [y^0.62 - y^0.65 <= 0.08192]. *)
Lemma reverse_powers_close (y : R) :
  0 < y < 1 -> 0 <= Rpower y 0.62 - Rpower y 0.65 <= 0.08192.
Proof.
  intro Hy.
  set (w := Rpower y 0.155). set (u := Rpower y 0.03).
  assert (Hw : 0 < w <= 1).
  { split; [apply exp_pos | apply Rpower_le_one; lra]. }
  assert (Hu : w <= u <= 1).
  { split; [apply Rpower_exponent_ge; lra | apply Rpower_le_one; lra]. }
  assert (E62 : Rpower y 0.62 = w * w * w * w).
  { replace 0.62 with (0.155 + 0.155 + 0.155 + 0.155) by lra.
    now rewrite !Rpower_plus. }
  assert (E65 : Rpower y 0.65 = w * w * w * w * u).
  { replace 0.65 with (0.62 + 0.03) by lra.
    now rewrite Rpower_plus, E62. }
  rewrite E62, E65.
  assert (Hp : 0 <= w * w * w * w) by (repeat apply Rmult_le_pos; lra).
  split; [nra |].
  assert (Hq : w * w * w * w * (1 - u) <= w * w * w * w * (1 - w)).
  { apply Rmult_le_compat_l; lra. }
  assert (Hpoly : 0 <= (w - 4 / 5) * (w - 4 / 5)
                       * (w * w * w + 3 / 5 * (w * w) + 8 / 25 * w + 16 / 125)).
  { apply Rmult_le_pos; [apply (Rle_0_sqr (w - 4 / 5)) |].
    assert (0 <= w * w * w) by (repeat apply Rmult_le_pos; lra).
    assert (0 <= w * w) by (apply Rmult_le_pos; lra).
    lra. }
  assert (Eq : (w - 4 / 5) * (w - 4 / 5)
               * (w * w * w + 3 / 5 * (w * w) + 8 / 25 * w + 16 / 125)
               = w * w * w * w * w - w * w * w * w + 256 / 3125) by field.
  lra.
Qed.

(** The contrast of a luminance with itself. *)
Lemma apca_same (y : R) : Contrast.APCAcontrast y y = 0.
Proof.
  unfold Contrast.APCAcontrast.
  destruct (Rgt_dec (Rmax 0 y) (Rmax 0 y)) as [H | _]; [lra |].
  assert (Hs : -0.1 < (Js.pow (Rmax 0 y) 0.65 - Js.pow (Rmax 0 y) 0.62) * 1.14).
  { destruct (Rle_lt_dec y 0) as [H0 | H0].
    - rewrite Rmax_left by lra. rewrite !pow_zero by lra. lra.
    - rewrite Rmax_right by lra. rewrite !pow_positive by lra.
      destruct (Rle_lt_dec 1 y) as [H1 | H1].
      + pose proof (Rle_Rpower y 0.62 0.65 H1 ltac:(lra)). lra.
      + pose proof (reverse_powers_close y ltac:(lra)). lra. }
  destruct (Rgt_dec _ _) as [_ | H]; [reflexivity | lra].
Qed.

(** X18.  The sign of the contrast tells the polarity, and small contrasts
    are cut to zero: a background lighter than the text gives 0 or at least
    0.073, any other background gives 0 or at most -0.073; a luminance
    against itself gives 0, so a colour has no contrast with itself. *)
Theorem APCAcontrast_polarity (txtY bgY : R) :
  (Rmax 0 bgY > Rmax 0 txtY ->
     Contrast.APCAcontrast txtY bgY = 0
     \/ 0.073 <= Contrast.APCAcontrast txtY bgY)
  /\ (Rmax 0 bgY <= Rmax 0 txtY ->
        Contrast.APCAcontrast txtY bgY = 0
        \/ Contrast.APCAcontrast txtY bgY <= -0.073)
  /\ Contrast.APCAcontrast txtY txtY = 0
  /\ (forall color, Contrast.getAPCAContrast color color = 0).
Proof.
  split; [| split; [| split]].
  - intro H. unfold Contrast.APCAcontrast.
    destruct (Rgt_dec (Rmax 0 bgY) (Rmax 0 txtY)) as [_ | N]; [| lra].
    destruct (Rlt_dec _ _); [now left | right; lra].
  - intro H. unfold Contrast.APCAcontrast.
    destruct (Rgt_dec (Rmax 0 bgY) (Rmax 0 txtY)) as [N | _]; [lra |].
    destruct (Rgt_dec _ _); [now left | right; lra].
  - apply apca_same.
  - intro color. unfold Contrast.getAPCAContrast. rewrite apca_same. lra.
Qed.

(** *** The WCAG ratio *)

Lemma linearize_range (c : R) :
  0 <= c <= 255 -> 0 <= Wcag.linearize c <= 1.
Proof.
  intro Hc. unfold Wcag.linearize.
  assert (Hs : 0 <= c / 255 <= 1) by lra.
  destruct (Rle_dec (c / 255) 0.03928) as [Hlow | Hhigh]; [lra |].
  assert (Hb : 0 < (c / 255 + 0.055) / 1.055 <= 1) by lra.
  rewrite pow_positive by lra.
  split; [left; apply exp_pos | apply Rpower_le_one; lra].
Qed.

Lemma luminance_range (r g b : R) :
  0 <= r <= 255 -> 0 <= g <= 255 -> 0 <= b <= 255 ->
  0 <= Wcag.getRelativeLuminance r g b <= 1.
Proof.
  intros Hr Hg Hb. unfold Wcag.getRelativeLuminance.
  pose proof (linearize_range r Hr). pose proof (linearize_range g Hg).
  pose proof (linearize_range b Hb). lra.
Qed.

Lemma luminance_black : Wcag.getRelativeLuminance 0 0 0 = 0.
Proof.
  unfold Wcag.getRelativeLuminance, Wcag.linearize.
  destruct (Rle_dec (0 / 255) 0.03928) as [_ | H]; [| lra].
  unfold Rdiv. rewrite !Rmult_0_l. lra.
Qed.

Lemma luminance_white : Wcag.getRelativeLuminance 255 255 255 = 1.
Proof.
  unfold Wcag.getRelativeLuminance, Wcag.linearize.
  destruct (Rle_dec (255 / 255) 0.03928) as [H | _]; [lra |].
  replace ((255 / 255 + 0.055) / 1.055) with 1 by lra.
  rewrite pow_one. lra.
Qed.

(** X19.  The WCAG ratio of two colours whose channels lie in [0, 255] is
    the same in either order and lies between 1 and 21; it is 1 for a colour
    against itself and 21 for black against white. *)
Theorem getWCAGContrast_range (color1 color2 : ColorResult) :
  in_srgb color1 -> in_srgb color2 ->
  1 <= Wcag.getWCAGContrast color1 color2 <= 21
  /\ Wcag.getWCAGContrast color1 color2 = Wcag.getWCAGContrast color2 color1
  /\ Wcag.getWCAGContrast color1 color1 = 1
  /\ (rgb color1 = RGB.mk 0 0 0 -> rgb color2 = RGB.mk 255 255 255 ->
      Wcag.getWCAGContrast color1 color2 = 21).
Proof.
  intros (R1 & G1 & B1) (R2 & G2 & B2).
  pose proof (luminance_range _ _ _ R1 G1 B1) as L1.
  pose proof (luminance_range _ _ _ R2 G2 B2) as L2.
  unfold Wcag.getWCAGContrast.
  set (l1 := Wcag.getRelativeLuminance (RGB.r (rgb color1)) _ _) in *.
  set (l2 := Wcag.getRelativeLuminance (RGB.r (rgb color2)) _ _) in *.
  split; [| split; [| split]].
  - assert (Hd : 0.05 <= Rmin l1 l2 + 0.05).
    { unfold Rmin. destruct (Rle_dec l1 l2); lra. }
    assert (Hm : Rmin l1 l2 <= Rmax l1 l2 <= 1).
    { unfold Rmin, Rmax. destruct (Rle_dec l1 l2); lra. }
    split.
    + apply (Rmult_le_reg_r (Rmin l1 l2 + 0.05)); [lra |].
      replace ((Rmax l1 l2 + 0.05) / (Rmin l1 l2 + 0.05) * (Rmin l1 l2 + 0.05))
        with (Rmax l1 l2 + 0.05) by (field; lra).
      lra.
    + apply (Rmult_le_reg_r (Rmin l1 l2 + 0.05)); [lra |].
      replace ((Rmax l1 l2 + 0.05) / (Rmin l1 l2 + 0.05) * (Rmin l1 l2 + 0.05))
        with (Rmax l1 l2 + 0.05) by (field; lra).
      lra.
  - now rewrite (Rmax_comm l1 l2), (Rmin_comm l1 l2).
  - unfold Rmax, Rmin. destruct (Rle_dec l1 l1); field; lra.
  - intros E1 E2. subst l1 l2. rewrite E1, E2. cbn [RGB.r RGB.g RGB.b].
    rewrite luminance_black, luminance_white.
    rewrite Rmax_right, Rmin_left by lra. lra.
Qed.

(** *** The text colour on darker backgrounds *)

Lemma Y_range (x : RGB.t) :
  0 <= RGB.r x <= 255 -> 0 <= RGB.g x <= 255 -> 0 <= RGB.b x <= 255 ->
  0 <= Contrast.sRGBtoY x <= 1.0000001.
Proof.
  intros Hr Hg Hb. unfold Contrast.sRGBtoY.
  assert (Hp : forall c, 0 <= c <= 255 -> 0 <= Js.pow (c / 255) 2.4 <= 1).
  { intros c Hc. split; [apply pow_nonneg; lra |].
    rewrite <- (pow_one 2.4). apply pow_base_le; lra. }
  pose proof (Hp _ Hr). pose proof (Hp _ Hg). pose proof (Hp _ Hb). lra.
Qed.

Lemma Y_monotone (x y : RGB.t) :
  0 <= RGB.r x <= RGB.r y -> 0 <= RGB.g x <= RGB.g y ->
  0 <= RGB.b x <= RGB.b y ->
  Contrast.sRGBtoY x <= Contrast.sRGBtoY y.
Proof.
  intros Hr Hg Hb. unfold Contrast.sRGBtoY.
  assert (Hp : forall a b, 0 <= a <= b ->
            Js.pow (a / 255) 2.4 <= Js.pow (b / 255) 2.4).
  { intros a b Hab. apply pow_base_le; lra. }
  pose proof (Hp _ _ Hr). pose proof (Hp _ _ Hg). pose proof (Hp _ _ Hb). lra.
Qed.

(** The contrast of white text falls as the background gets lighter. *)
Lemma white_contrast_decreases (y1 y2 : R) :
  0 <= y1 <= y2 -> y2 <= 1.0000001 ->
  Rabs (Contrast.APCAcontrast 1.0000001 y2)
  <= Rabs (Contrast.APCAcontrast 1.0000001 y1).
Proof.
  intros H12 H2. unfold Contrast.APCAcontrast. cbv zeta.
  rewrite (Rmax_right 0 1.0000001), (Rmax_right 0 y1), (Rmax_right 0 y2) by lra.
  destruct (Rgt_dec y2 1.0000001) as [H | _]; [lra |].
  destruct (Rgt_dec y1 1.0000001) as [H | _]; [lra |].
  pose proof (pow_base_le y1 y2 0.65 H12 ltac:(lra)) as Hp.
  set (A := Js.pow 1.0000001 0.62) in *.
  set (p1 := Js.pow y1 0.65) in *. set (p2 := Js.pow y2 0.65) in *.
  destruct (Rgt_dec ((p2 - A) * 1.14) _) as [G2 | G2].
  - rewrite Rabs_R0. apply Rabs_pos.
  - destruct (Rgt_dec ((p1 - A) * 1.14) _) as [G1 | G1]; [lra |].
    rewrite !Rabs_left by lra. lra.
Qed.

(** The contrast of black text rises as the background gets lighter. *)
Lemma black_contrast_increases (y1 y2 : R) :
  0 <= y1 <= y2 ->
  Rabs (Contrast.APCAcontrast 0 y1) <= Rabs (Contrast.APCAcontrast 0 y2).
Proof.
  intros H12. unfold Contrast.APCAcontrast. cbv zeta.
  rewrite (Rmax_left 0 0), (Rmax_right 0 y1), (Rmax_right 0 y2) by lra.
  rewrite !(pow_zero 0.57), !(pow_zero 0.62) by lra.
  pose proof (pow_base_le y1 y2 0.56 H12 ltac:(lra)) as Hp.
  pose proof (pow_nonneg y1 0.65 ltac:(lra) ltac:(lra)) as Hn.
  set (p1 := Js.pow y1 0.56) in *. set (p2 := Js.pow y2 0.56) in *.
  set (q1 := Js.pow y1 0.65) in *. set (q2 := Js.pow y2 0.65) in *.
  destruct (Rgt_dec y1 0) as [P1 | Z1].
  - destruct (Rgt_dec y2 0) as [_ | ?]; [| lra].
    destruct (Rlt_dec ((p1 - 0) * 1.14) 0.1) as [L1 | L1].
    + rewrite Rabs_R0. apply Rabs_pos.
    + destruct (Rlt_dec ((p2 - 0) * 1.14) 0.1) as [L2 | L2]; [lra |].
      rewrite !Rabs_right by lra. lra.
  - assert (y1 = 0) by lra. subst y1. subst q1.
    rewrite (pow_zero 0.65) by lra.
    destruct (Rgt_dec ((0 - 0) * 1.14) _) as [_ | ?]; [| lra].
    rewrite Rabs_R0. apply Rabs_pos.
Qed.

(** X20.  The text colour follows the darkness of the background: when the
    library parses white and black as they are, white text chosen on a
    background is also chosen on every background that is no lighter in any
    channel.  The fast variant does the same along the stored OKLCH
    lightness. *)
Theorem getContrastTextColor_keeps_white_on_darker (lib : Library)
    (white black bg1 bg2 : ColorResult) :
  parseColor "#FFFFFF" = Some white -> rgb white = RGB.mk 255 255 255 ->
  parseColor "#000000" = Some black -> rgb black = RGB.mk 0 0 0 ->
  in_srgb bg1 -> in_srgb bg2 -> no_lighter bg1 bg2 ->
  (Contrast.getContrastTextColor (inl bg2) = Some "#FFFFFF"%string ->
   Contrast.getContrastTextColor (inl bg1) = Some "#FFFFFF"%string)
  /\ (LCH.l (oklch bg1) <= LCH.l (oklch bg2) ->
      Wcag.getContrastTextColorFast (inl bg2) = "#FFFFFF"%string ->
      Wcag.getContrastTextColorFast (inl bg1) = "#FFFFFF"%string).
Proof.
  intros Pw Ew Pk Ek (R1 & G1 & B1) (R2 & G2 & B2) (Lr & Lg & Lb). split.
  - unfold Contrast.getContrastTextColor. rewrite Pw, Pk.
    unfold Contrast.getAPCAContrast. rewrite Ew, Ek, Y_of_white, Y_of_black.
    pose proof (Y_range (rgb bg1) R1 G1 B1) as Y1.
    pose proof (Y_range (rgb bg2) R2 G2 B2) as Y2.
    pose proof (Y_monotone (rgb bg1) (rgb bg2) ltac:(lra) ltac:(lra) ltac:(lra))
      as Y12.
    pose proof (white_contrast_decreases _ _ (conj (proj1 Y1) Y12) (proj2 Y2))
      as Hw.
    pose proof (black_contrast_increases _ _ (conj (proj1 Y1) Y12)) as Hb.
    rewrite !(Rabs_mult _ 100), (Rabs_right 100) by lra.
    destruct (Rgt_dec _ _) as [H2 | H2]; [| discriminate].
    intros _. destruct (Rgt_dec _ _) as [H1 | H1]; [reflexivity | lra].
  - intro Hl. unfold Wcag.getContrastTextColorFast.
    destruct (Rlt_dec (LCH.l (oklch bg2)) 0.6) as [H2 | H2]; [| discriminate].
    intros _. destruct (Rlt_dec (LCH.l (oklch bg1)) 0.6) as [H1 | H1];
      [reflexivity | lra].
Qed.


(* ================================================================== *)
(** ** More on the colours of an image *)

(** *** Sampling *)

Lemma flat_map_at_most_one {A B : Type} (f : A -> list B) (xs : list A) :
  (forall a, (length (f a) <= 1)%nat) ->
  (length (flat_map f xs) <= length xs)%nat.
Proof.
  intro H. induction xs as [| a xs IH]; cbn; [lia |].
  rewrite length_app. pose proof (H a). lia.
Qed.

Lemma map_nth_seq {A : Type} (xs : list A) (d : A) :
  map (fun j => nth j xs d) (seq 0 (length xs)) = xs.
Proof.
  apply (nth_ext _ _ d d).
  - now rewrite length_map, length_seq.
  - intros i Hi. rewrite length_map, length_seq in Hi.
    rewrite (nth_indep _ d (nth 0 xs d))
      by (rewrite length_map, length_seq; exact Hi).
    rewrite (map_nth (fun j => nth j xs d)), seq_nth by exact Hi.
    reflexivity.
Qed.

(** The pixels that are read: fewer than twenty thousand, each of them a
    pixel of the image; all of them when the image has fewer than twenty
    thousand. *)
Lemma visited_pixels (data : list RGBA) :
  let n := length data in
  let sampleRate := Nat.max 1 (Z.to_nat (Z.of_nat n / 10000)) in
  let visited :=
    map (fun j => nth (j * sampleRate) data (mkRGBA 0 0 0 0))
        (seq 0 ((n + sampleRate - 1) / sampleRate)) in
  (Z.of_nat (length visited) <= 19999)%Z
  /\ (forall px, In px visited -> In px data)
  /\ ((Z.of_nat n < 20000)%Z -> visited = data).
Proof.
  intros n sampleRate visited.
  assert (Hrate : (1 <= sampleRate)%nat) by (subst sampleRate; lia).
  set (m := ((n + sampleRate - 1) / sampleRate)%nat) in *.
  assert (Hm : (m * sampleRate <= n + sampleRate - 1)%nat).
  { subst m. rewrite Nat.mul_comm. apply Nat.Div0.mul_div_le. }
  assert (Hm' : (n + sampleRate - 1 < (m + 1) * sampleRate)%nat).
  { subst m.
    pose proof (Nat.div_mod_eq (n + sampleRate - 1) sampleRate) as E.
    pose proof (Nat.mod_upper_bound (n + sampleRate - 1) sampleRate
                  ltac:(lia)) as U.
    nia. }
  assert (Hq : (Z.of_nat n / 10000 * 10000 <= Z.of_nat n
                < (Z.of_nat n / 10000 + 1) * 10000)%Z).
  { pose proof (Z.div_mod (Z.of_nat n) 10000 ltac:(lia)) as E.
    pose proof (Z.mod_pos_bound (Z.of_nat n) 10000 ltac:(lia)) as U.
    lia. }
  assert (Hq0 : (0 <= Z.of_nat n / 10000)%Z) by (apply Z.div_pos; lia).
  split; [| split].
  - subst visited. rewrite length_map, length_seq.
    destruct (Z.le_gt_cases 2 (Z.of_nat n / 10000)) as [Hbig | Hsmall].
    + assert (Er : Z.of_nat sampleRate = (Z.of_nat n / 10000)%Z).
      { subst sampleRate. lia. }
      nia.
    + assert (Er : sampleRate = 1%nat) by (subst sampleRate; lia).
      rewrite Er in *. nia.
  - intros px Hin. subst visited. apply in_map_iff in Hin.
    destruct Hin as (j & <- & Hj). apply in_seq in Hj.
    apply nth_In. fold n. nia.
  - intro Hn.
    assert (Er : sampleRate = 1%nat) by (subst sampleRate; lia).
    subst visited m. rewrite Er.
    replace ((n + 1 - 1) / 1)%nat with n
      by (rewrite Nat.div_1_r; lia).
    transitivity (map (fun j => nth j data (mkRGBA 0 0 0 0)) (seq 0 n)).
    + apply map_ext. intro j. f_equal. lia.
    + apply map_nth_seq.
Qed.

(** A pixel that is kept is an opaque pixel of the image. *)
Lemma getPixelsFromImageData_keeps_members (data : list RGBA) (p : RGB.t) :
  In p (getPixelsFromImageData data) ->
  exists px, In px data /\ (128 <= alpha px)%Z.
Proof.
  destruct (visited_pixels data) as (_ & Hin & _).
  unfold getPixelsFromImageData. cbv zeta in *.
  intro Hp. apply in_flat_map in Hp. destruct Hp as (px & Hpx & Hp).
  exists px. split; [now apply Hin |].
  destruct (Z.ltb_spec (alpha px) 128) as [Ha | Ha]; [contradiction | exact Ha].
Qed.

(** X21.  What [getPixelsFromImageData] keeps.  It returns at most 19999
    pixels, however large the image; each of them is a pixel of the image
    that is opaque (alpha >= 128) and neither nearly white nor nearly black
    (mean of the channels within [5, 250]); and on an image of fewer than
    twenty thousand pixels it returns every such pixel. *)
Theorem getPixelsFromImageData_keeps (data : list RGBA) :
  let kept px p :=
    p = RGB.mk (IZR (red px)) (IZR (green px)) (IZR (blue px))
    /\ (128 <= alpha px)%Z
    /\ 5 <= (IZR (red px) + IZR (green px) + IZR (blue px)) / 3 <= 250 in
  (Z.of_nat (length (getPixelsFromImageData data)) <= 19999)%Z
  /\ (forall p, In p (getPixelsFromImageData data) ->
        exists px, In px data /\ kept px p)
  /\ ((Z.of_nat (length data) < 20000)%Z ->
      forall px p, In px data -> kept px p ->
        In p (getPixelsFromImageData data)).
Proof.
  intro kept. destruct (visited_pixels data) as (Hlen & Hin & Hall).
  unfold getPixelsFromImageData. cbv zeta in *.
  set (visited := map _ (seq 0 _)) in *.
  set (keep := fun px : RGBA => _).
  assert (Hkeep : forall px p, In p (keep px) <-> kept px p).
  { intros px p. subst keep kept. cbv beta.
    destruct (Z.ltb_spec (alpha px) 128) as [Ha | Ha].
    - split; [intros [] | intros (_ & H & _); lia].
    - destruct (Rgt_dec _ 250) as [Hb | Hb].
      + split; [intros [] | intros (_ & _ & H); lra].
      + destruct (Rlt_dec _ 5) as [Hd | Hd].
        * split; [intros [] | intros (_ & _ & H); lra].
        * split.
          -- intros [<- | []]. repeat split; try lra. exact Ha.
          -- intros (-> & _). now left. }
  split; [| split].
  - pose proof (flat_map_at_most_one keep visited) as H.
    assert (forall a, (length (keep a) <= 1)%nat).
    { intro px. subst keep. cbv beta.
      destruct (alpha px <? 128)%Z; [cbn; lia |].
      destruct (Rgt_dec _ _); [cbn; lia |].
      destruct (Rlt_dec _ _); cbn; lia. }
    specialize (H H0). lia.
  - intros p Hp. apply in_flat_map in Hp. destruct Hp as (px & Hpx & Hp).
    exists px. split; [now apply Hin | now apply Hkeep].
  - intros Hn px p Hpx Hk. rewrite (Hall Hn).
    apply in_flat_map. exists px. split; [exact Hpx | now apply Hkeep].
Qed.

(** *** The shape of a clustering *)

Lemma pick_shape (pixels : list RGB.t) (distances : list R) (random : R)
    (centroids : list RGB.t) :
  pick pixels distances random centroids = centroids
  \/ exists p, In p pixels
               /\ pick pixels distances random centroids = centroids ++ [p].
Proof.
  revert distances random.
  induction pixels as [| p ps IH]; intros distances random; cbn [pick].
  - now left.
  - destruct distances as [| d ds]; [now left |].
    destruct (Rle_dec (random - d) 0).
    + right. exists p. split; [now left | reflexivity].
    + destruct (IH ds (random - d)) as [E | (q & Hq & E)]; [now left |].
      right. exists q. split; [now right | exact E].
Qed.

Section Invariant.
Variable P : RGB.t -> Prop.
Hypothesis mean_closed :
  forall cluster, cluster <> [] -> Forall P cluster -> P (mean cluster).

(** Seeding returns [k] centroids, each of them one it was given or a
    pixel, after one call of [Math.random()] for every centroid it
    adds. *)
Lemma seed_centroids_shape (fuel : nat) (pixels : list RGB.t) (k : Z)
    (centroids : list RGB.t) (rnd : nat -> R) (calls : nat) :
  unit_stream rnd -> pixels <> [] -> centroids <> [] ->
  Forall P pixels -> Forall P centroids ->
  (Z.of_nat (length centroids) <= k)%Z ->
  (Z.to_nat k - length centroids <= fuel)%nat ->
  exists centroids',
    seed_centroids fuel pixels k centroids rnd calls
    = Returns centroids' (calls + (Z.to_nat k - length centroids))
    /\ length centroids' = Z.to_nat k
    /\ Forall P centroids'.
Proof.
  intros Hrnd Hpx Hne HP HPc Hle Hfuel.
  revert centroids calls Hne HPc Hle Hfuel.
  induction fuel as [| fuel IH]; intros centroids calls Hne HPc Hle Hfuel;
    cbn [seed_centroids];
    destruct (Z.ltb_spec (Z.of_nat (length centroids)) k) as [Hlt | Hge].
  - lia.
  - exists centroids. replace (Z.to_nat k - length centroids)%nat with 0%nat by lia.
    rewrite Nat.add_0_r. repeat split; [lia | exact HPc].
  - unfold gbind, Math_random.
    set (distances := distances_to pixels centroids).
    set (random := rnd calls * fold_left Rplus distances 0).
    assert (Hlen : length (pick pixels distances random centroids)
                   = S (length centroids)).
    { apply pick_adds; [| exact Hpx |].
      - subst distances. unfold distances_to. now rewrite length_map.
      - subst random.
        pose proof (fold_left_Rplus_nonneg distances
                      (distances_to_nonneg pixels centroids)) as Hs.
        pose proof (Hrnd calls). nra. }
    assert (HPp : Forall P (pick pixels distances random centroids)).
    { destruct (pick_shape pixels distances random centroids)
        as [-> | (p & Hp & ->)]; [exact HPc |].
      apply Forall_app. split; [exact HPc |].
      constructor; [| constructor].
      rewrite Forall_forall in HP. now apply HP. }
    destruct (IH (pick pixels distances random centroids) (S calls))
      as (cs & E & Hl & Hcs).
    + intro E. rewrite E in Hlen. discriminate.
    + exact HPp.
    + rewrite Hlen. lia.
    + rewrite Hlen. lia.
    + exists cs. rewrite E, Hlen. repeat split; try assumption.
      f_equal. lia.
  - exists centroids. replace (Z.to_nat k - length centroids)%nat with 0%nat by lia.
    rewrite Nat.add_0_r. repeat split; [lia | exact HPc].
Qed.

Lemma push_at_forall (clusters : list (list RGB.t)) (minIdx : nat)
    (pixel : RGB.t) (clusters' : list (list RGB.t)) :
  push_at clusters minIdx pixel = Some clusters' ->
  Forall (Forall P) clusters -> P pixel -> Forall (Forall P) clusters'.
Proof.
  revert minIdx clusters'.
  induction clusters as [| cl rest IH]; intros minIdx clusters' E Hall Hp;
    cbn in E; [discriminate |].
  inversion Hall as [| ? ? Hcl Hrest]; subst.
  destruct minIdx as [| j].
  - injection E as <-. constructor; [| exact Hrest].
    apply Forall_app. split; [exact Hcl | now constructor].
  - destruct (push_at rest j pixel) as [rest' |] eqn:Er; [| discriminate].
    injection E as <-. constructor; [exact Hcl |].
    now apply (IH j).
Qed.

Lemma assign_forall (pixels centroids : list RGB.t)
    (clusters clusters' : list (list RGB.t)) :
  assign pixels centroids clusters = Some clusters' ->
  Forall P pixels -> Forall (Forall P) clusters ->
  Forall (Forall P) clusters'.
Proof.
  revert clusters.
  induction pixels as [| pixel rest IH]; intros clusters E Hpx Hall; cbn in E.
  - now injection E as <-.
  - inversion Hpx as [| ? ? Hp Hrest]; subst.
    destruct (push_at clusters (nearest pixel centroids) pixel) as [cl |] eqn:Ep;
      [| discriminate].
    apply (IH cl); [exact E | exact Hrest |].
    now apply (push_at_forall clusters (nearest pixel centroids) pixel).
Qed.

Lemma update_centroids_forall (centroids : list RGB.t)
    (clusters : list (list RGB.t)) :
  Forall P centroids -> Forall (Forall P) clusters ->
  Forall P (update_centroids centroids clusters).
Proof.
  revert clusters.
  induction centroids as [| c cs IH]; intros [| cl cls] Hc Hcl; cbn;
    try assumption; try constructor.
  - inversion Hc as [| ? ? Pc Pcs]; subst.
    inversion Hcl as [| ? ? Pcl Pcls]; subst.
    destruct cl as [| p ps]; [assumption |].
    apply mean_closed; [discriminate | exact Pcl].
  - inversion Hc as [| ? ? Pc Pcs]; subst.
    inversion Hcl as [| ? ? Pcl Pcls]; subst. now apply IH.
Qed.

Lemma lloyd_forall (iterations : nat) (pixels : list RGB.t) (k : Z)
    (centroids centroids' : list RGB.t) :
  lloyd iterations pixels k centroids = Some centroids' ->
  Forall P pixels -> Forall P centroids -> Forall P centroids'.
Proof.
  revert centroids.
  induction iterations as [| iter IH]; intros centroids E Hpx Hc; cbn in E.
  - now injection E as <-.
  - destruct (assign pixels centroids (repeat [] (Z.to_nat k)))
      as [clusters |] eqn:Ea; [| discriminate].
    apply (IH _ E Hpx). apply update_centroids_forall; [exact Hc |].
    apply (assign_forall pixels centroids (repeat [] (Z.to_nat k)));
      [exact Ea | exact Hpx |].
    apply Forall_forall. intros cl Hcl. apply repeat_spec in Hcl.
    subst cl. constructor.
Qed.

End Invariant.

Lemma count_at_centers (finalClusters : list Cluster) (minIdx : nat)
    (finalClusters' : list Cluster) :
  count_at finalClusters minIdx = Some finalClusters' ->
  map center finalClusters' = map center finalClusters.
Proof.
  revert minIdx finalClusters'.
  induction finalClusters as [| cl rest IH]; intros minIdx fc E; cbn in E;
    [discriminate |].
  destruct minIdx as [| j].
  - now injection E as <-.
  - destruct (count_at rest j) as [rest' |] eqn:Er; [| discriminate].
    injection E as <-. cbn. f_equal. now apply (IH j).
Qed.

Lemma tally_centers (pixels centroids : list RGB.t)
    (finalClusters finalClusters' : list Cluster) :
  tally pixels centroids finalClusters = Some finalClusters' ->
  map center finalClusters' = map center finalClusters.
Proof.
  revert finalClusters.
  induction pixels as [| pixel rest IH]; intros fc E; cbn in E.
  - now injection E as <-.
  - destruct (count_at fc (nearest pixel centroids)) as [fc1 |] eqn:Ec;
      [| discriminate].
    rewrite (IH fc1 E). now apply (count_at_centers fc (nearest pixel centroids)).
Qed.

(** The clustering in full: what it returns, how many clusters, how many
    calls of [Math.random()], and where the centres come from. *)
Lemma kMeans_shape (P : RGB.t -> Prop) (pixels : list RGB.t) (k : Z)
    (iterations fuel : nat) (rnd : nat -> R) (calls : nat) :
  (forall cluster, cluster <> [] -> Forall P cluster -> P (mean cluster)) ->
  Forall P pixels ->
  (1 <= k)%Z -> unit_stream rnd -> (Z.to_nat k <= fuel)%nat ->
  exists (all : list Cluster),
    kMeansClustering fuel pixels k iterations rnd calls
    = Returns (filter (fun c => (0 <? count c)%nat) all)
        (if (Z.of_nat (length pixels) <=? k)%Z then calls
         else (calls + Z.to_nat k)%nat)
    /\ population all = length pixels
    /\ (Z.of_nat (length all) <= k)%Z
    /\ Forall (fun c => P (center c)) all
    /\ ((Z.of_nat (length pixels) <= k)%Z ->
        all = map (fun p => mkCluster p 1) pixels).
Proof.
  intros Hmean HP Hk Hrnd Hfuel. unfold kMeansClustering.
  destruct pixels as [| p0 rest] eqn:Epx.
  { exists []. cbn [length]. destruct (Z.leb_spec (Z.of_nat 0) k); [| lia].
    repeat split; try reflexivity; try constructor. cbn. lia. }
  rewrite <- Epx in *. assert (Hne : pixels <> []) by (subst pixels; discriminate).
  clear Epx.
  destruct (Z.leb_spec (Z.of_nat (length pixels)) k) as [Hle | Hgt].
  { exists (map (fun p => mkCluster p 1) pixels). repeat split.
    - unfold gret. f_equal. symmetry. apply forallb_filter_id.
      apply forallb_forall. intros c Hc. apply in_map_iff in Hc.
      destruct Hc as (p & <- & _). reflexivity.
    - apply population_singletons.
    - rewrite length_map. exact Hle.
    - apply Forall_forall. intros c Hc. apply in_map_iff in Hc.
      destruct Hc as (p & <- & Hp). cbn. rewrite Forall_forall in HP.
      now apply HP. }
  unfold gbind at 1. unfold Math_random.
  destruct (get_random_pixel pixels (rnd calls) Hne (Hrnd calls)) as [first Ef].
  unfold gbind at 1. rewrite Ef. cbn [lift gret].
  assert (Hfirst : P first).
  { unfold Js.get in Ef. destruct (Rle_dec 0 _); [| discriminate].
    apply nth_error_In in Ef. rewrite Forall_forall in HP. now apply HP. }
  destruct (seed_centroids_shape P fuel pixels k [first] rnd (S calls)
              Hrnd Hne ltac:(discriminate) HP
              ltac:(constructor; [exact Hfirst | constructor])
              ltac:(cbn; lia) ltac:(cbn; lia))
    as (cs & Es & Hlen & Hcs).
  unfold gbind at 1. rewrite Es.
  assert (Hcsne : cs <> []).
  { intro E. rewrite E in Hlen. cbn in Hlen. lia. }
  destruct (lloyd_some iterations pixels k cs Hcsne Hlen) as (cs' & El & Hlen').
  unfold gbind at 1. rewrite El. cbn [lift gret].
  assert (Hcs' : cs' <> []).
  { intro E. rewrite E in Hlen'. cbn in Hlen'.
    destruct cs; [contradiction | discriminate]. }
  pose proof (lloyd_forall P Hmean iterations pixels k cs cs' El HP Hcs) as HPcs'.
  destruct (tally_total pixels cs' (map (fun c => mkCluster c 0) cs') Hcs'
              ltac:(apply length_map)) as (fc & Et & Hp).
  unfold gbind. rewrite Et. cbn [lift gret].
  pose proof (tally_centers _ _ _ _ Et) as Ec.
  rewrite map_map in Ec. cbn [center] in Ec. rewrite map_id in Ec.
  exists fc. repeat split.
  - unfold gret. f_equal. cbn [length]. lia.
  - rewrite Hp, population_fresh. reflexivity.
  - rewrite <- (length_map center fc), Ec, Hlen', Hlen. lia.
  - apply Forall_forall. intros c Hc.
    assert (Hin : In (center c) (map center fc)) by now apply in_map.
    rewrite Ec in Hin. rewrite Forall_forall in HPcs'. now apply HPcs'.
  - intro. lia.
Qed.


(** *** Centres are pixels of bytes *)

Lemma sum_of_bytes (f : RGB.t -> R) (cluster : list RGB.t) (a : R) :
  Forall (fun p => 0 <= f p <= 255) cluster ->
  a <= fold_left (fun sum p => sum + f p) cluster a
    <= a + 255 * INR (length cluster).
Proof.
  intro H. revert a. induction H as [| p ps Hp _ IH]; intro a.
  - cbn. lra.
  - cbn [fold_left length]. rewrite S_INR.
    specialize (IH (a + f p)). lra.
Qed.

Lemma round_is_a_byte (x : R) : 0 <= x <= 255 -> byte (Js.round x).
Proof.
  intro H. unfold Js.round, Js.floor. exists (Zfloor (x + / 2)).
  split; [reflexivity |].
  pose proof (Zfloor_bound (x + / 2)) as [Hlo Hhi].
  split.
  - apply Zfloor_lub. lra.
  - assert (Hlt : (Zfloor (x + / 2) < 256)%Z) by (apply lt_IZR; lra). lia.
Qed.

Lemma byte_range (v : R) : byte v -> 0 <= v <= 255.
Proof.
  intros (z & -> & Hz). split; apply IZR_le; lia.
Qed.

Lemma mean_of_bytes (cluster : list RGB.t) :
  cluster <> [] -> Forall byte_pixel cluster -> byte_pixel (mean cluster).
Proof.
  intros Hne Hall. unfold mean.
  assert (Hn : 0 < INR (length cluster)).
  { apply lt_0_INR. destruct cluster; [contradiction | cbn; lia]. }
  assert (Hch : forall f : RGB.t -> R,
            (forall p, byte_pixel p -> byte (f p)) ->
            byte (Js.round (fold_left (fun sum p => sum + f p) cluster 0
                            / INR (length cluster)))).
  { intros f Hf. apply round_is_a_byte.
    destruct (sum_of_bytes f cluster 0) as [Hlo Hhi].
    { apply Forall_forall. intros p Hp. apply byte_range, Hf.
      rewrite Forall_forall in Hall. now apply Hall. }
    split.
    - apply Rmult_le_pos; [lra | left; now apply Rinv_0_lt_compat].
    - apply (Rmult_le_reg_r (INR (length cluster))); [exact Hn |].
      replace (fold_left (fun sum p => sum + f p) cluster 0
               / INR (length cluster) * INR (length cluster))
        with (fold_left (fun sum p => sum + f p) cluster 0) by (field; lra).
      lra. }
  repeat split; cbn [RGB.r RGB.g RGB.b]; apply Hch; intros p (Hr & Hg & Hb);
    assumption.
Qed.

(** X23.  Clustering pixels of bytes gives centres of bytes: every channel
    of every centre is a whole number of [0, 255], whether the centre is
    still a pixel or has become the rounded mean of a cluster. *)
Theorem kMeansClustering_centers_are_bytes (pixels : list RGB.t) (k : Z)
    (iterations fuel : nat) (rnd : nat -> R) (calls : nat) :
  Forall byte_pixel pixels ->
  (1 <= k)%Z -> unit_stream rnd -> (Z.to_nat k <= fuel)%nat ->
  exists (clusters : list Cluster) (calls' : nat),
    kMeansClustering fuel pixels k iterations rnd calls
    = Returns clusters calls'
    /\ Forall (fun c => byte_pixel (center c)) clusters.
Proof.
  intros Hpx Hk Hrnd Hfuel.
  destruct (kMeans_shape byte_pixel pixels k iterations fuel rnd calls
              mean_of_bytes Hpx Hk Hrnd Hfuel)
    as (all & E & _ & _ & Hall & _).
  eexists. eexists. split; [exact E |].
  apply Forall_forall. intros c Hc. apply filter_In in Hc.
  rewrite Forall_forall in Hall. now apply Hall.
Qed.

(** *** Hex strings of centres *)

Lemma hex_digit_value (d : Z) :
  (0 <= d < 16)%Z ->
  exists c, hex_digit d = String c EmptyString /\ Sample.hex_value c = Some d.
Proof.
  intro H.
  assert (Hd : (d = 0 \/ d = 1 \/ d = 2 \/ d = 3 \/ d = 4 \/ d = 5 \/ d = 6
                \/ d = 7 \/ d = 8 \/ d = 9 \/ d = 10 \/ d = 11 \/ d = 12
                \/ d = 13 \/ d = 14 \/ d = 15)%Z) by lia.
  repeat destruct Hd as [-> | Hd]; try subst d;
    eexists; split; vm_compute; reflexivity.
Qed.

Lemma clamp_of_integer (z : Z) :
  Zfloor (Rmax 0 (Rmin 255 (IZR z))) = Z.max 0 (Z.min 255 z).
Proof.
  assert (E1 : Rmin 255 (IZR z) = IZR (Z.min 255 z)).
  { destruct (Z.le_ge_cases 255 z) as [H | H].
    - rewrite Z.min_l by exact H. apply Rmin_left. now apply IZR_le.
    - rewrite Z.min_r by exact H. apply Rmin_right. now apply IZR_le. }
  rewrite E1.
  assert (E2 : Rmax 0 (IZR (Z.min 255 z)) = IZR (Z.max 0 (Z.min 255 z))).
  { destruct (Z.le_ge_cases 0 (Z.min 255 z)) as [H | H].
    - rewrite Z.max_r by exact H. apply Rmax_right. now apply IZR_le.
    - rewrite Z.max_l by exact H. apply Rmax_left. now apply IZR_le. }
  rewrite E2. apply ZfloorZ.
Qed.

Lemma toHex_digits (z : Z) :
  exists hi lo,
    toHex (IZR z) = String hi (String lo EmptyString)
    /\ Sample.channel hi lo = Some (IZR (Z.max 0 (Z.min 255 z)) / 255).
Proof.
  unfold toHex. rewrite clamp_of_integer.
  set (v := Z.max 0 (Z.min 255 z)).
  assert (Hv : (0 <= v <= 255)%Z) by (subst v; lia).
  destruct (hex_digit_value (v / 16)) as (hi & Ehi & Vhi).
  { split; [apply Z.div_pos; lia | apply Z.div_lt_upper_bound; lia]. }
  destruct (hex_digit_value (v mod 16)) as (lo & Elo & Vlo).
  { apply Z.mod_pos_bound. lia. }
  exists hi, lo. rewrite Ehi, Elo. split; [reflexivity |].
  unfold Sample.channel. rewrite Vhi, Vlo. do 3 f_equal.
  pose proof (Z.div_mod v 16 ltac:(lia)). lia.
Qed.

(** X24.  [rgbToHex] writes what a reader of hex colours reads back.  For
    whole numbers in the three channels the string has seven characters, [#]
    and two hex digits for each channel, and reading it as [#rrggbb] gives
    the three channels, each brought into [0, 255]. *)
Theorem rgbToHex_reads_back (r g b : Z) :
  let text := rgbToHex (RGB.mk (IZR r) (IZR g) (IZR b)) in
  let clamp z := Z.max 0 (Z.min 255 z) in
  String.length text = 7%nat
  /\ Sample.parse_hex text
     = Some (Culori.Rgb.mk (IZR (clamp r) / 255) (IZR (clamp g) / 255)
                           (IZR (clamp b) / 255)).
Proof.
  intros text clamp. subst text clamp. unfold rgbToHex.
  cbn [RGB.r RGB.g RGB.b].
  destruct (toHex_digits r) as (r1 & r2 & -> & Er).
  destruct (toHex_digits g) as (g1 & g2 & -> & Eg).
  destruct (toHex_digits b) as (b1 & b2 & -> & Eb).
  cbn [String.append String.length Sample.parse_hex].
  split; [reflexivity |].
  now rewrite Er, Eg, Eb.
Qed.

(** *** The size of an extraction *)

Lemma parsed_clusters_length (lib : Library) (clusters : list Cluster) :
  (length (parsed_clusters clusters) <= length clusters)%nat.
Proof.
  unfold parsed_clusters. apply flat_map_at_most_one.
  intro c. destruct (parseColor _); cbn; lia.
Qed.

(** X25.  An extraction never returns more colours than were asked for
    (eight when the count is left out), and it returns none, without a call
    of [Math.random()], for an image in which every pixel is transparent. *)
Theorem extractColorsFromImage_at_most_colorCount (lib : Library)
    (data : list RGBA) (colorCount : option Z) (fuel : nat)
    (rnd : nat -> R) (calls : nat) :
  (1 <= Js.nullish colorCount 8%Z)%Z -> unit_stream rnd ->
  (Z.to_nat (Js.nullish colorCount 8%Z) <= fuel)%nat ->
  exists (colors : list ColorResult) (calls' : nat),
    extractColorsFromImage fuel data colorCount rnd calls
    = Returns colors calls'
    /\ (Z.of_nat (length colors) <= Js.nullish colorCount 8%Z)%Z
    /\ ((forall px, In px data -> (alpha px < 128)%Z) ->
        colors = [] /\ calls' = calls).
Proof.
  intros Hk Hrnd Hfuel.
  destruct (kMeans_shape (fun _ => True) (getPixelsFromImageData data)
              (Js.nullish colorCount 8%Z) 10 fuel rnd calls
              (fun _ _ _ => I)
              (proj2 (Forall_forall _ _) (fun _ _ => I)) Hk Hrnd Hfuel)
    as (all & E & Hpop & Hlen & _ & Hsmall).
  unfold extractColorsFromImage, sortedClusters.
  unfold gbind. rewrite E. unfold gret.
  eexists. eexists. split; [reflexivity | split].
  - rewrite length_map.
    pose proof (parsed_clusters_length lib
                  (sort_by (fun a b => (Z.of_nat (count b) - Z.of_nat (count a))%Z)
                     (filter (fun c => (0 <? count c)%nat) all))) as H1.
    pose proof (Permutation_length
                  (sort_by_permutation
                     (fun a b => (Z.of_nat (count b) - Z.of_nat (count a))%Z)
                     (filter (fun c => (0 <? count c)%nat) all))) as H2.
    pose proof (filter_length_le (fun c => (0 <? count c)%nat) all) as H3.
    lia.
  - intro Htransparent.
    assert (Hempty : getPixelsFromImageData data = []).
    { destruct (getPixelsFromImageData data) as [| p rest] eqn:Ep;
        [reflexivity |].
      destruct (getPixelsFromImageData_keeps_members data p) as (px & Hpx & Ha).
      { rewrite Ep. now left. }
      specialize (Htransparent px Hpx). lia. }
    rewrite Hempty in *. cbn [length] in *.
    assert (Hall : all = []).
    { rewrite (Hsmall ltac:(lia)). reflexivity. }
    subst all. cbn. split; [reflexivity |].
    destruct (Z.leb_spec 0 (Js.nullish colorCount 8%Z)); [reflexivity | lia].
Qed.


(* ================================================================== *)
(** ** Variations *)

(** [Math.pow(x, 2)] is the square, whatever the sign of [x]. *)
Lemma pow_square (x : R) : Js.pow x 2 = x * x.
Proof.
  unfold Js.pow. destruct (Rlt_dec 0 x) as [Hp | Hn].
  - replace 2 with (INR 2) by (cbn; ring). rewrite Rpower_pow by exact Hp.
    ring.
  - destruct (Req_dec_T x 0) as [-> | Hne].
    + destruct (Rlt_dec 0 2); [ring | lra].
    + rewrite (ZfloorZ 2).
      destruct (Req_dec_T 2 2) as [_ | H]; [| contradiction].
      change (powerRZ x 2) with (x ^ 2). ring.
Qed.

(** The position of round [i] among [n]: a fraction of [0, 1]. *)
Lemma fraction_unit (n i : nat) :
  (i < n)%nat -> 0 <= Variations.fraction (INR n) i <= 1.
Proof.
  intro Hi. unfold Variations.fraction.
  pose proof (pos_INR i) as Hpos.
  assert (Hle : INR i <= INR n - 1).
  { replace (INR n - 1) with (INR (n - 1))
      by (rewrite minus_INR by lia; reflexivity).
    apply le_INR. lia. }
  destruct (Req_dec_T (INR n - 1) 0) as [Hz | Hnz].
  - assert (INR i = 0) by lra. rewrite H. lra.
  - assert (Hd : 0 < INR n - 1) by lra.
    split.
    + apply Rmult_le_pos; [lra | left; now apply Rinv_0_lt_compat].
    + apply (Rmult_le_reg_r (INR n - 1)); [lra |].
      replace (INR i / (INR n - 1) * (INR n - 1)) with (INR i) by (field; lra).
      lra.
Qed.

Lemma ramp_length {A : Type} (n : nat) (body : R -> option A) :
  (forall t, body t <> None) ->
  length (Variations.ramp (INR n) body) = n.
Proof.
  intro H. unfold Variations.ramp.
  rewrite iterations_INR, filter_non_null_length, length_seq; [reflexivity |].
  intros i _. apply H.
Qed.

Lemma ramp_all {A : Type} (n : nat) (body : R -> option A) (P : A -> Prop) :
  (forall t x, 0 <= t <= 1 -> body t = Some x -> P x) ->
  Forall P (Variations.ramp (INR n) body).
Proof.
  intro H. apply Forall_forall. intros x Hin. unfold Variations.ramp in Hin.
  apply filter_non_null_In in Hin. destruct Hin as (i & Hi & E).
  rewrite iterations_INR in Hi. apply in_seq in Hi.
  apply (H (Variations.fraction (INR n) i)); [| exact E].
  apply fraction_unit. lia.
Qed.

(** Every kind of variation returns one colour for every round: with an
    integer count and a library that converts, [count] colours. *)
Lemma generateVariations_length (lib : Library) (baseColor : ColorResult)
    (type : Variations.VariationType) (n : nat) (colorSpace : ColorSpace) :
  Converts lib ->
  length (Variations.generateVariations baseColor
            (Variations.mkConfig type (INR n)) colorSpace) = n.
Proof.
  intro Hc. unfold Variations.generateVariations.
  cbn [Variations.type Variations.count].
  destruct type, colorSpace;
    unfold Variations.generateMonochromatic, Variations.generateShades,
      Variations.generateTints, Variations.generateTones,
      Variations.generateTemperature, Variations.generateSaturationGradient,
      Variations.generateLightnessGradient;
    apply ramp_length; intro t;
    match goal with
    | |- fromOklch ?l ?c ?h <> None =>
        destruct (fromOklch_total l c h Hc) as [x ->]; discriminate
    | |- fromHsl ?h ?s ?l <> None =>
        destruct (fromHsl_total h s l Hc) as [x ->]; discriminate
    end.
Qed.

Lemma variations_hues (lib : Library) (baseColor : ColorResult)
    (type : Variations.VariationType) (n : nat) (colorSpace : ColorSpace) :
  GamutClamp lib ->
  0 <= LCH.l (oklch baseColor) <= 1 -> 0 <= LCH.c (oklch baseColor) ->
  Forall (fun x =>
            match type with
            | Variations.temperature => 30 <= hue_in colorSpace x <= 240
            | _ => hue_in colorSpace x = hue_in colorSpace baseColor
            end)
         (Variations.generateVariations baseColor
            (Variations.mkConfig type (INR n)) colorSpace).
Proof.
  intros G Hl Hch. unfold Variations.generateVariations.
  cbn [Variations.type Variations.count].
  assert (Hsq : forall v, 0 <= v * v) by (intro v; nra).
  destruct type, colorSpace;
    unfold Variations.generateMonochromatic, Variations.generateShades,
      Variations.generateTints, Variations.generateTones,
      Variations.generateTemperature, Variations.generateSaturationGradient,
      Variations.generateLightnessGradient;
    apply ramp_all; intros t x Ht E; cbn [hue_in];
    try (rewrite (fromHsl_hsl _ _ _ _ E); cbn; lra);
    rewrite ?pow_square in E;
    (apply fromOklch_clamped in E;
     [ destruct E as (_ & -> & _); lra
     | exact G
     | try (unfold Rmax; destruct (Rle_dec _ _)); nra
     | try nra ]).
  all: apply Rmult_le_pos; [exact Hch |];
    match goal with
    | |- 0 <= 1 - ?u * ?u * _ => assert (-1 <= u <= 1) by lra; nra
    end.
Qed.

(** X27.  What a variation is made of.  For a base colour of the data model
    and an integer count, a variation has [count] colours, and every one of
    them has the hue of the base colour, except in the temperature
    variation, whose hues take no account of the base colour and lie between
    30 and 240. *)
Theorem variations_keep_the_hue (lib : Library) (baseColor : ColorResult)
    (type : Variations.VariationType) (n : nat) (colorSpace : ColorSpace) :
  Converts lib -> GamutClamp lib ->
  0 <= LCH.l (oklch baseColor) <= 1 -> 0 <= LCH.c (oklch baseColor) ->
  let variation :=
    Variations.generateVariations baseColor
      (Variations.mkConfig type (INR n)) colorSpace in
  length variation = n
  /\ Forall (fun x =>
              match type with
              | Variations.temperature => 30 <= hue_in colorSpace x <= 240
              | _ => hue_in colorSpace x = hue_in colorSpace baseColor
              end)
            variation.
Proof.
  intros Hc G Hl Hch variation. subst variation. split.
  - now apply generateVariations_length.
  - now apply variations_hues.
Qed.


(* ================================================================== *)
(** ** Tonal scales *)

Lemma chroma_for_lightness_range (baseLightness baseChroma target : R) :
  0.01 <= Tonal.getChromaForLightness baseLightness baseChroma target
       <= Rmax 0.01 (baseChroma * 1.2).
Proof.
  unfold Tonal.getChromaForLightness. cbv zeta.
  set (inner := baseChroma * Rmax 0.3 _).
  unfold Rmax, Rmin.
  repeat match goal with
  | |- context [Rle_dec ?a ?b] => destruct (Rle_dec a b)
  end; lra.
Qed.

Section TonalFacts.
Context {lib : Library}.

Lemma tonal_scale_length (baseColor : ColorResult) (steps : list R)
    (colorSpace : ColorSpace) :
  Converts lib ->
  length (Tonal.generateTonalScale baseColor (Some steps) colorSpace)
  = length steps.
Proof.
  intro Hc. unfold Tonal.generateTonalScale. cbn [Js.nullish].
  destruct colorSpace;
    unfold Tonal.generateTonalScaleOklch, Tonal.generateTonalScaleHsl;
    apply filter_non_null_length; intros step _.
  - match goal with
    | |- fromOklch ?l ?c ?h <> None =>
        destruct (fromOklch_total l c h Hc) as [x ->]; discriminate
    end.
  - match goal with
    | |- fromHsl ?h ?s ?l <> None =>
        destruct (fromHsl_total h s l Hc) as [x ->]; discriminate
    end.
Qed.

End TonalFacts.

(** X28.  A tonal scale in OKLCH.  For steps between 0 and 1000 the colour
    of a step has the lightness [0.97 - 0.87 * step / 1000], so a larger
    step is a darker colour; it has the hue of the base colour and a chroma
    of at most 1.2 times the base chroma (or 0.01).  The lightness of the
    base colour plays no part. *)
Theorem generateTonalScale_lightness (lib : Library)
    (baseColor : ColorResult) (steps : list R) :
  Converts lib -> GamutClamp lib ->
  Forall (fun step => 0 <= step <= 1000) steps ->
  let scale :=
    Tonal.generateTonalScale baseColor (Some steps) oklch_space in
  map (fun x => LCH.l (oklch x)) scale
  = map (fun step => 0.97 - step / 1000 * 0.87) steps
  /\ Forall (fun x =>
              LCH.h (oklch x) = LCH.h (oklch baseColor)
              /\ LCH.c (oklch x)
                 <= Rmax 0.01 (LCH.c (oklch baseColor) * 1.2))
            scale.
Proof.
  intros Hc G Hsteps scale. subst scale.
  unfold Tonal.generateTonalScale, Tonal.generateTonalScaleOklch.
  cbn [Js.nullish].
  set (build := fun step : R => fromOklch _ _ _).
  assert (Hbuild : forall step, 0 <= step <= 1000 ->
            exists x, build step = Some x
              /\ LCH.l (oklch x) = 0.97 - step / 1000 * 0.87
              /\ LCH.h (oklch x) = LCH.h (oklch baseColor)
              /\ LCH.c (oklch x)
                 <= Rmax 0.01 (LCH.c (oklch baseColor) * 1.2)).
  { intros step Hs. subst build. cbv beta.
    match goal with
    | |- context [fromOklch ?l ?c ?h] =>
        destruct (fromOklch_total l c h Hc) as [x Hx];
        pose proof (chroma_for_lightness_range (LCH.l (oklch baseColor))
                      (LCH.c (oklch baseColor)) l) as Hcr
    end.
    exists x. split; [exact Hx |].
    apply fromOklch_clamped in Hx;
      [| exact G | unfold Tonal.stepToLightness; lra | lra].
    destruct Hx as (El & Eh & Ec & _).
    unfold Tonal.stepToLightness in El. repeat split; try assumption. lra. }
  induction Hsteps as [| step rest Hstep Hrest IH]; cbn [map Js.filter_non_null].
  - split; constructor.
  - destruct (Hbuild step Hstep) as (x & -> & El & Eh & Ec).
    destruct IH as [IH1 IH2]. cbn [map]. split.
    + now rewrite El, IH1.
    + constructor; [split; assumption | exact IH2].
Qed.

(** X29.  The tonal matrix is a rectangle: it reports the steps and hues it
    used (the defaults when none are given: the eleven standard steps and
    the hue of the base colour), and it has one row for every hue and, in
    every row, one colour for every step. *)
Theorem generateTonalMatrix_is_a_rectangle (lib : Library)
    (baseColor : ColorResult) (config : Tonal.TonalConfig)
    (colorSpace : ColorSpace) :
  Converts lib ->
  let result := Tonal.generateTonalMatrix baseColor config colorSpace in
  Tonal.result_steps result
  = Js.nullish (Tonal.steps config) Tonal.DEFAULT_STEPS
  /\ Tonal.result_hues result
     = Js.nullish (Tonal.hues config) [hue_in colorSpace baseColor]
  /\ length (Tonal.matrix result) = length (Tonal.result_hues result)
  /\ Forall (fun row => length row = length (Tonal.result_steps result))
            (Tonal.matrix result).
Proof.
  intros Hc result. subst result. unfold Tonal.generateTonalMatrix.
  cbn [Tonal.result_steps Tonal.result_hues Tonal.matrix].
  split; [reflexivity |].
  split; [destruct colorSpace; reflexivity |].
  set (steps := Js.nullish (Tonal.steps config) Tonal.DEFAULT_STEPS).
  generalize (Js.nullish (Tonal.hues config)
                [match colorSpace with
                 | oklch_space => LCH.h (oklch baseColor)
                 | hsl_space => HSL.h (hsl baseColor)
                 end]).
  intro hues. induction hues as [| hue rest [IH1 IH2]]; cbn [flat_map length].
  - split; [reflexivity | constructor].
  - assert (Hrow : exists hb,
              match colorSpace with
              | oklch_space =>
                  fromOklch (LCH.l (oklch baseColor)) (LCH.c (oklch baseColor))
                            (normalizeHue hue)
              | hsl_space =>
                  fromHsl (normalizeHue hue) (HSL.s (hsl baseColor))
                          (HSL.l (hsl baseColor))
              end = Some hb).
    { destruct colorSpace; [apply fromOklch_total | apply fromHsl_total];
        exact Hc. }
    destruct Hrow as [hb ->]. cbn [app length]. split.
    + now rewrite IH1.
    + constructor; [now apply tonal_scale_length | exact IH2].
Qed.

(** *** Even hues *)

(** X30.  [generateEvenHues] of an integer count n >= 1 returns n hues of
    [0, 360), the hue at position [i] standing [i * 360 / n] after the start
    hue, and no two of them are equal. *)
Theorem generateEvenHues_are_distinct (n : nat) (startHue : option R) :
  (1 <= n)%nat ->
  let hues := Tonal.generateEvenHues (INR n) startHue in
  length hues = n
  /\ (forall i, (i < n)%nat ->
        nth_error hues i
        = Some (normalizeHue (Js.nullish startHue 0 + INR i * (360 / INR n))))
  /\ Forall (fun h => 0 <= h < 360) hues
  /\ NoDup hues.
Proof.
  intros Hn hues. subst hues. unfold Tonal.generateEvenHues.
  rewrite iterations_INR.
  set (f := fun i : nat =>
              normalizeHue (Js.nullish startHue 0 + INR i * (360 / INR n))).
  assert (Hn0 : 0 < INR n) by (apply lt_0_INR; lia).
  split; [now rewrite length_map, length_seq |].
  split; [| split].
  - intros i Hi. rewrite nth_error_map.
    rewrite nth_error_nth' with (d := 0%nat) by (rewrite length_seq; lia).
    now rewrite seq_nth by lia.
  - apply Forall_forall. intros h Hh. apply in_map_iff in Hh.
    destruct Hh as (i & <- & _). apply normalizeHue_range.
  - apply Finite.Injective_map_NoDup_in; [| apply seq_NoDup].
    intros i j Hi Hj E. apply in_seq in Hi, Hj. subst f. cbv beta in E.
    apply normalizeHue_eq_turns in E. destruct E as [k E].
    assert (Ek : INR i - INR j = INR n * IZR k).
    { apply (Rmult_eq_reg_l (360 / INR n)).
      - rewrite Rmult_minus_distr_l.
        replace (360 / INR n * (INR n * IZR k)) with (360 * IZR k)
          by (field; lra).
        lra.
      - apply Rmult_integral_contrapositive_currified; [lra |].
        apply Rinv_neq_0_compat. lra. }
    rewrite !INR_IZR_INZ, <- minus_IZR, <- mult_IZR in Ek.
    apply eq_IZR in Ek.
    destruct (Z.lt_trichotomy k 0) as [Hk | [Hk | Hk]]; nia.
Qed.


(* ================================================================== *)
(** ** The complement of a displayable colour need not be displayable *)

Lemma in_unit_true (v : R) : Sample.in_unit v = true <-> 0 <= v <= 1.
Proof.
  unfold Sample.in_unit.
  destruct (Rle_dec 0 v); [destruct (Rle_dec v 1) |];
    split; intro H; try discriminate; try reflexivity; lra.
Qed.

Lemma displayable_true (x : Culori.Rgb.t) :
  Sample.displayable x = true
  <-> 0 <= Culori.Rgb.r x <= 1 /\ 0 <= Culori.Rgb.g x <= 1
      /\ 0 <= Culori.Rgb.b x <= 1.
Proof.
  unfold Sample.displayable. rewrite !andb_true_iff, !in_unit_true. tauto.
Qed.

(** The transfer function maps [0, 1] into itself and what is above 1
    above 1. *)
Lemma encode_unit (v : R) : 0 <= v <= 1 -> 0 <= Oklab.encode v <= 1.
Proof.
  intro Hv. unfold Oklab.encode, Oklab.sign.
  rewrite Rabs_right by lra.
  destruct (Rlt_dec 0.0031308 v) as [Hbig | Hsmall]; [| lra].
  destruct (Rlt_dec v 0) as [Hneg | _]; [lra |].
  set (w := Rpower v (1 / 2.4)).
  assert (Hup : w <= 1) by (apply Rpower_le_one; lra).
  assert (Hlow : Rpower v (1 / 2) <= w)
    by (apply Rpower_exponent_ge; lra).
  set (u := Rpower v (1 / 2)) in *.
  assert (Hu : 0 < u) by apply exp_pos.
  assert (Huu : u * u = v).
  { unfold u. rewrite <- Rpower_plus.
    replace (1 / 2 + 1 / 2) with 1 by lra. apply Rpower_1. lra. }
  assert (Hu' : 0.0559 < u) by nra.
  lra.
Qed.

Lemma encode_above (v : R) : 1 < v -> 1 < Oklab.encode v.
Proof.
  intro Hv. unfold Oklab.encode, Oklab.sign.
  rewrite Rabs_right by lra.
  destruct (Rlt_dec 0.0031308 v) as [_ | H]; [| lra].
  destruct (Rlt_dec v 0) as [Hneg | _]; [lra |].
  assert (Hw : 1 < Rpower v (1 / 2.4)).
  { rewrite <- (Rpower_O v) at 1 by lra. apply Rpower_lt; lra. }
  lra.
Qed.

(** A grey is displayable. *)
Lemma grey_displayable (l : R) (h : option R) :
  0 <= l <= 1 ->
  Sample.displayable (Oklab.of_lch (Culori.Oklch.mk l 0 h)) = true.
Proof.
  intro Hl.
  assert (E : Oklab.linear (Culori.Oklch.mk l 0 h)
              = Culori.Rgb.mk (l * l * l) (l * l * l) (l * l * l)).
  { unfold Oklab.linear. cbn [Culori.Oklch.l Culori.Oklch.c Culori.Oklch.h].
    cbv zeta. rewrite !Rmult_0_l, !Rmult_0_r, !Rplus_0_r, !Rminus_0_r.
    set (cube := l * l * l). f_equal; lra. }
  unfold Oklab.of_lch. rewrite E. cbn [Culori.Rgb.r Culori.Rgb.g Culori.Rgb.b].
  assert (Hc : 0 <= l * l * l <= 1) by nra.
  apply displayable_true. cbn [Culori.Rgb.r Culori.Rgb.g Culori.Rgb.b].
  pose proof (encode_unit _ Hc). tauto.
Qed.

Lemma oklab_clamp_cases (x : Culori.Oklch.t) :
  (Sample.displayable (Oklab.of_lch x) = true
   /\ Oklab.clamp (Culori.oklch x) = x)
  \/ (Sample.displayable (Oklab.of_lch x) = false
      /\ Oklab.clamp (Culori.oklch x)
         = Culori.Oklch.mk (Culori.Oklch.l x) 0 (Culori.Oklch.h x)).
Proof.
  unfold Oklab.clamp. cbn [Oklab.as_lch].
  destruct (Sample.displayable _); [left | right]; split; reflexivity.
Qed.

(** The library meets the three contracts. *)
Lemma oklab_converts : Converts Oklab.lib.
Proof. intro color. cbn. repeat split; discriminate. Qed.

Lemma oklab_gamut_clamp : GamutClamp Oklab.lib.
Proof.
  split; intros x [Hl Hc]; cbn [clampChroma Oklab.lib].
  - destruct (oklab_clamp_cases x) as [[_ ->] | [_ ->]]; reflexivity.
  - destruct (oklab_clamp_cases x) as [[_ ->] | [_ ->]]; reflexivity.
  - destruct (oklab_clamp_cases x) as [[_ ->] | [_ ->]]; cbn; lra.
  - unfold in_gamut. cbn [clampChroma Oklab.lib].
    destruct (oklab_clamp_cases x) as [[_ E] | [_ E]]; rewrite E.
    + exact E.
    + unfold Oklab.clamp. cbn [Oklab.as_lch Culori.Oklch.l Culori.Oklch.h].
      now rewrite grey_displayable.
Qed.

Lemma oklab_srgb_gamut : SrgbGamut Oklab.lib.
Proof.
  split; intros x [Hl Hc].
  - unfold displayable. cbn [clampChroma toRgb Oklab.lib Oklab.as_rgb].
    eexists. split; [reflexivity |]. apply displayable_true.
    destruct (oklab_clamp_cases x) as [[D ->] | [_ ->]];
      [exact D | now apply grey_displayable].
  - intros (y & E & Hy). cbn [toRgb Oklab.lib Oklab.as_rgb] in E.
    injection E as <-. apply displayable_true in Hy.
    cbn [clampChroma Oklab.lib].
    destruct (oklab_clamp_cases x) as [[_ E] | [D _]]; [exact E | congruence].
Qed.

(** A quarter and three quarters of a turn. *)
Lemma quarter_turn : cos (Oklab.radians 90) = 0 /\ sin (Oklab.radians 90) = 1.
Proof.
  unfold Oklab.radians. replace (90 * PI / 180) with (PI / 2) by field.
  split; [apply cos_PI2 | apply sin_PI2].
Qed.

Lemma three_quarter_turn :
  cos (Oklab.radians 270) = 0 /\ sin (Oklab.radians 270) = -1.
Proof.
  unfold Oklab.radians. replace (270 * PI / 180) with (3 * (PI / 2)) by field.
  split; [apply cos_3PI2 | apply sin_3PI2].
Qed.

(** The light yellow (0.9, 0.1, 90) is displayable; the violet of the same
    lightness and chroma at hue 270 is not: its blue channel would be
    above 1. *)
Lemma yellow_displayable :
  Oklab.clamp (Culori.oklch (Culori.Oklch.mk 0.9 0.1 (Some 90)))
  = Culori.Oklch.mk 0.9 0.1 (Some 90).
Proof.
  destruct (oklab_clamp_cases (Culori.Oklch.mk 0.9 0.1 (Some 90)))
    as [[_ E] | [D _]]; [exact E | exfalso].
  assert (T : Sample.displayable
                (Oklab.of_lch (Culori.Oklch.mk 0.9 0.1 (Some 90))) = true).
  { apply displayable_true. unfold Oklab.of_lch, Oklab.linear.
    cbn [Culori.Oklch.l Culori.Oklch.c Culori.Oklch.h Js.nullish
         Culori.Rgb.r Culori.Rgb.g Culori.Rgb.b].
    cbv zeta. destruct quarter_turn as [-> ->].
    repeat split; apply encode_unit; lra. }
  congruence.
Qed.

Lemma violet_clamped :
  Oklab.clamp (Culori.oklch (Culori.Oklch.mk 0.9 0.1 (Some 270)))
  = Culori.Oklch.mk 0.9 0 (Some 270).
Proof.
  destruct (oklab_clamp_cases (Culori.Oklch.mk 0.9 0.1 (Some 270)))
    as [[D _] | [_ E]]; [exfalso | exact E].
  apply displayable_true in D. destruct D as (_ & _ & _ & Hb).
  revert Hb. unfold Oklab.of_lch, Oklab.linear.
  cbn [Culori.Oklch.l Culori.Oklch.c Culori.Oklch.h Js.nullish
       Culori.Rgb.r Culori.Rgb.g Culori.Rgb.b].
  cbv zeta. destruct three_quarter_turn as [-> ->]. intro Hb.
  match type of Hb with
  | Oklab.encode ?v <= 1 => pose proof (encode_above v ltac:(lra))
  end.
  lra.
Qed.

Lemma normalizeHue_270 : normalizeHue (90 + 180) = 270.
Proof. replace (90 + 180) with 270 by lra. apply normalizeHue_id. lra. Qed.

Lemma oklab_color (l c h : R) :
  @fromOklch Oklab.lib l c h = Some (Oklab.color_of_lch l c h).
Proof. reflexivity. Qed.

Lemma yellow_triple :
  oklch (Oklab.color_of_lch 0.9 0.1 90) = LCH.mk 0.9 0.1 90.
Proof.
  rewrite (fromOklch_oklch _ _ _ _ (oklab_color 0.9 0.1 90)).
  cbn [clampChroma Oklab.lib]. rewrite yellow_displayable. reflexivity.
Qed.

Lemma violet_triple :
  oklch (Oklab.color_of_lch 0.9 0.1 270) = LCH.mk 0.9 0 270.
Proof.
  rewrite (fromOklch_oklch _ _ _ _ (oklab_color 0.9 0.1 270)).
  cbn [clampChroma Oklab.lib]. rewrite violet_clamped. reflexivity.
Qed.

Section Complement.
Import PrimFloat.

(** C1, the claim as stated, fails.  With the sRGB gamut of OKLCH, the
    light yellow [fromOklch(0.9, 0.1, 90)] keeps its chroma 0.1; the second
    colour of its complementary harmony, at hue 270, cannot have that
    chroma inside the gamut and comes back with a smaller one.  And the two
    hues need not be exactly half a turn apart: in binary64, for the hue
    194.76894793196382 the second hue is 14.768947931963794, and the
    difference of the two, normalised, is 179.99999999999997. *)
Lemma complementary_chroma_differs :
  (exists second : ColorResult,
     @Harmonic.generateHarmony Oklab.lib (Oklab.color_of_lch 0.9 0.1 90)
       (Harmonic.mkConfig Harmonic.complementary None None) oklch_space
     = [Oklab.color_of_lch 0.9 0.1 90; second]
     /\ LCH.c (oklch (Oklab.color_of_lch 0.9 0.1 90)) = 0.1
     /\ LCH.c (oklch second) < 0.1)
  /\ Binary64.normalizeHue (194.76894793196382 + 180)%float
     = 14.768947931963794%float
  /\ Binary64.normalizeHue (14.768947931963794 - 194.76894793196382)%float
     = 179.99999999999997%float
  /\ (179.99999999999997 =? 180)%float = false.
Proof.
  split; [| repeat split; vm_compute; reflexivity].
  exists (Oklab.color_of_lch 0.9 0.1 270).
  split; [| split].
  - unfold Harmonic.generateHarmony, Harmonic.generateHarmonyOklch.
    cbn [Harmonic.type Harmonic.harmony_results].
    rewrite yellow_triple. cbn [LCH.l LCH.c LCH.h].
    rewrite normalizeHue_270, oklab_color. reflexivity.
  - rewrite yellow_triple. reflexivity.
  - rewrite violet_triple. cbn. lra.
Qed.

End Complement.

(** C1 at the light yellow. *)
Lemma complementary_harmony_witness :
  exists second : ColorResult,
    @Harmonic.generateHarmony Oklab.lib (Oklab.color_of_lch 0.9 0.1 90)
      (Harmonic.mkConfig Harmonic.complementary None None) oklch_space
    = [Oklab.color_of_lch 0.9 0.1 90; second]
    /\ LCH.h (oklch second)
       = normalizeHue (LCH.h (oklch (Oklab.color_of_lch 0.9 0.1 90)) + 180)
    /\ LCH.l (oklch second) = LCH.l (oklch (Oklab.color_of_lch 0.9 0.1 90))
    /\ LCH.c (oklch second) <= LCH.c (oklch (Oklab.color_of_lch 0.9 0.1 90))
    /\ (LCH.c (oklch second) = LCH.c (oklch (Oklab.color_of_lch 0.9 0.1 90))
        <-> displayable Oklab.lib
              (Culori.Oklch.mk
                 (LCH.l (oklch (Oklab.color_of_lch 0.9 0.1 90)))
                 (LCH.c (oklch (Oklab.color_of_lch 0.9 0.1 90)))
                 (Some (normalizeHue
                          (LCH.h (oklch (Oklab.color_of_lch 0.9 0.1 90))
                           + 180))))).
Proof.
  assert (Hl : 0 <= LCH.l (oklch (Oklab.color_of_lch 0.9 0.1 90)) <= 1)
    by (rewrite yellow_triple; cbn; lra).
  assert (Hc : 0 <= LCH.c (oklch (Oklab.color_of_lch 0.9 0.1 90)))
    by (rewrite yellow_triple; cbn; lra).
  destruct (complementary_harmony Oklab.lib (Oklab.color_of_lch 0.9 0.1 90)
              None None oklch_space oklab_converts oklab_gamut_clamp
              oklab_srgb_gamut Hl Hc)
    as (second & E & Hh & Hrest).
  exists second. split; [exact E | split; [exact Hh | exact Hrest]].
Defined.


(* ================================================================== *)
(** ** The further theorems at concrete inputs *)

Lemma sample_color_hue (l c h : R) :
  0 <= l <= 1 -> 0 <= c -> LCH.h (oklch (Sample.color_of_lch l c h)) = h.
Proof.
  intros Hl Hc.
  now destruct (fromOklch_clamped l c h _ sample_gamut_clamp Hl Hc
                  (sample_color l c h)) as (_ & Eh & _).
Qed.

Lemma three_colors_normalised :
  Forall (hue_normalised oklch_space) three_colors.
Proof.
  unfold three_colors, hue_normalised.
  repeat constructor; cbn [hue_in]; rewrite sample_color_hue; lra.
Qed.

Lemma panel_config_fixed : fixed_in_range panel_config.
Proof. split; cbn; intros v E; injection E as <-; lra. Qed.

(** A hex string in lower case, formatted. *)
Lemma formatHexString_of_a_valid_hex_witness :
  isValidHex (formatHexString "#1a2b3c") = true.
Proof.
  exact (proj1 (formatHexString_of_a_valid_hex "#1a2b3c" eq_refl)).
Defined.


(** The gradient of three colours in seven steps has seven colours. *)
Lemma interpolateLinear_length_witness :
  length (@Interpolation.interpolateLinear Sample.lib three_colors 7
            oklch_space)
  = (if Rlt_dec 7 2 then 2%nat else Z.to_nat (Zceil 7)).
Proof.
  exact (interpolateLinear_length Sample.lib three_colors 7 oklch_space
           sample_converts).
Defined.

(** The triadic harmony of pure blue. *)
Lemma harmony_hues_of_the_fixed_types_witness :
  map (hue_in oklch_space)
      (@Harmonic.generateHarmony Sample.lib (Sample.color_of_lch 0.0722 1 240)
         (Harmonic.mkConfig Harmonic.triadic None None) oklch_space)
  = [hue_in oklch_space (Sample.color_of_lch 0.0722 1 240);
     normalizeHue (hue_in oklch_space (Sample.color_of_lch 0.0722 1 240) + 120);
     normalizeHue (hue_in oklch_space (Sample.color_of_lch 0.0722 1 240) + 240)].
Proof.
  destruct (sample_color_valid 0.0722 1 240 ltac:(lra) ltac:(lra)) as [Hl Hc].
  destruct (harmony_hues_of_the_fixed_types Sample.lib
              (Sample.color_of_lch 0.0722 1 240) oklch_space None None
              sample_converts sample_gamut_clamp Hl Hc) as ((_ & H & _) & _).
  exact H.
Defined.

(** The golden-ratio harmony of pure blue with five colours. *)
Lemma golden_ratio_hues_are_distinct_witness :
  NoDup (map (hue_in oklch_space)
           (@Harmonic.generateHarmony Sample.lib
              (Sample.color_of_lch 0.0722 1 240)
              (Harmonic.mkConfig Harmonic.golden_ratio (Some (INR 5)) None)
              oklch_space)).
Proof.
  destruct (sample_color_valid 0.0722 1 240 ltac:(lra) ltac:(lra)) as [Hl Hc].
  apply (golden_ratio_hues_are_distinct Sample.lib
           (Sample.color_of_lch 0.0722 1 240) oklch_space 5 None
           sample_converts sample_gamut_clamp Hl Hc).
  cbn. lia.
Defined.

(** A dark palette of twelve colours. *)
Lemma generateColorful_length_witness :
  length (@Colorful.generateColorful Sample.lib 0 dark_config oklch_space)
  = 12%nat.
Proof.
  apply (generateColorful_length Sample.lib dark_config oklch_space 0 12).
  - exact sample_converts.
  - reflexivity.
Defined.


(** The dark palette is dark. *)
Lemma colorful_lightness_bands_witness :
  Forall (fun x => 0.2 <= LCH.l (oklch x) <= 0.45)
         (@Colorful.generateColorful Sample.lib 0 dark_config oklch_space).
Proof.
  pose proof (colorful_lightness_bands Sample.lib dark_config 0
                sample_gamut_clamp eq_refl eq_refl) as H.
  apply Forall_forall. intros x Hx. rewrite Forall_forall in H.
  exact (proj1 (H x Hx)).
Defined.

(** The panel fixes the lightness at 0.65. *)
Lemma colorful_fixed_parameters_witness :
  Forall (fun x => LCH.l (oklch x) = 0.65)
         (@Colorful.generateColorful Sample.lib 0 panel_config oklch_space).
Proof.
  pose proof (colorful_fixed_parameters Sample.lib panel_config oklch_space 0
                sample_gamut_clamp panel_config_fixed) as H.
  apply Forall_forall. intros x Hx. rewrite Forall_forall in H.
  exact (proj1 (H x Hx) 0.65 eq_refl).
Defined.

(** A hue sweep of four colours, with two seeds and two clocks. *)
Lemma hue_sweep_is_evenly_spaced_witness :
  map (hue_in oklch_space)
      (@Colorful.generateColorful Sample.lib 0
         (Colorful.mkConfig Colorful.hue_sweep (INR 4) (Some 1)
            None None None None) oklch_space)
  = map (fun i => normalizeHue (INR i * (360 / INR 4))) (seq 0 4)
  /\ Forall (fun h => 0 <= h < 360)
       (map (hue_in oklch_space)
          (@Colorful.generateColorful Sample.lib 0
             (Colorful.mkConfig Colorful.hue_sweep (INR 4) (Some 1)
                None None None None) oklch_space))
  /\ NoDup
       (map (hue_in oklch_space)
          (@Colorful.generateColorful Sample.lib 0
             (Colorful.mkConfig Colorful.hue_sweep (INR 4) (Some 1)
                None None None None) oklch_space))
  /\ @Colorful.generateColorful Sample.lib 1
       (Colorful.mkConfig Colorful.hue_sweep (INR 4) (Some 2)
          None None None None) oklch_space
     = @Colorful.generateColorful Sample.lib 0
         (Colorful.mkConfig Colorful.hue_sweep (INR 4) (Some 1)
            None None None None) oklch_space.
Proof.
  destruct (hue_sweep_is_evenly_spaced Sample.lib 4 (Some 1) (Some 2)
              None None None None 0 1 oklch_space
              sample_converts sample_gamut_clamp
              ltac:(intros v E; discriminate E)
              ltac:(intros v E; discriminate E) ltac:(lia))
    as (E & Hrange & Hdistinct & Esame).
  split; [exact E | split; [exact Hrange | split; [exact Hdistinct | exact Esame]]].
Defined.

(** Black against white in the sample library. *)
Lemma getWCAGContrast_range_witness :
  exists black white : ColorResult,
    @parseColor Sample.lib "#000000" = Some black
    /\ @parseColor Sample.lib "#FFFFFF" = Some white
    /\ Wcag.getWCAGContrast black white = 21.
Proof.
  destruct sample_parse_white as (white & Pw & Ew).
  destruct sample_parse_black as (black & Pk & Ek).
  exists black, white. split; [exact Pk | split; [exact Pw |]].
  assert (Hb : in_srgb black) by (unfold in_srgb; rewrite Ek; cbn; lra).
  assert (Hw : in_srgb white) by (unfold in_srgb; rewrite Ew; cbn; lra).
  exact (proj2 (proj2 (proj2 (getWCAGContrast_range black white Hb Hw)))
           Ek Ew).
Defined.


Lemma two_pixels_are_bytes : Forall byte_pixel two_pixels.
Proof.
  unfold two_pixels, byte_pixel, byte.
  repeat constructor; cbn [RGB.r RGB.g RGB.b]; eexists;
    (split; [reflexivity | lia]).
Qed.

(** Two pixels of bytes, one cluster. *)
Lemma kMeansClustering_centers_are_bytes_witness :
  exists (clusters : list Cluster) (calls' : nat),
    kMeansClustering 1%nat two_pixels 1 10%nat zeros 0%nat
    = Returns clusters calls'
    /\ Forall (fun c => byte_pixel (center c)) clusters.
Proof.
  exact (kMeansClustering_centers_are_bytes two_pixels 1 10%nat 1%nat zeros
           0%nat two_pixels_are_bytes ltac:(lia) zeros_unit ltac:(cbn; lia)).
Defined.

(** Three pixels, two colours asked for. *)
Lemma extractColorsFromImage_at_most_colorCount_witness :
  exists (colors : list ColorResult) (calls' : nat),
    @extractColorsFromImage Sample.lib 2%nat three_pixels (Some 2%Z)
      zeros 0%nat
    = Returns colors calls'
    /\ (Z.of_nat (length colors) <= 2)%Z.
Proof.
  destruct (extractColorsFromImage_at_most_colorCount Sample.lib three_pixels
              (Some 2%Z) 2%nat zeros 0%nat
              ltac:(cbn; lia) zeros_unit ltac:(cbn; lia))
    as (colors & calls' & E & Hlen & _).
  exists colors, calls'. split; assumption.
Defined.

(** A cool spectrum of three colours. *)
Lemma cool_spectrum_hue_range_witness :
  Forall (fun x => 120 <= hue_in oklch_space x <= 280)
         (@Spectrum.generateCoolSpectrum Sample.lib (INR 3)
            (Spectrum.mkConfig (INR 3) None None None None None None)
            oklch_space).
Proof.
  apply (cool_spectrum_hue_range Sample.lib 3).
  - exact sample_gamut_clamp.
  - intros v E. discriminate E.
  - intros v E. discriminate E.
Defined.

(** Three tones of a colour of the sample library. *)
Lemma variations_keep_the_hue_witness :
  length (@Variations.generateVariations Sample.lib
            (Sample.color_of_lch 0.5 0.1 30)
            (Variations.mkConfig Variations.tones (INR 3)) oklch_space)
  = 3%nat.
Proof.
  destruct (sample_color_valid 0.5 0.1 30 ltac:(lra) ltac:(lra)) as [Hl Hc].
  exact (proj1 (variations_keep_the_hue Sample.lib
                  (Sample.color_of_lch 0.5 0.1 30) Variations.tones 3
                  oklch_space sample_converts sample_gamut_clamp Hl Hc)).
Defined.

(** The steps 50 and 500 of a tonal scale. *)
Lemma generateTonalScale_lightness_witness :
  map (fun x => LCH.l (oklch x))
      (@Tonal.generateTonalScale Sample.lib (Sample.color_of_lch 0.5 0.1 30)
         (Some [50; 500]) oklch_space)
  = map (fun step => 0.97 - step / 1000 * 0.87) [50; 500].
Proof.
  apply (generateTonalScale_lightness Sample.lib
           (Sample.color_of_lch 0.5 0.1 30) [50; 500]
           sample_converts sample_gamut_clamp).
  repeat constructor; lra.
Defined.

(** The tonal matrix with every default. *)
Lemma generateTonalMatrix_is_a_rectangle_witness :
  length (Tonal.matrix
            (@Tonal.generateTonalMatrix Sample.lib
               (Sample.color_of_lch 0.5 0.1 30)
               (Tonal.mkConfig None None) oklch_space))
  = length (Tonal.result_hues
              (@Tonal.generateTonalMatrix Sample.lib
                 (Sample.color_of_lch 0.5 0.1 30)
                 (Tonal.mkConfig None None) oklch_space)).
Proof.
  exact (proj1 (proj2 (proj2
           (generateTonalMatrix_is_a_rectangle Sample.lib
              (Sample.color_of_lch 0.5 0.1 30) (Tonal.mkConfig None None)
              oklch_space sample_converts)))).
Defined.

(** Three hues from 100 degrees on. *)
Lemma generateEvenHues_are_distinct_witness :
  NoDup (Tonal.generateEvenHues (INR 3) (Some 100)).
Proof.
  exact (proj2 (proj2 (proj2
           (generateEvenHues_are_distinct 3 (Some 100) ltac:(lia))))).
Defined.

(** Four hues across the seam at 360 degrees. *)
Lemma catmullRomHue_unwraps_within_half_a_turn_witness :
  exists h : R,
    Spline.catmullRomHue 1 340 350 10 20 0.5 = Some h /\ 0 <= h < 360
    /\ h = normalizeHue
             (Spline.catmullRom (350 + -10) 350 (350 + 20) (350 + 20 + 10)
                0.5).
Proof.
  destruct (catmullRomHue_unwraps_within_half_a_turn 1 340 350 10 20 0.5
              ltac:(lia) ltac:(lra) ltac:(lra) ltac:(lra) ltac:(lra))
    as (h & d0 & d2 & d3 & E & Hh & Eh & C0 & C2 & C3 & B0 & B2 & B3).
  exists h. split; [exact E | split; [exact Hh |]].
  assert (E0 : d0 = -10) by lra.
  assert (E2 : d2 = 20) by lra.
  assert (E3 : d3 = 10) by lra.
  now rewrite <- E0, <- E2, <- E3.
Defined.

(** The smooth gradient of the three colours in seven steps. *)
Lemma interpolateCatmullRom_returns_every_round_witness :
  exists out,
    @Spline.interpolateCatmullRom Sample.lib 1 three_colors (INR 7)
      oklch_space
    = Some out
    /\ length out = 7%nat.
Proof.
  destruct (interpolateCatmullRom_returns_every_round Sample.lib three_colors
              (INR 7) oklch_space 1 sample_converts ltac:(lia)
              three_colors_normalised)
    as (out & E & Hlen & _).
  exists out. split; [exact E |].
  rewrite (Hlen ltac:(cbn; lia)).
  destruct (Rlt_dec (INR 7) 2) as [H | _]; [cbn in H; lra |].
  exact (iterations_INR 7).
Defined.

(** *** White text on blue, hence on black *)

Lemma Y_of_blue : Contrast.sRGBtoY (RGB.mk 0 0 255) = 0.0721750.
Proof.
  unfold Contrast.sRGBtoY. cbn [RGB.r RGB.g RGB.b].
  replace (0 / 255) with 0 by lra. replace (255 / 255) with 1 by lra.
  rewrite pow_zero, pow_one by lra. lra.
Qed.

(** A power of the luminance of blue with an exponent of at least one half
    is below 0.27. *)
Lemma power_of_blue (y : R) : 1 / 2 <= y -> 0 < Js.pow 0.0721750 y < 0.27.
Proof.
  intro Hy. rewrite pow_positive by lra.
  split; [apply exp_pos |].
  assert (H : Rpower 0.0721750 y <= Rpower 0.0721750 (1 / 2))
    by (apply Rpower_exponent_ge; lra).
  set (u := Rpower 0.0721750 (1 / 2)) in *.
  assert (Hu : 0 < u) by apply exp_pos.
  assert (Huu : u * u = 0.0721750).
  { unfold u. rewrite <- Rpower_plus.
    replace (1 / 2 + 1 / 2) with 1 by lra. apply Rpower_1. lra. }
  assert (u < 0.27) by nra. lra.
Qed.

Lemma apca_white_on_blue : Contrast.APCAcontrast 1.0000001 0.0721750 <= -0.8.
Proof.
  unfold Contrast.APCAcontrast. cbv zeta.
  rewrite (Rmax_right 0 1.0000001), (Rmax_right 0 0.0721750) by lra.
  destruct (Rgt_dec 0.0721750 1.0000001) as [H | _]; [lra |].
  pose proof (pow_between 1.0000001 0.62 ltac:(lra) ltac:(lra)) as Hp.
  pose proof (power_of_blue 0.65 ltac:(lra)) as Hb.
  destruct (Rgt_dec _ _) as [H | _]; lra.
Qed.

Lemma apca_black_on_blue :
  0 <= Contrast.APCAcontrast 0 0.0721750 <= 0.3.
Proof.
  unfold Contrast.APCAcontrast. cbv zeta.
  rewrite (Rmax_left 0 0), (Rmax_right 0 0.0721750) by lra.
  destruct (Rgt_dec 0.0721750 0) as [_ | H]; [| lra].
  rewrite pow_zero by lra.
  pose proof (power_of_blue 0.56 ltac:(lra)) as Hb.
  destruct (Rlt_dec _ _) as [H | H]; lra.
Qed.

Lemma white_text_on_blue (lib : Library) (white black : ColorResult) :
  parseColor "#FFFFFF" = Some white -> rgb white = RGB.mk 255 255 255 ->
  parseColor "#000000" = Some black -> rgb black = RGB.mk 0 0 0 ->
  Contrast.getContrastTextColor (inl blue_background)
  = Some "#FFFFFF"%string.
Proof.
  intros Pw Ew Pk Ek. unfold Contrast.getContrastTextColor.
  rewrite Pw, Pk. cbv zeta. unfold Contrast.getAPCAContrast.
  rewrite Ew, Ek. cbn [rgb blue_background].
  rewrite Y_of_white, Y_of_black, Y_of_blue.
  pose proof apca_white_on_blue as Hw. pose proof apca_black_on_blue as Hb.
  rewrite Rabs_left, Rabs_right by lra.
  destruct (Rgt_dec _ _) as [_ | H]; [reflexivity | lra].
Qed.

(** White text is chosen on blue, and so on black, which is darker in
    every channel. *)
Lemma getContrastTextColor_keeps_white_on_darker_witness :
  exists black white : ColorResult,
    @parseColor Sample.lib "#000000" = Some black
    /\ @parseColor Sample.lib "#FFFFFF" = Some white
    /\ @Contrast.getContrastTextColor Sample.lib (inl blue_background)
       = Some "#FFFFFF"%string
    /\ @Contrast.getContrastTextColor Sample.lib (inl black_background)
       = Some "#FFFFFF"%string
    /\ @Wcag.getContrastTextColorFast Sample.lib (inl blue_background)
       = "#FFFFFF"%string
    /\ @Wcag.getContrastTextColorFast Sample.lib (inl black_background)
       = "#FFFFFF"%string.
Proof.
  destruct sample_parse_white as (white & Pw & Ew).
  destruct sample_parse_black as (black & Pk & Ek).
  exists black, white. split; [exact Pk | split; [exact Pw |]].
  assert (Hblack : in_srgb black_background) by (unfold in_srgb; cbn; lra).
  assert (Hblue : in_srgb blue_background) by (unfold in_srgb; cbn; lra).
  assert (Hdarker : no_lighter black_background blue_background)
    by (unfold no_lighter; cbn; lra).
  pose proof (white_text_on_blue Sample.lib white black Pw Ew Pk Ek) as Hslow.
  assert (Hfast : @Wcag.getContrastTextColorFast Sample.lib
                    (inl blue_background) = "#FFFFFF"%string).
  { unfold Wcag.getContrastTextColorFast. cbn [oklch blue_background LCH.l].
    destruct (Rlt_dec 0.452 0.6) as [_ | H]; [reflexivity | lra]. }
  destruct (getContrastTextColor_keeps_white_on_darker Sample.lib
              white black black_background blue_background
              Pw Ew Pk Ek Hblack Hblue Hdarker) as [Slow Fast].
  split; [exact Hslow |]. split; [exact (Slow Hslow) |].
  split; [exact Hfast |]. apply Fast; [cbn; lra | exact Hfast].
Defined.
